(** * Orchestrator: a shallow embedding of [index.js]

    The orchestrator keeps a registry of named tasks, computes a run order
    with the sequencer and drives the tasks from [_runStep].  The embedding
    follows the JavaScript source function by function.

    Modelling conventions.
    - [this.tasks] is a plain object used as a map from names to task
      objects.  Its keys are enumerated by [for (i in this.tasks)] in
      insertion order, so the registry is a list of task records in
      insertion order, looked up by the [name] field (which [add] always
      sets to the key).  This is how a plain object behaves for keys that are
      neither array indices, which are enumerated first, nor names of
      members of [Object.prototype], which are found without having been
      added; a statement that depends on it says so with [plain_key] or
      [prototype_member].
    - Task objects are mutable and captured by the closures [_runTask]
      creates.  [add] replaces the object stored under a name by a new
      object; a closure that captured the old object then writes to an
      object the registry no longer reaches.  Every task object carries an
      identity stamp [tid]; a write through a captured object reaches the
      registry entry only if that entry still is the same object.
    - An executor is described by what the scheduler can observe of it: its
      declared parameter count, the invocations of the completion callback
      it makes before the call ends, and the way the call ends.  Executors
      and notifiers do not call back into [add], [run], [stop] or [reset].
    - Completion signals that arrive after the call has ended are the
      operations [callback], [fulfilled] and [rejected], one per event-loop
      turn.
    - [console.log] lines, executor invocations, [stop] calls and notifier
      invocations are recorded in a trace. *)

From stdpp Require Import base option list strings relations.

Open Scope string_scope.
Open Scope list_scope.
Open Scope nat_scope.

#[local] Set Warnings "-clear-no-such-hyp".

(** ** Values *)

(** The values that travel as errors. *)
Inductive value :=
| VUndefined
| VNull
| VStr (s : string)
| VError (msg : string).

(** JavaScript truthiness. *)
Definition truthy (v : value) : bool :=
  match v with
  | VUndefined | VNull => false
  | VStr s => negb (String.eqb s "")
  | VError _ => true
  end.

(** [v || alt] *)
Definition js_or (v alt : value) : value := if truthy v then v else alt.

(** A handler invocation made by a deferred handle. *)
Inductive settle :=
| Fulfil
| Reject (e : value).

(** What an executor call returns: a value without a [done] method, or a
    deferred handle; [sync_settles] lists the handler invocations the handle
    makes while [p.done(onFulfilled, onRejected)] registers the handlers. *)
Inductive retval :=
| RPlain
| RDeferred (sync_settles : list settle).

(** How an executor call ends. *)
Inductive completion :=
| Throw (e : value)
| Return (r : retval).

(** An executor, as far as [_runTask] can tell: [fn_length] is [fn.length],
    [fn_calls] lists the arguments of the invocations of the completion
    callback the executor makes before its call ends, in order, and [fn_end]
    is the way the call ends. *)
Record executor := {
  fn_length : nat;
  fn_calls : list value;
  fn_end : completion
}.

(** An argument of [add] in the second or third position. *)
Inductive jsarg :=
| AUndefined
| AArray (items : list string)
| AFunction (f : executor).

(** The truthy values [add] can leave in the [fn] field. *)
Inductive fnval :=
| FArray (items : list string)
| FFunction (f : executor).

(** A completion notifier is opaque; its invocations are recorded. *)
Definition notifier := nat.

(** ** Orchestrator state *)

(** A task object [{fn, dep, name}] with the flags [_runTask] adds;
    [running] and [done] are [false] while the properties are undefined, and
    [tid] is the identity of the object. *)
Record task := {
  name : string;
  dep : list string;
  fn : fnval;
  running : bool;
  done : bool;
  tid : nat
}.

(** The fields of [this]. *)
Record orchestrator := {
  verbose : bool;
  doneCallback : option notifier;
  seq : list string;
  tasks : list task;
  isRunning : bool
}.

(** What is observed of an execution: a line written by [console.log]; the
    entry into [_runTask] for the task named [n], which goes on to invoke
    the executor, with the registry as it is on entry; a call of [stop]; an
    invocation of the notifier. *)
Inductive event :=
| Console (line : string)
| Started (n : string) (registry : list task)
| Stopped (err : value)
| Notified (cb : notifier) (err : value).

(** The orchestrator together with the next identity stamp and the trace. *)
Record world := {
  this : orchestrator;
  fresh : nat;
  trace : list event
}.

(** A call returns or throws. *)
Inductive outcome :=
| Normal (w : world)
| Thrown (e : value) (w : world).

Definition world_of (o : outcome) : world :=
  match o with Normal w => w | Thrown _ w => w end.

(** [new Orchestrator(opts)] *)
Definition Orchestrator (opt_verbose : bool) (opt_callback : option notifier)
    (opt_seq : list string) : world :=
  {| this := {| verbose := opt_verbose; doneCallback := opt_callback;
                seq := opt_seq; tasks := []; isRunning := false |};
     fresh := 0; trace := [] |}.

(** *** Field updates *)

Definition with_this (f : orchestrator → orchestrator) (w : world) : world :=
  {| this := f (this w); fresh := fresh w; trace := trace w |}.

Definition set_isRunning (b : bool) : world → world :=
  with_this (λ o, {| verbose := verbose o; doneCallback := doneCallback o;
                     seq := seq o; tasks := tasks o; isRunning := b |}).

Definition set_doneCallback (c : option notifier) : world → world :=
  with_this (λ o, {| verbose := verbose o; doneCallback := c;
                     seq := seq o; tasks := tasks o; isRunning := isRunning o |}).

Definition set_seq (s : list string) : world → world :=
  with_this (λ o, {| verbose := verbose o; doneCallback := doneCallback o;
                     seq := s; tasks := tasks o; isRunning := isRunning o |}).

Definition set_tasks (ts : list task) : world → world :=
  with_this (λ o, {| verbose := verbose o; doneCallback := doneCallback o;
                     seq := seq o; tasks := ts; isRunning := isRunning o |}).

Definition emit (e : event) (w : world) : world :=
  {| this := this w; fresh := fresh w; trace := trace w ++ [e] |}.

(** [if (this.verbose) console.log(line)] *)
Definition log (line : string) (w : world) : world :=
  if verbose (this w) then emit (Console line) w else w.

(** *** The registry *)

(** The names under which a plain object such as [this.tasks] finds a member
    inherited from [Object.prototype] when it has no property of its own:
    for these names [this.tasks[n]] is not [undefined] although no task has
    been added under [n], and a task added under [__proto__] becomes the
    prototype of the registry instead of an entry. *)
Definition prototype_member (n : string) : bool :=
  bool_decide (n ∈ ["constructor"; "hasOwnProperty"; "isPrototypeOf";
                    "propertyIsEnumerable"; "toLocaleString"; "toString"; "valueOf";
                    "__proto__"; "__defineGetter__"; "__defineSetter__";
                    "__lookupGetter__"; "__lookupSetter__"]).

Definition is_digit (c : Ascii.ascii) : bool :=
  Nat.leb 48 (Ascii.nat_of_ascii c) && Nat.leb (Ascii.nat_of_ascii c) 57.

Fixpoint all_digits (s : string) : bool :=
  match s with
  | String.EmptyString => true
  | String.String c rest => is_digit c && all_digits rest
  end.

(** A name written with decimal digits only.  The array indices, which
    [for (i in this.tasks)] lists in ascending order ahead of every other
    key, are among these names. *)
Definition digits_only (n : string) : bool :=
  negb (String.eqb n "") && all_digits n.

(** A key that a plain object treats like any other: looked up among its
    own properties only, and enumerated at the place of its insertion. *)
Definition plain_key (n : string) : bool :=
  negb (prototype_member n) && negb (digits_only n).

(** [tasks[n]] for the own properties of the registry: the task added under
    [n], if any.  For a name that is not a [prototype_member] this is all
    that [this.tasks[n]] can find. *)
Fixpoint lookup_task (n : string) (ts : list task) : option task :=
  match ts with
  | [] => None
  | t :: rest => if String.eqb (name t) n then Some t else lookup_task n rest
  end.

(** [tasks[n] = t]: an existing key keeps its place, a new key goes last.
    This is the order in which the own keys are enumerated as long as they
    are [plain_key]s. *)
Fixpoint store_task (t : task) (ts : list task) : list task :=
  match ts with
  | [] => [t]
  | u :: rest =>
      if String.eqb (name u) (name t) then t :: rest else u :: store_task t rest
  end.

(** The task [t] with its flags set to [r] and [d]. *)
Definition set_flags (r d : bool) (t : task) : task :=
  {| name := name t; dep := dep t; fn := fn t; running := r; done := d; tid := tid t |}.

(** A write to the flags of the object [t] some closure holds. *)
Definition write_flags (t : task) (f : task → task) (ts : list task) : list task :=
  map (λ u, if String.eqb (name u) (name t) && Nat.eqb (tid u) (tid t) then f u else u) ts.

(** [task.running = true] *)
Definition mark_running (t : task) (w : world) : world :=
  set_tasks (write_flags t (λ u, set_flags true (done u) u) (tasks (this w))) w.

(** [task.running = false; task.done = true] *)
Definition mark_done (t : task) (w : world) : world :=
  set_tasks (write_flags t (set_flags false true) (tasks (this w))) w.

(** ** [stop] *)

(** [stop(err, successfulFinish)] *)
Definition stop (err : value) (successfulFinish : bool) (w : world) : world :=
  let w := set_isRunning false w in
  let w := emit (Stopped err) w in
  let w :=
    if truthy err then log "[orchestration failed]" w
    else if successfulFinish then log "[orchestration succeeded]" w
    else log "[orchestration aborted]" w in
  match doneCallback (this w) with
  | Some cb => emit (Notified cb err) (set_doneCallback None w)
  | None => w
  end.

(** ** [reset] *)

(** [reset()] *)
Definition reset (w : world) : world :=
  let w := stop VNull false w in
  let w := set_tasks [] w in
  let w := set_seq [] w in
  let w := set_isRunning false w in
  set_doneCallback None w.

(** ** [add] *)

(** The value of a truthy argument. *)
Definition arg_truthy (a : jsarg) : option fnval :=
  match a with
  | AUndefined => None
  | AArray l => Some (FArray l)
  | AFunction f => Some (FFunction f)
  end.

(** [dep || []] as [_readyToRunTask] reads it.  A list of names is kept, and
    nothing becomes the empty list.  A function in the dependency position is
    truthy and is kept as [task.dep] too; what is read of [task.dep] is its
    [length] and its elements (lines 126 to 128), and a function has its
    declared parameter count as [length] and [undefined] at every index,
    which as a key of [this.tasks] is the name [undefined]. *)
Definition dep_or_empty (a : jsarg) : list string :=
  match a with
  | AUndefined => []
  | AArray l => l
  | AFunction f => replicate (fn_length f) "undefined"
  end.

(** The name, if given and not the empty string. *)
Definition name_truthy (n : option string) : option string :=
  match n with
  | Some s => if String.eqb s "" then None else Some s
  | None => None
  end.

(** [add(name, dep, fn)]; an argument left out is [undefined]. *)
Definition add (name_arg : option string) (dep_arg fn_arg : jsarg) (w : world) : outcome :=
  let '(fn_arg, dep_arg) :=
    match arg_truthy fn_arg with
    | None => (dep_arg, AUndefined)
    | Some _ => (fn_arg, dep_arg)
    end in
  match name_truthy name_arg, arg_truthy fn_arg with
  | Some n, Some f =>
      let t := {| name := n; dep := dep_or_empty dep_arg; fn := f;
                  running := false; done := false; tid := fresh w |} in
      Normal {| this := this (set_tasks (store_task t (tasks (this w))) w);
                fresh := S (fresh w); trace := trace w |}
  | _, _ => Thrown (VError "Task requires a name and a function to execute") w
  end.

(** ** The sequencer

    [index.js] takes the sequencer from [require('./lib/sequence')] and calls
    it as [this.sequence(this.tasks, names, seq, [])]; the file itself is not
    among the sources.  This part of the model follows section 4.2 of the
    specification. *)

(** Modelled from the spec: membership of a name in [results] or [nest],
    for "if not already present" and "still marked as currently expanding";
    the missing file is [lib/sequence.js]. *)
Fixpoint contains (n : string) (l : list string) : bool :=
  match l with
  | [] => false
  | x :: rest => String.eqb x n || contains n rest
  end.

(** Modelled from the spec: the two failures of the missing sequencer, a
    cycle (with the path that closes it) and an unregistered name (with the
    task that refers to it, if any). *)
Inductive seq_error :=
| CircularDependencyError (cycle : list string)
| DependencyError (missing : string) (referrer : option string).

(** Modelled from the spec: what the missing sequencer hands back, the
    extended [results] or a failure; [SeqDepth] marks an expansion cut off by
    the depth bound of [sequence_go]. *)
Inductive seq_result :=
| SeqOk (results : list string)
| SeqFail (e : seq_error)
| SeqDepth.

Section Visit.
Variable ts : list task.
(** The recursive expansion of a dependency list. *)
Variable expand : list string → list string → list string → seq_result.

(** Modelled from the spec: the loop of the missing sequencer over [names].
  A name on the path being expanded ([nest]) is a circular dependency, a
  name without a registry entry is a dependency error; otherwise the
  dependencies of the name are visited first, with the name put on the
  path, and the name is appended to [results] unless already present. *)
Fixpoint visit_each (names results nest : list string) : seq_result :=
match names with
| [] => SeqOk results
| n :: rest =>
    if contains n nest then
      SeqFail (CircularDependencyError (reverse (n :: nest)))
    else
      match lookup_task n ts with
      | None => SeqFail (DependencyError n (head nest))
      | Some t =>
          match expand (dep t) results (n :: nest) with
          | SeqOk results' =>
              visit_each rest
                (if contains n results' then results' else results' ++ [n])
                nest
          | failure => failure
          end
      end
end.
End Visit.

(** Modelled from the spec: the depth-first expansion of the missing
    sequencer, [depth] levels deep. *)
Fixpoint sequence_go (depth : nat) (ts : list task)
    (names results nest : list string) : seq_result :=
  match depth with
  | 0 => SeqDepth
  | S depth' => visit_each ts (sequence_go depth' ts) names results nest
  end.

(** Modelled from the spec: [lib/sequence.js], the function behind
    [this.sequence(tasks, names, results, nest)], is missing.  Following
    section 4.2 it expands every requested name depth first.  The expansion
    is bounded by the number of registry entries, which a path without
    repetition cannot exceed ([sequence_total] below). *)
Definition sequence (ts : list task) (names results nest : list string) : seq_result :=
  sequence_go (S (length ts)) ts names results nest.

(** ** The scheduler *)

(** The error of reading [task.done] when [this.tasks[this.seq[i]]] is
    undefined. *)
Definition type_error : value :=
  VError "TypeError: Cannot read property 'done' of undefined".

(** The error of [task.fn.call(...)] when [task.fn] is not a function. *)
Definition not_callable : value :=
  VError "TypeError: task.fn.call is not a function".

(** The loop of [allDone]; [None] when [this.tasks[this.seq[i]]] is
    undefined. *)
Fixpoint allDone_loop (names : list string) (ts : list task) : option bool :=
  match names with
  | [] => Some true
  | n :: rest =>
      match lookup_task n ts with
      | None => None
      | Some t => if done t then allDone_loop rest ts else Some false
      end
  end.

(** [allDone()] *)
Definition allDone (w : world) : option bool :=
  allDone_loop (seq (this w)) (tasks (this w)).

(** The message of [_readyToRunTask] for a dependency that does not exist. *)
Definition missing_msg (t : task) (d : string) : value :=
  VStr ("can't run " +:+ name t +:+ " because it depends on " +:+ d
        +:+ " which doesn't exist").

(** The loop of [_readyToRunTask] over [task.dep]. *)
Fixpoint readyToRunTask_loop (t : task) (deps : list string) (w : world) : bool * world :=
  match deps with
  | [] => (true, w)
  | d :: rest =>
      match lookup_task d (tasks (this w)) with
      | None => (false, stop (missing_msg t d) false w)
      | Some td => if done td then readyToRunTask_loop t rest w else (false, w)
      end
  end.

(** [_readyToRunTask(task)] *)
Definition readyToRunTask (t : task) (w : world) : bool * world :=
  readyToRunTask_loop t (dep t) w.

(** [task.fn.length] *)
Definition fnval_length (f : fnval) : nat :=
  match f with
  | FArray l => length l
  | FFunction f => fn_length f
  end.

(** How the call [task.fn.call(this, cb)] ends for [_runTask]. *)
Inductive call_end :=
| Threw (e : value)
| Returned (r : retval).

Section Scheduler.
(** [that._runStep.call(that)] as seen from a completion handler. *)
Variable runStep_rec : world → option outcome.

(** The closure [cb] of [_runTask]. *)
Definition cb (t : task) (err : value) (w : world) : option outcome :=
  let w := mark_done t w in
  let w := log ("[" +:+ name t +:+ " calledback]") w in
  if truthy err then Some (Normal (stop err false w)) else runStep_rec w.

(** The callback invocations an executor makes during its call. *)
Fixpoint call_body (t : task) (calls : list value) (w : world) : option outcome :=
  match calls with
  | [] => Some (Normal w)
  | v :: rest =>
      match cb t v w with
      | Some (Normal w') => call_body t rest w'
      | other => other
      end
  end.

(** [task.fn.call(this, cb)] *)
Definition call_fn (t : task) (w : world) : option (call_end * world) :=
  match fn t with
  | FArray _ => Some (Threw not_callable, w)
  | FFunction f =>
      match call_body t (fn_calls f) w with
      | None => None
      | Some (Thrown e w') => Some (Threw e, w')
      | Some (Normal w') =>
          Some (match fn_end f with
                | Throw e => Threw e
                | Return r => Returned r
                end, w')
      end
  end.

(** The handlers given to [p.done]. *)
Definition onFulfilled (t : task) (w : world) : option outcome :=
  let w := mark_done t w in
  let w := log ("[" +:+ name t +:+ " resolved]") w in
  runStep_rec w.

Definition onRejected (t : task) (err : value) (w : world) : world :=
  let w := mark_done t w in
  let w := log ("[" +:+ name t +:+ " rejected]") w in
  stop (js_or err (VStr (name t +:+ " promise rejected"))) false w.

(** [p.done(onFulfilled, onRejected)] *)
Fixpoint register_handlers (t : task) (settles : list settle) (w : world)
    : option outcome :=
  match settles with
  | [] => Some (Normal w)
  | s :: rest =>
      match (match s with
             | Fulfil => onFulfilled t w
             | Reject e => Some (Normal (onRejected t e w))
             end) with
      | Some (Normal w') => register_handlers t rest w'
      | other => other
      end
  end.

(** [_runTask] *)
Definition runTask (t : task) (w : world) : option outcome :=
  let w := log ("[" +:+ name t +:+ " started]") w in
  let w := emit (Started (name t) (tasks (this w))) w in
  let w := mark_running t w in
  match call_fn t w with
  | None => None
  | Some (e, w) =>
      let '(p, w) :=
        match e with
        | Threw err =>
            (RPlain,
             stop (js_or err (VStr (name t +:+ " threw an exception"))) false w)
        | Returned r => (r, w)
        end in
      match p with
      | RDeferred settles => register_handlers t settles w
      | RPlain =>
          if Nat.eqb (fnval_length (fn t)) 0 then
            Some (Normal (mark_done t (log ("[" +:+ name t +:+ " finished]") w)))
          else Some (Normal w)
      end
  end.

(** One iteration of the loop of [_runStep] on the task named [n]. *)
Definition scan_one (n : string) (w : world) : option outcome :=
  match lookup_task n (tasks (this w)) with
  | None => Some (Thrown type_error w)
  | Some t =>
      if negb (done t) && negb (running t) then
        let '(ready, w) := readyToRunTask t w in
        if ready then runTask t w else Some (Normal w)
      else Some (Normal w)
  end.

(** The loop of [_runStep] over the remaining names, then [allDone]. *)
Fixpoint scan (names : list string) (w : world) : option outcome :=
  match names with
  | [] =>
      match allDone w with
      | None => Some (Thrown type_error w)
      | Some true => Some (Normal (stop VNull true w))
      | Some false => Some (Normal w)
      end
  | n :: rest =>
      match scan_one n w with
      | Some (Normal w') =>
          if isRunning (this w') then scan rest w' else Some (Normal w')
      | other => other
      end
  end.
End Scheduler.

(** [_runStep]; [fuel] bounds the nesting of passes inside completion
    handlers. *)
Fixpoint runStep (fuel : nat) (w : world) : option outcome :=
  match fuel with
  | 0 => None
  | S fuel' =>
      if isRunning (this w) then scan (runStep fuel') (seq (this w)) w
      else Some (Normal w)
  end.

(** ** [run] *)

(** [names.concat(this.seq)] when already running, every registered name
    when nothing is requested, in the order of the registry (the order of
    [for (i in this.tasks)] for a registry of [plain_key]s). *)
Definition run_names (names : list string) (w : world) : list string :=
  let names := if isRunning (this w) then names ++ seq (this w) else names in
  match names with
  | [] => map name (tasks (this w))
  | _ => names
  end.

(** Modelled from the spec: the error value of a failure of the missing
    sequencer; the wording of the messages is not specified. *)
Definition seq_error_value (e : seq_error) : value :=
  match e with
  | CircularDependencyError cycle =>
      VError ("Recursive dependencies detected: " +:+ String.concat " -> " cycle)
  | DependencyError missing _ =>
      VError (missing +:+ " is not defined")
  end.

(** Modelled from the spec: the call [this.sequence(this.tasks, names, seq, [])]
    of the missing sequencer, as [run] makes it with [seq] empty; the result
    is what the call leaves in [seq].  By section 7 a failure is delivered
    through [stop] to the notifier and is not thrown, and by section 8
    nothing is scheduled after it: the call then returns with [seq] left
    empty. *)
Definition sequence_call (names : list string) (w : world) : option (list string * world) :=
  match sequence (tasks (this w)) names [] [] with
  | SeqOk s => Some (s, w)
  | SeqFail e => Some ([], stop (seq_error_value e) false w)
  | SeqDepth => None
  end.

(** [run(...names, notifier?)] *)
Definition run (fuel : nat) (names : list string) (callback : option notifier)
    (w : world) : option outcome :=
  let w := match callback with
           | Some c => set_doneCallback (Some c) w
           | None => w
           end in
  let names := run_names names w in
  match sequence_call names w with
  | None => None
  | Some (s, w) =>
      let w := set_seq s w in
      let w := log ("[seq: " +:+ String.concat "," s +:+ "]") w in
      let w := if isRunning (this w) then w else set_isRunning true w in
      runStep fuel w
  end.

(** ** Completion signals arriving in a later turn *)

Definition callback (fuel : nat) (t : task) (err : value) (w : world) : option outcome :=
  cb (runStep fuel) t err w.

Definition fulfilled (fuel : nat) (t : task) (w : world) : option outcome :=
  onFulfilled (runStep fuel) t w.

Definition rejected (t : task) (err : value) (w : world) : world :=
  onRejected t err w.

(** ** Observations on traces and worlds *)

Definition started_name (e : event) : option string :=
  match e with Started n _ => Some n | _ => None end.

Definition stopped_err (e : event) : option value :=
  match e with Stopped v => Some v | _ => None end.

Definition notified_call (e : event) : option (notifier * value) :=
  match e with Notified c v => Some (c, v) | _ => None end.

(** The executors invoked, the [stop] calls and the notifier invocations of
    a trace, in order. *)
Definition starts (evs : list event) : list string := omap started_name evs.
Definition stops (evs : list event) : list value := omap stopped_err evs.
Definition notified (evs : list event) : list (notifier * value) := omap notified_call evs.

(** The task named [n] is not done, not running, and each of its
    dependencies is a registered task that is done. *)
Definition eligible (r : list task) (n : string) : Prop :=
  ∃ t, lookup_task n r = Some t ∧ done t = false ∧ running t = false ∧
       Forall (λ d, ∃ td, lookup_task d r = Some td ∧ done td = true) (dep t).

(** How a task object may differ after some execution. *)
Definition task_le (u u' : task) : Prop :=
  name u' = name u ∧ dep u' = dep u ∧ fn u' = fn u ∧ tid u' = tid u ∧
  (done u = true → done u' = true) ∧
  (done u || running u = true → done u' || running u' = true).

(** After the first [stop] no executor is invoked. *)
Fixpoint quiet_after_stop (evs : list event) : Prop :=
  match evs with
  | [] => True
  | Stopped _ :: rest => starts rest = []
  | _ :: rest => quiet_after_stop rest
  end.

(** [step X w evs w']: the world [w'] is [w] after an execution that
    appended [evs] to the trace; apart from the tasks named in [X], only
    tasks whose executor was invoked have changed. *)
Record step (X : list string) (w : world) (evs : list event) (w' : world) : Prop := {
  step_trace : trace w' = trace w ++ evs;
  step_verbose : verbose (this w') = verbose (this w);
  step_seq : seq (this w') = seq (this w);
  step_fresh : fresh w' = fresh w;
  step_isRunning :
    isRunning (this w') =
    match stops evs with [] => isRunning (this w) | _ => false end;
  step_doneCallback :
    doneCallback (this w') =
    match stops evs with [] => doneCallback (this w) | _ => None end;
  step_notified :
    notified evs =
    match doneCallback (this w), stops evs with
    | Some c, e :: _ => [(c, e)]
    | _, _ => []
    end;
  step_tasks : Forall2 task_le (tasks (this w)) (tasks (this w'));
  step_untouched :
    ∀ n, n ∉ X → n ∉ starts evs →
         lookup_task n (tasks (this w')) = lookup_task n (tasks (this w));
  step_quiet : isRunning (this w) = false → starts evs = [];
  step_after_stop : quiet_after_stop evs;
  step_starts : ∀ n r, Started n r ∈ evs → eligible r n
}.

Definition steps (X : list string) (w w' : world) : Prop := ∃ evs, step X w evs w'.

Ltac wsimpl_goal :=
  unfold mark_done, mark_running, set_tasks, set_seq, set_isRunning,
    set_doneCallback, with_this, emit; simpl.

Ltac wsimpl :=
  unfold mark_done, mark_running, set_tasks, set_seq, set_isRunning,
    set_doneCallback, with_this, emit in *; simpl in *.

(** The events of one [stop] call. *)
Definition stop_events (err : value) (successfulFinish : bool) (w : world) : list event :=
  Stopped err ::
  (if verbose (this w) then
     [Console (if truthy err then "[orchestration failed]"
               else if successfulFinish then "[orchestration succeeded]"
               else "[orchestration aborted]")]
   else []) ++
  match doneCallback (this w) with
  | Some c => [Notified c err]
  | None => []
  end.

(** The state in which [_runTask] calls the executor. *)
Definition at_call (t : task) (w : world) : world :=
  let w := log ("[" +:+ name t +:+ " started]") w in
  mark_running t (emit (Started (name t) (tasks (this w))) w).

Arguments at_call : simpl never.

(** The executor among the arguments of [add(name, dep, fn)]: the third
    argument, or the second when the third is omitted. *)
Definition executor_of (dep_arg fn_arg : jsarg) : option executor :=
  match fn_arg with
  | AFunction f => Some f
  | AUndefined => match dep_arg with AFunction f => Some f | _ => None end
  | AArray _ => None
  end.

(** The number of registered tasks that are neither done nor running. *)
Definition unstarted (ts : list task) : nat :=
  length (filter (λ t, (done t || running t) = false) ts).

(** [s] occurs in [l] ahead of every occurrence of [t]. *)
Definition before (s t : string) (l : list string) : Prop :=
  ∃ l1 l2, l = l1 ++ (s :: l2) ∧ (t ∉ l1) ∧ s ≠ t.

(** Of [s] and [t], the first to occur in [l], if any, is [s]. *)
Fixpoint first_is (s t : string) (l : list string) : Prop :=
  match l with
  | [] => True
  | x :: rest =>
      if String.eqb x s then True
      else if String.eqb x t then False
      else first_is s t rest
  end.

(** ** Histories *)

(** What can happen to an orchestrator, one event-loop turn at a time: the
    calls of the public methods and the completion signals of tasks. *)
Inductive op :=
| OpAdd (name_arg : option string) (dep_arg fn_arg : jsarg)
| OpRun (names : list string) (notify : option notifier)
| OpStop (err : value) (successfulFinish : bool)
| OpReset
| OpCallback (t : task) (err : value)
| OpFulfilled (t : task)
| OpRejected (t : task) (err : value).

Definition exec (fuel : nat) (o : op) (w : world) : option outcome :=
  match o with
  | OpAdd n d f => Some (add n d f w)
  | OpRun names notify => run fuel names notify w
  | OpStop err fin => Some (Normal (stop err fin w))
  | OpReset => Some (Normal (reset w))
  | OpCallback t err => callback fuel t err w
  | OpFulfilled t => fulfilled fuel t w
  | OpRejected t err => Some (Normal (rejected t err w))
  end.

(** An exception that leaves a turn uncaught ends the turn; the orchestrator
    stays as the turn left it. *)
Fixpoint exec_all (fuel : nat) (ops : list op) (w : world) : option world :=
  match ops with
  | [] => Some w
  | o :: rest =>
      match exec fuel o w with
      | Some r => exec_all fuel rest (world_of r)
      | None => None
      end
  end.

(** Every executor invocation recorded in [evs] found its task eligible. *)
Definition starts_eligible (evs : list event) : Prop :=
  ∀ n r, Started n r ∈ evs → eligible r n.

(** A stretch of execution that, entered with [s] and [t] both eligible and
    [s] ahead of [t] in the sequence, does not invoke the executor of [t]
    ahead of that of [s]. *)
Definition ordered_steps (s t : string) (X : list string) (w w' : world) : Prop :=
  ∃ evs, step X w evs w' ∧
    (eligible (tasks (this w)) s → eligible (tasks (this w)) t →
     first_is s t (starts evs)).

(** [w'] is [w] with more trace, and every executor invocation added found
    its task eligible. *)
Definition trace_ok (w w' : world) : Prop :=
  ∃ evs, trace w' = trace w ++ evs ∧ starts_eligible evs.

(** ** The dependency graph *)

(** [b] is a dependency of the registered task [a]. *)
Definition depends (ts : list task) (a b : string) : Prop :=
  ∃ t, lookup_task a ts = Some t ∧ b ∈ dep t.

Definition registered (ts : list task) (n : string) : Prop :=
  is_Some (lookup_task n ts).

Definition acyclic (ts : list task) : Prop := ∀ a, ¬ tc (depends ts) a a.

(** [b] sits at an earlier position of [l] than [a]. *)
Definition earlier (b a : string) (l : list string) : Prop :=
  ∃ l1 l2, l = l1 ++ (a :: l2) ∧ b ∈ l1.

(** An output of the sequencer: no name twice, registered names only, and
    every dependency of a listed name listed ahead of it. *)
Definition sequenced (ts : list task) (l : list string) : Prop :=
  NoDup l ∧
  (∀ n, n ∈ l → registered ts n) ∧
  (∀ n d, n ∈ l → depends ts n d → earlier d n l).

(** What visiting [names] adds to [results]. *)
Definition visit_spec (ts : list task) (names results results' : list string) : Prop :=
  (∃ ext, results' = results ++ ext) ∧
  (sequenced ts results → sequenced ts results') ∧
  (∀ n, n ∈ names → n ∈ results') ∧
  (∀ x, x ∈ results' → x ∈ results ∨ ∃ n, n ∈ names ∧ rtc (depends ts) n x).

(** ** Runs *)

(** What a turn may do to the run: the running flag falls and the notifier
    is consumed exactly when [stop] is called, the notifier registered
    beforehand receives the error of the first [stop] call and nothing else,
    and no executor is invoked once the run is stopped. *)
Record turn (w : world) (evs : list event) (w' : world) : Prop := {
  turn_trace : trace w' = trace w ++ evs;
  turn_isRunning :
    isRunning (this w') =
    match stops evs with [] => isRunning (this w) | _ => false end;
  turn_doneCallback :
    doneCallback (this w') =
    match stops evs with [] => doneCallback (this w) | _ => None end;
  turn_notified :
    notified evs =
    match doneCallback (this w), stops evs with
    | Some c, e :: _ => [(c, e)]
    | _, _ => []
    end;
  turn_quiet : isRunning (this w) = false → starts evs = [];
  turn_after_stop : quiet_after_stop evs
}.

Definition is_run (o : op) : bool :=
  match o with OpRun _ _ => true | _ => false end.

(** Every name of the stored sequence is registered. *)
Definition seq_registered (w : world) : Prop :=
  ∀ n, n ∈ seq (this w) → registered (tasks (this w)) n.

(** The registry holds one object per name, and the identity stamps of its
    objects are distinct and below the next stamp to be handed out. *)
Definition well_stamped (w : world) : Prop :=
  NoDup (map name (tasks (this w))) ∧
  NoDup (map tid (tasks (this w))) ∧
  Forall (λ t, tid t < fresh w) (tasks (this w)).

(** ** Scanning in sequence order *)

(** None of the tasks named in [l] is eligible. *)
Definition none_eligible (ts : list task) (l : list string) : Prop :=
  ∀ s, s ∈ l → ¬ eligible ts s.

(** Every executor invocation recorded in [evs] found no task eligible at
    an earlier position of the sequence [sq]. *)
Definition starts_in_order (sq : list string) (evs : list event) : Prop :=
  ∀ t r pre post, Started t r ∈ evs → sq = pre ++ (t :: post) → none_eligible r pre.

(** The registry entry under the name of [u] is the object [u]. *)
Definition owns (u : task) (ts : list task) : Prop :=
  ∃ u0, lookup_task (name u) ts = Some u0 ∧ tid u0 = tid u.

(** What holds of the world between the steps of [_runTask] for the task
    [u], which sits in the sequence [sq] right after [pre]: unless the run
    has been stopped, nothing up to [u] is eligible. *)
Definition in_task (sq pre : list string) (u : task) (w : world) : Prop :=
  isRunning (this w) = false ∨ none_eligible (tasks (this w)) (pre ++ [name u]).

(** What stays true of the world all through a pass over [sq]. *)
Definition in_pass (sq : list string) (w : world) : Prop :=
  seq (this w) = sq ∧ sequenced (tasks (this w)) sq.

(** An execution from [w] to the outcome [o] that invokes executors in the
    order of [sq] and, when it ends normally, ends in a world satisfying
    [Q]. *)
Definition pass_in_order (sq : list string) (w : world) (o : outcome)
    (Q : world → Prop) : Prop :=
  ∃ evs, trace (world_of o) = trace w ++ evs ∧ starts_in_order sq evs ∧
         ∀ w', o = Normal w' → Q w'.

(** After a pass that leaves the run active no task of the sequence is
    eligible. *)
Definition quiescent (sq : list string) (w : world) : Prop :=
  isRunning (this w) = true → none_eligible (tasks (this w)) sq.

(** ** The parts of [run] *)

(** The world in which [run] calls the sequencer: a notifier given as last
    argument has been registered. *)
Definition with_notifier (notify : option notifier) (w : world) : world :=
  match notify with
  | Some c => set_doneCallback (Some c) w
  | None => w
  end.

(** The world in which [run] calls [_runStep]: the sequence [s] is stored
    and logged and the running flag is set. *)
Definition prepared (s : list string) (w : world) : world :=
  let w := log ("[seq: " +:+ String.concat "," s +:+ "]") (set_seq s w) in
  if isRunning (this w) then w else set_isRunning true w.

(** ** Further observations *)

(** The name [n] has a registry entry that is marked done. *)
Definition finished (r : list task) (n : string) : Prop :=
  ∃ t, lookup_task n r = Some t ∧ done t = true.

(** The task named [n] has been started: its registry entry is running or
    done. *)
Definition started (r : list task) (n : string) : Prop :=
  ∃ t, lookup_task n r = Some t ∧ (done t || running t) = true.

(** [w'] is [w] after an execution that left every task object in its place
    and invoked every executor it invoked once: each invocation found its
    task eligible in a registry grown out of that of [w], and left it
    started. *)
Definition once (w w' : world) : Prop :=
  ∃ evs, trace w' = trace w ++ evs ∧
         Forall2 task_le (tasks (this w)) (tasks (this w')) ∧
         starts_eligible evs ∧
         NoDup (starts evs) ∧
         (∀ n, n ∈ starts evs → started (tasks (this w')) n) ∧
         (∀ n r, Started n r ∈ evs → Forall2 task_le (tasks (this w)) r).

(** The operations that leave the task objects of the registry in place. *)
Definition keeps_registry (o : op) : bool :=
  match o with
  | OpAdd _ _ _ | OpReset => false
  | _ => true
  end.

(** The executor of [t] is a function that declares no parameter, does not
    use the completion callback, does not throw and returns no deferred
    handle. *)
Definition plain_sync (t : task) : Prop :=
  ∃ f, fn t = FFunction f ∧ fn_length f = 0 ∧ fn_calls f = [] ∧ fn_end f = Return RPlain.

(** The name [n] belongs to a task of [r] that is not done. *)
Definition pending (r : list task) (n : string) : bool :=
  match lookup_task n r with
  | Some t => negb (done t)
  | None => false
  end.

(** The lines written by [console.log] in a trace, in order. *)
Definition consoles (evs : list event) : list string :=
  omap (λ e, match e with Console line => Some line | _ => None end) evs.

(** [w'] is [w] after an execution that kept the stored sequence and the
    verbosity, invoked executors of tasks of the sequence only, and wrote no
    line unless the orchestrator is verbose. *)
Definition within (w w' : world) : Prop :=
  ∃ evs, trace w' = trace w ++ evs ∧
         seq (this w') = seq (this w) ∧
         verbose (this w') = verbose (this w) ∧
         (∀ n, n ∈ starts evs → n ∈ seq (this w)) ∧
         (verbose (this w) = false → consoles evs = []).

(** [w'] is [w] after an execution that kept the verbosity and wrote no
    line unless the orchestrator is verbose. *)
Definition silent (w w' : world) : Prop :=
  ∃ evs, trace w' = trace w ++ evs ∧
         verbose (this w') = verbose (this w) ∧
         (verbose (this w) = false → consoles evs = []).

(** * Properties *)

(** ** The registry *)

Lemma contains_elem_of (n : string) (l : list string) :
  contains n l = true ↔ n ∈ l.
Proof.
  induction l as [|x l IH]; simpl.
  - split; [discriminate | intros H; inversion H].
  - rewrite orb_true_iff, IH, elem_of_cons, String.eqb_eq. naive_solver.
Qed.

Lemma contains_not_elem_of (n : string) (l : list string) :
  contains n l = false ↔ n ∉ l.
Proof.
  rewrite <- contains_elem_of. destruct (contains n l); naive_solver.
Qed.

Lemma lookup_task_name n ts t : lookup_task n ts = Some t → name t = n.
Proof.
  induction ts as [|u ts IH]; simpl; [discriminate|].
  destruct (String.eqb_spec (name u) n); [congruence | done].
Qed.

Lemma lookup_task_elem_of n ts t : lookup_task n ts = Some t → t ∈ ts.
Proof.
  induction ts as [|u ts IH]; simpl; [discriminate|].
  destruct (String.eqb (name u) n).
  - intros [= ->]. apply elem_of_cons; by left.
  - intros H. apply elem_of_cons; right; auto.
Qed.

Lemma lookup_task_None n ts : lookup_task n ts = None ↔ n ∉ map name ts.
Proof.
  induction ts as [|u ts IH]; simpl.
  - split; [intros _ H; inversion H | done].
  - rewrite not_elem_of_cons. destruct (String.eqb_spec (name u) n); naive_solver.
Qed.

Lemma lookup_task_is_Some n ts : is_Some (lookup_task n ts) ↔ n ∈ map name ts.
Proof.
  destruct (lookup_task n ts) eqn:E.
  - split; [intros _ | eauto].
    destruct (decide (n ∈ map name ts)) as [|Hn]; [done|].
    apply lookup_task_None in Hn. congruence.
  - split; [intros [? ?]; done|]. intros Hin. apply lookup_task_None in E. done.
Qed.

Lemma lookup_store_task_eq t ts : lookup_task (name t) (store_task t ts) = Some t.
Proof.
  induction ts as [|u ts IH]; simpl.
  - by rewrite String.eqb_refl.
  - destruct (String.eqb_spec (name u) (name t)) as [E|E]; simpl.
    + by rewrite String.eqb_refl.
    + apply String.eqb_neq in E. by rewrite E.
Qed.

Lemma lookup_store_task_ne n t ts :
  n ≠ name t → lookup_task n (store_task t ts) = lookup_task n ts.
Proof.
  intros Hn. induction ts as [|u ts IH]; simpl.
  - destruct (String.eqb_spec (name t) n); congruence.
  - destruct (String.eqb_spec (name u) (name t)) as [E|E]; simpl.
    + destruct (String.eqb_spec (name t) n); [congruence|].
      destruct (String.eqb_spec (name u) n); congruence.
    + destruct (String.eqb (name u) n); auto.
Qed.

Lemma lookup_write_flags n t f ts :
  (∀ u, name (f u) = name u) →
  lookup_task n (write_flags t f ts) =
  (λ u, if String.eqb (name u) (name t) && Nat.eqb (tid u) (tid t) then f u else u)
    <$> lookup_task n ts.
Proof.
  intros Hf. induction ts as [|u ts IH]; simpl; [done|].
  destruct (String.eqb (name u) (name t) && Nat.eqb (tid u) (tid t)) eqn:E.
  - rewrite Hf. destruct (String.eqb (name u) n); simpl; [by rewrite E | done].
  - destruct (String.eqb (name u) n); simpl; [by rewrite E | done].
Qed.

Lemma lookup_write_flags_ne n t f ts :
  (∀ u, name (f u) = name u) → n ≠ name t →
  lookup_task n (write_flags t f ts) = lookup_task n ts.
Proof.
  intros Hf Hn. rewrite lookup_write_flags by done.
  destruct (lookup_task n ts) as [u|] eqn:E; simpl; [|done].
  apply lookup_task_name in E.
  destruct (String.eqb_spec (name u) (name t)); [congruence | done].
Qed.

(** ** What a stretch of execution may change *)

Lemma task_le_refl u : task_le u u.
Proof. by repeat split. Qed.

Lemma task_le_trans u1 u2 u3 : task_le u1 u2 → task_le u2 u3 → task_le u1 u3.
Proof.
  intros (?&?&?&?&?&?) (?&?&?&?&?&?). repeat split; try congruence; auto.
Qed.

Lemma tasks_le_refl ts : Forall2 task_le ts ts.
Proof. apply Forall_Forall2_diag, Forall_forall. intros. apply task_le_refl. Qed.

Lemma tasks_le_lookup ts ts' n u :
  Forall2 task_le ts ts' → lookup_task n ts = Some u →
  ∃ u', lookup_task n ts' = Some u' ∧ task_le u u'.
Proof.
  induction 1 as [|x y l k Hxy Hlk IH]; simpl; [discriminate|].
  destruct Hxy as (Hn & Hrest). rewrite Hn.
  destruct (String.eqb (name x) n).
  - intros [= <-]. eexists; split; [done|]. by split.
  - done.
Qed.

Lemma tasks_le_lookup_None ts ts' n :
  Forall2 task_le ts ts' → lookup_task n ts = None → lookup_task n ts' = None.
Proof.
  induction 1 as [|x y l k Hxy Hlk IH]; simpl; [done|].
  destruct Hxy as (Hn & Hrest). rewrite Hn.
  by destruct (String.eqb (name x) n).
Qed.

Lemma tasks_le_write_flags t f ts :
  (∀ u, task_le u (f u)) → Forall2 task_le ts (write_flags t f ts).
Proof.
  intros Hf. unfold write_flags. apply Forall2_fmap_r, Forall_Forall2_diag, Forall_forall.
  intros u _. simpl. destruct (andb _ _); [apply Hf | apply task_le_refl].
Qed.

Lemma quiet_after_stop_app evs1 evs2 :
  quiet_after_stop evs1 → quiet_after_stop evs2 →
  (stops evs1 ≠ [] → starts evs2 = []) →
  quiet_after_stop (evs1 ++ evs2).
Proof.
  induction evs1 as [|e evs1 IH]; simpl; [done|].
  intros H1 H2 H3. destruct e; simpl in *; try (apply IH; done).
  unfold starts in *. rewrite omap_app, H1. apply H3. done.
Qed.

Lemma quiet_after_stop_split evs1 e evs2 :
  quiet_after_stop (evs1 ++ Stopped e :: evs2) → starts evs2 = [].
Proof.
  induction evs1 as [|x evs1 IH]; simpl; [done|].
  destruct x; auto.
  unfold starts. rewrite omap_app. simpl. intros H. by apply app_eq_nil in H as [_ H].
Qed.

Lemma step_refl X w : step X w [] w.
Proof.
  split; simpl; try done.
  - by rewrite app_nil_r.
  - by destruct (doneCallback (this w)).
  - apply tasks_le_refl.
  - intros n r H. inversion H.
Qed.

Lemma step_trans X Y w1 evs1 w2 evs2 w3 :
  step X w1 evs1 w2 → step Y w2 evs2 w3 →
  (∀ n, n ∈ Y → n ∈ X ∨ n ∈ starts evs1) →
  step X w1 (evs1 ++ evs2) w3.
Proof.
  intros [] [] HY.
  assert (Hst : stops (evs1 ++ evs2) = stops evs1 ++ stops evs2) by apply omap_app.
  assert (Hsta : starts (evs1 ++ evs2) = starts evs1 ++ starts evs2) by apply omap_app.
  assert (Hno : notified (evs1 ++ evs2) = notified evs1 ++ notified evs2) by apply omap_app.
  split.
  - rewrite step_trace1, step_trace0. by rewrite app_assoc.
  - congruence.
  - congruence.
  - congruence.
  - rewrite Hst, step_isRunning1, step_isRunning0.
    destruct (stops evs1), (stops evs2); done.
  - rewrite Hst, step_doneCallback1, step_doneCallback0.
    destruct (stops evs1), (stops evs2); done.
  - rewrite Hno, Hst, step_notified0, step_notified1, step_doneCallback0.
    destruct (doneCallback (this w1)), (stops evs1), (stops evs2); simpl; done.
  - eapply Forall2_trans; [|done|done]. intros ???; apply task_le_trans.
  - intros n HX Hn. rewrite Hsta in Hn. apply not_elem_of_app in Hn as [Hn1 Hn2].
    rewrite step_untouched1, step_untouched0; try done.
    intros HnY. destruct (HY _ HnY); done.
  - intros Hr. rewrite Hsta, step_quiet0, step_quiet1; try done.
    rewrite step_isRunning0, Hr. by destruct (stops evs1).
  - apply quiet_after_stop_app; try done.
    intros Hne. apply step_quiet1. rewrite step_isRunning0.
    by destruct (stops evs1).
  - intros n r [H|H]%elem_of_app; eauto.
Qed.

Lemma step_weaken X Y w evs w' :
  step X w evs w' → (∀ n, n ∈ X → n ∈ Y) → step Y w evs w'.
Proof.
  intros [] HXY. split; try done.
  intros n HnY Hn. apply step_untouched0; auto.
Qed.

Lemma steps_refl X w : steps X w w.
Proof. eexists. apply step_refl. Qed.

Lemma steps_trans X w1 w2 w3 : steps X w1 w2 → steps X w2 w3 → steps X w1 w3.
Proof.
  intros [e1 H1] [e2 H2]. eexists. eapply step_trans; eauto.
Qed.

Lemma steps_weaken X Y w w' : steps X w w' → (∀ n, n ∈ X → n ∈ Y) → steps Y w w'.
Proof. intros [e H] HXY. eexists. eapply step_weaken; eauto. Qed.

(** *** The primitive operations *)

Lemma step_console X line w : step X w [Console line] (emit (Console line) w).
Proof.
  split; simpl; try done.
  - by destruct (doneCallback (this w)).
  - apply tasks_le_refl.
  - intros n r H. apply list_elem_of_singleton in H. discriminate.
Qed.

Lemma step_log X line w : ∃ evs, step X w evs (log line w) ∧ starts evs = [] ∧ stops evs = [].
Proof.
  unfold log. destruct (verbose (this w)).
  - eexists. split; [apply step_console | done].
  - eexists. split; [apply step_refl | done].
Qed.

Lemma steps_log X line w : steps X w (log line w).
Proof. destruct (step_log X line w) as (evs & H & _). by exists evs. Qed.

Lemma step_started X n w :
  isRunning (this w) = true → eligible (tasks (this w)) n →
  step X w [Started n (tasks (this w))] (emit (Started n (tasks (this w))) w).
Proof.
  intros Hr He. split; simpl; try done.
  - by destruct (doneCallback (this w)).
  - apply tasks_le_refl.
  - congruence.
  - intros m r H. apply list_elem_of_singleton in H. by injection H as -> ->.
Qed.

Lemma stop_trace err b w : trace (stop err b w) = trace w ++ stop_events err b w.
Proof.
  unfold stop, stop_events, log. wsimpl.
  destruct (verbose (this w)), (truthy err), b, (doneCallback (this w)) eqn:E;
    simpl; rewrite ?E; simpl; rewrite <- ?app_assoc; done.
Qed.

Lemma step_stop_events X err b w : step X w (stop_events err b w) (stop err b w).
Proof.
  split.
  - apply stop_trace.
  - unfold stop, log. wsimpl.
    destruct (verbose (this w)), (truthy err), b, (doneCallback (this w)) eqn:E;
      simpl; rewrite ?E; done.
  - unfold stop, log. wsimpl.
    destruct (verbose (this w)), (truthy err), b, (doneCallback (this w)) eqn:E;
      simpl; rewrite ?E; done.
  - unfold stop, log. wsimpl.
    destruct (verbose (this w)), (truthy err), b, (doneCallback (this w)) eqn:E;
      simpl; rewrite ?E; done.
  - unfold stop, log. wsimpl.
    destruct (verbose (this w)), (truthy err), b, (doneCallback (this w)) eqn:E;
      simpl; rewrite ?E; done.
  - unfold stop, log. wsimpl.
    destruct (verbose (this w)), (truthy err), b, (doneCallback (this w)) eqn:E;
      simpl; rewrite ?E; done.
  - unfold stop_events.
    destruct (verbose (this w)), (doneCallback (this w)); done.
  - unfold stop, log. wsimpl.
    destruct (verbose (this w)), (truthy err), b, (doneCallback (this w)) eqn:E;
      simpl; rewrite ?E; simpl; apply tasks_le_refl.
  - intros n _ _. unfold stop, log. wsimpl.
    destruct (verbose (this w)), (truthy err), b, (doneCallback (this w)) eqn:E;
      simpl; rewrite ?E; done.
  - intros _. unfold stop_events.
    destruct (verbose (this w)), (doneCallback (this w)); done.
  - unfold stop_events. simpl.
    destruct (verbose (this w)), (doneCallback (this w)); done.
  - intros n r. unfold stop_events.
    destruct (verbose (this w)), (doneCallback (this w)); simpl;
      rewrite ?elem_of_cons, ?elem_of_nil; naive_solver.
Qed.

Lemma step_stop X err b w :
  ∃ evs, step X w evs (stop err b w) ∧ starts evs = [] ∧ stops evs = [err].
Proof.
  exists (stop_events err b w). split; [apply step_stop_events|].
  unfold stop_events. destruct (verbose (this w)), (doneCallback (this w)); done.
Qed.

Lemma steps_stop X err b w : steps X w (stop err b w).
Proof. destruct (step_stop X err b w) as (evs & H & _). by exists evs. Qed.

Lemma stop_isRunning err b w : isRunning (this (stop err b w)) = false.
Proof.
  destruct (step_stop [] err b w) as (evs & H & _ & Hs).
  rewrite (step_isRunning _ _ _ _ H), Hs. done.
Qed.

Lemma stop_doneCallback err b w : doneCallback (this (stop err b w)) = None.
Proof.
  destruct (step_stop [] err b w) as (evs & H & _ & Hs).
  rewrite (step_doneCallback _ _ _ _ H), Hs. done.
Qed.

Lemma stop_tasks err b w : tasks (this (stop err b w)) = tasks (this w).
Proof.
  unfold stop, log. wsimpl.
  repeat (match goal with |- context [if ?c then _ else _] => destruct c end; simpl);
  repeat (match goal with |- context [match ?c with Some _ => _ | None => _ end] => destruct c end; simpl);
  done.
Qed.

Lemma log_this line w : this (log line w) = this w.
Proof. unfold log. by destruct (verbose (this w)). Qed.

Lemma step_write_flags X t f w :
  (∀ u, task_le u (f u)) → name t ∈ X →
  step X w [] (set_tasks (write_flags t f (tasks (this w))) w).
Proof.
  intros Hf HX. split; wsimpl; try done.
  - by rewrite app_nil_r.
  - by destruct (doneCallback (this w)).
  - by apply tasks_le_write_flags.
  - intros n Hn _. apply lookup_write_flags_ne.
    + intros u. by destruct (Hf u) as (? & _).
    + intros ->. done.
  - intros n r H. inversion H.
Qed.

Lemma step_mark_done X t w : name t ∈ X → step X w [] (mark_done t w).
Proof.
  apply step_write_flags. intros u. repeat split; simpl; auto.
Qed.

Lemma step_mark_running X t w : name t ∈ X → step X w [] (mark_running t w).
Proof.
  apply step_write_flags. intros u. repeat split; simpl; auto.
  intros H. by rewrite orb_true_r.
Qed.

Lemma readyToRunTask_loop_true t deps w w' :
  readyToRunTask_loop t deps w = (true, w') →
  w' = w ∧
  Forall (λ d, ∃ td, lookup_task d (tasks (this w)) = Some td ∧ done td = true) deps.
Proof.
  induction deps as [|d deps IH]; simpl.
  - intros [= <-]. done.
  - destruct (lookup_task d (tasks (this w))) as [td|] eqn:E; [|discriminate].
    destruct (done td) eqn:Ed; [|discriminate].
    intros H. destruct (IH H) as [-> HF]. split; [done|]. constructor; eauto.
Qed.

Lemma readyToRunTask_loop_false X t deps w w' :
  readyToRunTask_loop t deps w = (false, w') →
  ∃ evs, step X w evs w' ∧ starts evs = [].
Proof.
  induction deps as [|d deps IH]; simpl; [discriminate|].
  destruct (lookup_task d (tasks (this w))) as [td|] eqn:E.
  - destruct (done td); [done|]. intros [= <-]. eexists; split; [apply step_refl | done].
  - intros [= <-]. destruct (step_stop X (missing_msg t d) false w) as (evs & ? & ? & ?).
    eauto.
Qed.

Lemma readyToRunTask_loop_complete t deps w :
  Forall (λ d, ∃ td, lookup_task d (tasks (this w)) = Some td ∧ done td = true) deps →
  readyToRunTask_loop t deps w = (true, w).
Proof.
  induction 1 as [|d deps (td & E & Ed) _ IH]; simpl; [done|].
  by rewrite E, Ed.
Qed.

Lemma steps_mark_done t w : steps [name t] w (mark_done t w).
Proof. exists []. by apply step_mark_done, list_elem_of_singleton. Qed.

(** *** The scheduler *)

Section SchedulerSteps.
Variable rec : world → option outcome.
Hypothesis rec_steps : ∀ w o, rec w = Some o → steps [] w (world_of o).

Lemma cb_steps t err w o :
  cb rec t err w = Some o → steps [name t] w (world_of o).
Proof.
  unfold cb. intros H.
  eapply steps_trans; [apply steps_mark_done|].
  eapply steps_trans; [apply steps_log|].
  destruct (truthy err).
  - injection H as <-. apply steps_stop.
  - eapply steps_weaken; [by apply rec_steps|]. by intros ? ?%elem_of_nil.
Qed.

Lemma call_body_steps t calls w o :
  call_body rec t calls w = Some o → steps [name t] w (world_of o).
Proof.
  revert w. induction calls as [|v calls IH]; simpl; intros w H.
  - injection H as <-. apply steps_refl.
  - destruct (cb rec t v w) as [[w'|e w']|] eqn:E; [|injection H as <-|done].
    + eapply steps_trans; [by eapply cb_steps|]. by apply IH.
    + by eapply cb_steps.
Qed.

Lemma call_fn_steps t w e w' :
  call_fn rec t w = Some (e, w') → steps [name t] w w'.
Proof.
  unfold call_fn. destruct (fn t) as [l|f].
  - intros [= <- <-]. apply steps_refl.
  - destruct (call_body rec t (fn_calls f) w) as [[w1|e1 w1]|] eqn:E; [| |done];
      intros [= <- <-]; by apply call_body_steps in E.
Qed.

Lemma onFulfilled_steps t w o :
  onFulfilled rec t w = Some o → steps [name t] w (world_of o).
Proof.
  unfold onFulfilled. intros H.
  eapply steps_trans; [apply steps_mark_done|].
  eapply steps_trans; [apply steps_log|].
  eapply steps_weaken; [by apply rec_steps|]. by intros ? ?%elem_of_nil.
Qed.

Lemma onRejected_steps t err w : steps [name t] w (onRejected t err w).
Proof.
  unfold onRejected.
  eapply steps_trans; [apply steps_mark_done|].
  eapply steps_trans; [apply steps_log|]. apply steps_stop.
Qed.

Lemma register_handlers_steps t settles w o :
  register_handlers rec t settles w = Some o → steps [name t] w (world_of o).
Proof.
  revert w. induction settles as [|s settles IH]; simpl; intros w H.
  - injection H as <-. apply steps_refl.
  - destruct s as [|e].
    + destruct (onFulfilled rec t w) as [[w'|e' w']|] eqn:E; [|injection H as <-|done].
      * eapply steps_trans; [by eapply onFulfilled_steps|]. by apply IH.
      * by eapply onFulfilled_steps.
    + eapply steps_trans; [apply onRejected_steps|]. by apply IH.
Qed.

Lemma runTask_steps t w o :
  isRunning (this w) = true → eligible (tasks (this w)) (name t) →
  runTask rec t w = Some o →
  ∃ evs rest, step [] w evs (world_of o) ∧ starts evs = name t :: rest.
Proof.
  unfold runTask. intros Hr He H.
  destruct (step_log [] ("[" +:+ name t +:+ " started]") w) as (e0 & Hs0 & Hst0 & _).
  set (w0 := log ("[" +:+ name t +:+ " started]") w) in *.
  assert (Hthis : this w0 = this w) by apply log_this.
  set (w1 := emit (Started (name t) (tasks (this w0))) w0) in *.
  assert (H1 : step [] w0 [Started (name t) (tasks (this w0))] w1).
  { apply step_started; rewrite Hthis; done. }
  set (w2 := mark_running t w1) in *.
  assert (H2 : step [name t] w1 [] w2) by (apply step_mark_running, list_elem_of_singleton; done).
  assert (Hrest : steps [name t] w2 (world_of o)).
  { destruct (call_fn rec t w2) as [[e w3]|] eqn:Ecall; [|done].
    apply call_fn_steps in Ecall.
    eapply steps_trans; [done|].
    set (pw := match e with
               | Threw err =>
                   (RPlain,
                    stop (js_or err (VStr (name t +:+ " threw an exception"))) false w3)
               | Returned r => (r, w3)
               end) in *.
    assert (Hpw : steps [name t] w3 pw.2).
    { subst pw. destruct e; simpl; [apply steps_stop | apply steps_refl]. }
    destruct pw as [p w4]. simpl in Hpw.
    eapply steps_trans; [done|].
    destruct p as [|settles].
    - destruct (Nat.eqb (fnval_length (fn t)) 0); injection H as <-; simpl.
      + eapply steps_trans; [apply steps_log|].
        apply steps_mark_done.
      + apply steps_refl.
    - by eapply register_handlers_steps. }
  destruct Hrest as [e3 H3].
  exists (e0 ++ [Started (name t) (tasks (this w0))] ++ [] ++ e3), (starts e3).
  split.
  - eapply step_trans; [exact Hs0| |by intros ? ?%elem_of_nil].
    eapply step_trans; [exact H1| |].
    + eapply step_trans; [exact H2|exact H3|]. by intros n Hn; left.
    + intros n Hn. right.
      apply list_elem_of_singleton in Hn as ->. simpl. by apply list_elem_of_singleton.
  - unfold starts in *. rewrite !omap_app, Hst0. done.
Qed.

Lemma scan_one_steps n w o :
  isRunning (this w) = true → scan_one rec n w = Some o → steps [] w (world_of o).
Proof.
  unfold scan_one. intros Hr H.
  destruct (lookup_task n (tasks (this w))) as [t|] eqn:E.
  2:{ injection H as <-. apply steps_refl. }
  destruct (negb (done t) && negb (running t)) eqn:Ef.
  2:{ injection H as <-. apply steps_refl. }
  apply andb_true_iff in Ef as [Hd Hru]. apply negb_true_iff in Hd, Hru.
  destruct (readyToRunTask t w) as [ready w1] eqn:Er. unfold readyToRunTask in Er.
  destruct ready.
  - apply readyToRunTask_loop_true in Er as [-> Hdeps].
    pose proof (lookup_task_name _ _ _ E) as Hn.
    destruct (runTask_steps t w o) as (evs & rest & Hs & _); try done.
    + rewrite Hn. by exists t.
    + by exists evs.
  - injection H as <-. simpl.
    destruct (readyToRunTask_loop_false [] _ _ _ _ Er) as (evs & Hs & _). by exists evs.
Qed.

Lemma scan_steps names w o :
  isRunning (this w) = true → scan rec names w = Some o → steps [] w (world_of o).
Proof.
  revert w. induction names as [|n names IH]; simpl; intros w Hr H.
  - destruct (allDone w) as [[|]|]; injection H as <-; simpl;
      [apply steps_stop | apply steps_refl | apply steps_refl].
  - destruct (scan_one rec n w) as [[w'|e w']|] eqn:E; [|injection H as <-|done].
    + apply scan_one_steps in E; [|done]. simpl in E.
      eapply steps_trans; [done|].
      destruct (isRunning (this w')) eqn:Hr'.
      * by apply IH.
      * injection H as <-. apply steps_refl.
    + by apply scan_one_steps in E.
Qed.
End SchedulerSteps.

Lemma runStep_steps fuel w o : runStep fuel w = Some o → steps [] w (world_of o).
Proof.
  revert w o. induction fuel as [|fuel IH]; simpl; intros w o H; [done|].
  destruct (isRunning (this w)) eqn:Hr.
  - eapply scan_steps; eauto.
  - injection H as <-. apply steps_refl.
Qed.

Lemma steps_lookup X w w' n u :
  steps X w w' → lookup_task n (tasks (this w)) = Some u →
  ∃ u', lookup_task n (tasks (this w')) = Some u' ∧ task_le u u'.
Proof.
  intros [evs H] Hl. eapply tasks_le_lookup; [|done]. by destruct H.
Qed.

Lemma mark_done_lookup t w u :
  lookup_task (name t) (tasks (this w)) = Some u → tid u = tid t →
  lookup_task (name t) (tasks (this (mark_done t w))) = Some (set_flags false true u).
Proof.
  intros Hl Ht. wsimpl. rewrite lookup_write_flags by done. rewrite Hl. simpl.
  rewrite (lookup_task_name _ _ _ Hl), String.eqb_refl, Ht, Nat.eqb_refl. done.
Qed.

Lemma mark_running_lookup t w u :
  lookup_task (name t) (tasks (this w)) = Some u → tid u = tid t →
  lookup_task (name t) (tasks (this (mark_running t w))) = Some (set_flags true (done u) u).
Proof.
  intros Hl Ht. wsimpl. rewrite lookup_write_flags by done. rewrite Hl. simpl.
  rewrite (lookup_task_name _ _ _ Hl), String.eqb_refl, Ht, Nat.eqb_refl. done.
Qed.

Lemma at_call_lookup t w :
  lookup_task (name t) (tasks (this w)) = Some t →
  lookup_task (name t) (tasks (this (at_call t w))) = Some (set_flags true (done t) t).
Proof.
  intros Hl. unfold at_call. apply mark_running_lookup; [|done].
  simpl. by rewrite log_this.
Qed.

(** However the executor call ends, an executor of declared length zero that
    hands back no deferred handle leaves its task done and not running; if
    the call ends by throwing, the run is stopped as well. *)
Lemma runTask_plain_done fuel t w o :
  lookup_task (name t) (tasks (this w)) = Some t →
  fnval_length (fn t) = 0 →
  (∀ f l, fn t = FFunction f → fn_end f ≠ Return (RDeferred l)) →
  runTask (runStep fuel) t w = Some o →
  ∃ w' t', o = Normal w' ∧ lookup_task (name t) (tasks (this w')) = Some t' ∧
           done t' = true ∧ running t' = false ∧ tid t' = tid t ∧
           (∀ f e, fn t = FFunction f → fn_end f = Throw e → isRunning (this w') = false).
Proof.
  intros Hl Hlen Hp. unfold runTask. fold (at_call t w).
  pose proof (at_call_lookup t w Hl) as Hl2.
  destruct (call_fn (runStep fuel) t (at_call t w)) as [[e w3]|] eqn:Ecall; [|done].
  pose proof Ecall as Hsteps. apply call_fn_steps in Hsteps; [|apply runStep_steps].
  assert (Hp' : ∀ l, e ≠ Returned (RDeferred l)).
  { intros l ->. unfold call_fn in Ecall. destruct (fn t) as [|f] eqn:Ef; [done|].
    destruct (call_body _ _ _ _) as [[?|? ?]|]; try done.
    injection Ecall as Hc _. destruct (fn_end f) eqn:Eend; [done|].
    injection Hc as ->. by eapply Hp. }
  assert (Hthrow : ∀ f e0, fn t = FFunction f → fn_end f = Throw e0 → ∃ err, e = Threw err).
  { intros f e0 Ef Eend. unfold call_fn in Ecall. rewrite Ef, Eend in Ecall.
    destruct (call_body _ _ _ _) as [[?|? ?]|]; try done; injection Ecall as <- _; eauto. }
  assert (∃ w4, steps [name t] (at_call t w) w4 ∧
     ((∃ err, e = Threw err) → isRunning (this w4) = false) ∧
     (let '(p, w) := match e with
          | Threw err => (RPlain, stop (js_or err (VStr (name t +:+ " threw an exception"))) false w3)
          | Returned r => (r, w3)
          end in
      match p with
      | RDeferred settles => register_handlers (runStep fuel) t settles w
      | RPlain =>
          if Nat.eqb (fnval_length (fn t)) 0 then
            Some (Normal (mark_done t (log ("[" +:+ name t +:+ " finished]") w)))
          else Some (Normal w)
      end) = Some (Normal (mark_done t (log ("[" +:+ name t +:+ " finished]") w4))))
    as (w4 & Hs4 & Hstop & ->).
  { rewrite Hlen. destruct e as [err|[|l]]; simpl.
    - eexists; split; [|split; [|done]].
      + eapply steps_trans; [exact Hsteps|apply steps_stop].
      + intros _. apply stop_isRunning.
    - eexists; split; [exact Hsteps|split; [|done]]. by intros [? ?].
    - by destruct (Hp' l). }
  intros [= <-].
  destruct (steps_lookup _ _ _ _ _ Hs4 Hl2) as (u & Hu & Hle).
  destruct Hle as (_ & _ & _ & Htid & _). simpl in Htid.
  eexists _, _. split; [done|]. split.
  - apply mark_done_lookup; [by rewrite log_this | done].
  - simpl. split; [done|]. split; [done|]. split; [done|].
    intros f e0 Ef Eend.
    change (isRunning (this (log ("[" +:+ name t +:+ " finished]") w4)) = false).
    rewrite log_this. eauto.
Qed.

Lemma stop_this_idle err b w :
  isRunning (this w) = false → doneCallback (this w) = None →
  this (stop err b w) = this w.
Proof.
  destruct w as [[v dc s ts r] fr tr]. simpl. intros -> ->.
  unfold stop, log. wsimpl. by destruct v, (truthy err), b.
Qed.

Lemma stop_events_notified err b w :
  notified (stop_events err b w) =
  match doneCallback (this w) with Some c => [(c, err)] | None => [] end.
Proof.
  unfold stop_events. by destruct (verbose (this w)), (doneCallback (this w)).
Qed.

Lemma stop_events_stops err b w : stops (stop_events err b w) = [err].
Proof.
  unfold stop_events. by destruct (verbose (this w)), (doneCallback (this w)).
Qed.

Lemma stop_events_starts err b w : starts (stop_events err b w) = [].
Proof.
  unfold stop_events. by destruct (verbose (this w)), (doneCallback (this w)).
Qed.

Lemma log_trace line w :
  trace (log line w) = trace w ++ (if verbose (this w) then [Console line] else []).
Proof. unfold log. destruct (verbose (this w)); simpl; by rewrite ?app_nil_r. Qed.

Lemma runTask_no_calls rec t f w :
  fn t = FFunction f → fn_calls f = [] →
  runTask rec t w =
  match fn_end f with
  | Throw e =>
      let w3 := stop (js_or e (VStr (name t +:+ " threw an exception"))) false (at_call t w) in
      if Nat.eqb (fn_length f) 0 then
        Some (Normal (mark_done t (log ("[" +:+ name t +:+ " finished]") w3)))
      else Some (Normal w3)
  | Return RPlain =>
      if Nat.eqb (fn_length f) 0 then
        Some (Normal (mark_done t (log ("[" +:+ name t +:+ " finished]") (at_call t w))))
      else Some (Normal (at_call t w))
  | Return (RDeferred l) => register_handlers rec t l (at_call t w)
  end.
Proof.
  intros Hf Hc. unfold runTask, call_fn. fold (at_call t w). rewrite Hf, Hc. simpl.
  by destruct (fn_end f) as [e|[|l]].
Qed.

Lemma at_call_trace t w :
  trace (at_call t w) =
  trace w ++ (if verbose (this w) then [Console ("[" +:+ name t +:+ " started]")] else [])
          ++ [Started (name t) (tasks (this w))].
Proof.
  unfold at_call. wsimpl. rewrite log_trace, log_this. by rewrite <- app_assoc.
Qed.

Lemma at_call_fields t w :
  verbose (this (at_call t w)) = verbose (this w) ∧
  doneCallback (this (at_call t w)) = doneCallback (this w) ∧
  seq (this (at_call t w)) = seq (this w) ∧
  isRunning (this (at_call t w)) = isRunning (this w).
Proof. unfold at_call. wsimpl. by rewrite !log_this. Qed.

Lemma write_flags_id t f ts :
  (∀ u, u ∈ ts → name u = name t → tid u = tid t → f u = u) →
  write_flags t f ts = ts.
Proof.
  intros H. unfold write_flags. induction ts as [|u ts IH]; simpl; [done|].
  rewrite IH by (intros; apply H; [apply elem_of_cons; by right|done..]).
  destruct (String.eqb_spec (name u) (name t)) as [E1|E1]; simpl; [|done].
  destruct (Nat.eqb_spec (tid u) (tid t)) as [E2|E2]; [|done].
  rewrite H; [done|apply elem_of_cons; by left|done..].
Qed.

Lemma mark_done_id t w :
  (∀ u, u ∈ tasks (this w) → name u = name t → tid u = tid t →
        done u = true ∧ running u = false) →
  mark_done t w = w.
Proof.
  intros H. unfold mark_done. rewrite write_flags_id.
  - by destruct w as [[] ? ?].
  - intros u Hu Hn Ht. destruct (H u Hu Hn Ht) as [Hd Hr].
    destruct u; simpl in *; by subst.
Qed.

Lemma scan_all_done rec names w :
  isRunning (this w) = true →
  allDone_loop names (tasks (this w)) = Some true →
  scan rec names w =
  match allDone w with
  | None => Some (Thrown type_error w)
  | Some true => Some (Normal (stop VNull true w))
  | Some false => Some (Normal w)
  end.
Proof.
  intros Hr. induction names as [|n names IH]; simpl; [done|].
  unfold scan_one.
  destruct (lookup_task n (tasks (this w))) as [t|]; [|done].
  destruct (done t); [|done]. simpl. rewrite Hr. apply IH.
Qed.

(** ** Termination of a scheduling pass *)

Lemma unstarted_le ts ts' : Forall2 task_le ts ts' → unstarted ts' ≤ unstarted ts.
Proof.
  unfold unstarted. induction 1 as [|u u' ts ts' Hu _ IH]; [done|].
  rewrite !filter_cons. destruct Hu as (_ & _ & _ & _ & _ & Hnf).
  destruct (decide (done u' || running u' = false)) as [E'|E'];
    destruct (decide (done u || running u = false)) as [E|E]; simpl; try lia.
  apply not_false_is_true in E. apply Hnf in E. congruence.
Qed.

Lemma unstarted_steps X w w' :
  steps X w w' → unstarted (tasks (this w')) ≤ unstarted (tasks (this w)).
Proof. intros [evs H]. apply unstarted_le. by destruct H. Qed.

Lemma unstarted_write_running t ts :
  t ∈ ts → done t = false → running t = false →
  unstarted (write_flags t (λ u, set_flags true (done u) u) ts) < unstarted ts.
Proof.
  intros Hin Hd Hr. unfold unstarted, write_flags.
  induction ts as [|u ts IH]; [by apply elem_of_nil in Hin|].
  assert (Hle : length (filter (λ t0, (done t0 || running t0) = false)
      (map (λ u0, if String.eqb (name u0) (name t) && Nat.eqb (tid u0) (tid t)
                  then set_flags true (done u0) u0 else u0) ts))
      ≤ length (filter (λ t0, (done t0 || running t0) = false) ts)).
  { apply (unstarted_le ts). apply tasks_le_write_flags.
    intros v. repeat split; simpl; auto. intros _. apply orb_true_r. }
  simpl. rewrite !filter_cons.
  apply elem_of_cons in Hin as [<-|Hin].
  - rewrite String.eqb_refl, Nat.eqb_refl. simpl. rewrite Hd, Hr, orb_true_r. simpl.
    destruct (decide (true = false)); [done|].
    destruct (decide (false = false)); [|done]. simpl. lia.
  - specialize (IH Hin).
    destruct (String.eqb (name u) (name t) && Nat.eqb (tid u) (tid t)); simpl.
    + rewrite orb_true_r. destruct (decide (true = false)); [done|].
      destruct (decide (done u || running u = false)); simpl; lia.
    + destruct (decide (done u || running u = false)); simpl; lia.
Qed.

Lemma unstarted_at_call t w :
  lookup_task (name t) (tasks (this w)) = Some t →
  done t = false → running t = false →
  unstarted (tasks (this (at_call t w))) < unstarted (tasks (this w)).
Proof.
  intros Hl Hd Hr. unfold at_call. wsimpl_goal. rewrite log_this.
  apply unstarted_write_running; try done. by eapply lookup_task_elem_of.
Qed.

Section SchedulerTotal.
Variable rec : world → option outcome.
Variable k : nat.
Hypothesis rec_steps : ∀ w o, rec w = Some o → steps [] w (world_of o).
Hypothesis rec_total : ∀ w, unstarted (tasks (this w)) < k → is_Some (rec w).

Lemma cb_total t err w :
  unstarted (tasks (this w)) < k → is_Some (cb rec t err w).
Proof.
  intros Hk. unfold cb. destruct (truthy err); [done|]. apply rec_total.
  rewrite log_this.
  pose proof (unstarted_steps _ _ _ (steps_mark_done t w)). lia.
Qed.

Lemma call_body_total t calls w :
  unstarted (tasks (this w)) < k → is_Some (call_body rec t calls w).
Proof.
  revert w. induction calls as [|v calls IH]; simpl; intros w Hk; [done|].
  destruct (cb_total t v w Hk) as [o Ho]. rewrite Ho.
  destruct o as [w'|e w']; [|done]. apply IH.
  pose proof (unstarted_steps _ _ _ (cb_steps rec rec_steps _ _ _ _ Ho)). simpl in *. lia.
Qed.

Lemma register_handlers_total t settles w :
  unstarted (tasks (this w)) < k → is_Some (register_handlers rec t settles w).
Proof.
  revert w. induction settles as [|s settles IH]; simpl; intros w Hk; [done|].
  destruct s as [|e].
  - assert (Hf : is_Some (onFulfilled rec t w)).
    { unfold onFulfilled. apply rec_total. rewrite log_this.
      pose proof (unstarted_steps _ _ _ (steps_mark_done t w)). lia. }
    destruct Hf as [o Ho]. rewrite Ho. destruct o as [w'|e w']; [|done]. apply IH.
    pose proof (unstarted_steps _ _ _ (onFulfilled_steps rec rec_steps _ _ _ Ho)).
    simpl in *. lia.
  - apply IH. pose proof (unstarted_steps _ _ _ (onRejected_steps t e w)). lia.
Qed.

Lemma runTask_total t w :
  lookup_task (name t) (tasks (this w)) = Some t →
  done t = false → running t = false →
  unstarted (tasks (this w)) < S k → is_Some (runTask rec t w).
Proof.
  intros Hl Hd Hr Hk. unfold runTask. fold (at_call t w).
  pose proof (unstarted_at_call t w Hl Hd Hr) as Hlt.
  assert (Hc : is_Some (call_fn rec t (at_call t w))).
  { unfold call_fn. destruct (fn t) as [l|f]; [done|].
    destruct (call_body_total t (fn_calls f) (at_call t w)) as [[w'|e w'] ->]; [lia|done..]. }
  destruct Hc as [[e w3] Hc]. rewrite Hc.
  pose proof (unstarted_steps _ _ _ (call_fn_steps rec rec_steps _ _ _ _ Hc)) as H3.
  destruct e as [err|[|l]]; simpl.
  - by destruct (Nat.eqb _ _).
  - by destruct (Nat.eqb _ _).
  - apply register_handlers_total. lia.
Qed.

Lemma scan_one_total n w :
  unstarted (tasks (this w)) < S k → is_Some (scan_one rec n w).
Proof.
  intros Hk. unfold scan_one.
  destruct (lookup_task n (tasks (this w))) as [t|] eqn:E; [|done].
  destruct (negb (done t) && negb (running t)) eqn:Ef; [|done].
  apply andb_true_iff in Ef as [Hd Hru]. apply negb_true_iff in Hd, Hru.
  destruct (readyToRunTask t w) as [ready w1] eqn:Er. unfold readyToRunTask in Er.
  destruct ready; [|done].
  apply readyToRunTask_loop_true in Er as [-> _].
  apply runTask_total; try done. by rewrite (lookup_task_name _ _ _ E).
Qed.

Lemma scan_total names w :
  isRunning (this w) = true → unstarted (tasks (this w)) < S k →
  is_Some (scan rec names w).
Proof.
  revert w. induction names as [|n names IH]; simpl; intros w Hr Hk.
  - by destruct (allDone w) as [[|]|].
  - destruct (scan_one_total n w Hk) as [o Ho]. rewrite Ho.
    destruct o as [w'|e w']; [|done].
    destruct (isRunning (this w')) eqn:Hr'; [|done]. apply IH; [done|].
    pose proof (unstarted_steps _ _ _ (scan_one_steps rec rec_steps _ _ _ Hr Ho)).
    simpl in *. lia.
Qed.
End SchedulerTotal.

(** A pass always comes to an end: fuel beyond the number of tasks that
    are neither running nor done is never used up. *)
Lemma runStep_total fuel w :
  unstarted (tasks (this w)) < fuel → is_Some (runStep fuel w).
Proof.
  revert w. induction fuel as [|fuel IH]; intros w Hk; [lia|]. simpl.
  destruct (isRunning (this w)) eqn:Hr; [|done].
  apply scan_total with (k := fuel); try done. apply runStep_steps.
Qed.

(** ** The result of a pass does not depend on the fuel *)

Section SchedulerMono.
Variables rec1 rec2 : world → option outcome.
Hypothesis rec_mono : ∀ w o, rec1 w = Some o → rec2 w = Some o.

Lemma cb_mono t err w o : cb rec1 t err w = Some o → cb rec2 t err w = Some o.
Proof. unfold cb. destruct (truthy err); [done | apply rec_mono]. Qed.

Lemma call_body_mono t calls w o :
call_body rec1 t calls w = Some o → call_body rec2 t calls w = Some o.
Proof.
revert w. induction calls as [|v calls IH]; simpl; intros w H; [done|].
destruct (cb rec1 t v w) as [o1|] eqn:E; [|done].
rewrite (cb_mono _ _ _ _ E). destruct o1; auto.
Qed.

Lemma call_fn_mono t w r : call_fn rec1 t w = Some r → call_fn rec2 t w = Some r.
Proof.
unfold call_fn. destruct (fn t) as [l|f]; [done|].
destruct (call_body rec1 t (fn_calls f) w) as [o1|] eqn:E; [|done].
by rewrite (call_body_mono _ _ _ _ E).
Qed.

Lemma register_handlers_mono t settles w o :
register_handlers rec1 t settles w = Some o →
register_handlers rec2 t settles w = Some o.
Proof.
revert w. induction settles as [|x settles IH]; simpl; intros w H; [done|].
destruct x as [|e]; [|auto].
unfold onFulfilled in *.
destruct (rec1 _) as [o1|] eqn:E; [|done].
rewrite (rec_mono _ _ E). destruct o1; auto.
Qed.

Lemma runTask_mono t w o : runTask rec1 t w = Some o → runTask rec2 t w = Some o.
Proof.
unfold runTask. fold (at_call t w).
destruct (call_fn rec1 t (at_call t w)) as [[e w3]|] eqn:E; [|done].
rewrite (call_fn_mono _ _ _ E).
destruct e as [err|[|l]]; simpl; try done. apply register_handlers_mono.
Qed.

Lemma scan_one_mono n w o : scan_one rec1 n w = Some o → scan_one rec2 n w = Some o.
Proof.
unfold scan_one. destruct (lookup_task n (tasks (this w))) as [t|]; [|done].
destruct (negb (done t) && negb (running t)); [|done].
destruct (readyToRunTask t w) as [[|] w1]; [apply runTask_mono | done].
Qed.

Lemma scan_mono names w o : scan rec1 names w = Some o → scan rec2 names w = Some o.
Proof.
revert w. induction names as [|n names IH]; simpl; intros w H; [done|].
destruct (scan_one rec1 n w) as [o1|] eqn:E; [|done].
rewrite (scan_one_mono _ _ _ E). destruct o1 as [w1|]; [|done].
destruct (isRunning (this w1)); auto.
Qed.
End SchedulerMono.

Lemma runStep_mono fuel fuel' w o :
  fuel ≤ fuel' → runStep fuel w = Some o → runStep fuel' w = Some o.
Proof.
  revert fuel' w o. induction fuel as [|fuel IH]; intros fuel' w o Hle H; [done|].
  destruct fuel' as [|fuel']; [lia|]. simpl in *.
  destruct (isRunning (this w)); [|done].
  eapply scan_mono; [|exact H]. intros w0 o0. apply IH. lia.
Qed.

(** ** The order of executor invocations within a pass *)

Lemma first_is_app s t l1 l2 :
  first_is s t l1 → (s ∈ l1 ∨ first_is s t l2) → first_is s t (l1 ++ l2).
Proof.
  induction l1 as [|x l1 IH]; simpl.
  - intros _ [H|H]; [by apply elem_of_nil in H | done].
  - destruct (String.eqb_spec x s) as [->|Hxs]; [done|].
    destruct (String.eqb x t); [done|].
    intros H1 [H2|H2]; apply IH; auto.
    apply elem_of_cons in H2 as [->|H2]; [done | by left].
Qed.

Lemma first_is_not_elem_of s t l : first_is s t l → s ∉ l → t ∉ l.
Proof.
  induction l as [|x l IH]; simpl; [intros _ _; apply not_elem_of_nil|].
  destruct (String.eqb_spec x s) as [->|Hxs].
  - intros _ H. destruct H. by left.
  - destruct (String.eqb_spec x t) as [->|Hxt]; [done|].
    intros H1 H2. apply not_elem_of_cons in H2 as [_ H2].
    apply not_elem_of_cons. split; [congruence | auto].
Qed.

Lemma first_is_split s t l :
  s ≠ t → first_is s t l → ∀ pre post, l = pre ++ (t :: post) → s ∈ pre.
Proof.
  intros Hst. induction l as [|x l IH]; simpl; intros H pre post E.
  - by destruct pre.
  - destruct pre as [|y pre]; simpl in E; injection E as Hx El.
    + subst x. destruct (String.eqb_spec t s) as [->|Hts]; [done|].
      by rewrite String.eqb_refl in H.
    + subst y. apply elem_of_cons.
      destruct (String.eqb_spec x s) as [->|Hys]; [by left|].
      destruct (String.eqb x t); [done|]. right. eapply IH; eauto.
Qed.

Lemma eligible_stable X w evs w' n :
  step X w evs w' → n ∉ X → n ∉ starts evs →
  eligible (tasks (this w)) n → eligible (tasks (this w')) n.
Proof.
  intros H HX Hn (u & Hl & Hd & Hr & Hdeps).
  exists u. rewrite (step_untouched _ _ _ _ H) by done. repeat split; try done.
  eapply Forall_impl; [done|]. simpl. intros d (td & Htd & Hdone).
  destruct (tasks_le_lookup _ _ _ _ (step_tasks _ _ _ _ H) Htd) as (td' & ? & Hle).
  exists td'. split; [done|]. destruct Hle as (_ & _ & _ & _ & Hmono & _). auto.
Qed.


Section SchedulerOrder.
Variables s t : string.
Hypothesis s_ne_t : s ≠ t.

Lemma ordered_of_step X w evs w' :
  step X w evs w' → first_is s t (starts evs) → ordered_steps s t X w w'.
Proof. intros H1 H2. by exists evs. Qed.

Lemma ordered_of_quiet X w w' :
  (∃ evs, step X w evs w' ∧ starts evs = []) → ordered_steps s t X w w'.
Proof. intros (evs & H1 & H2). exists evs. split; [done|]. by rewrite H2. Qed.

Lemma ordered_steps_steps X w w' : ordered_steps s t X w w' → steps X w w'.
Proof. intros (evs & H & _). by exists evs. Qed.

Lemma ordered_refl X w : ordered_steps s t X w w.
Proof. apply ordered_of_quiet. exists []. split; [apply step_refl | done]. Qed.

Lemma ordered_trans X w1 w2 w3 :
  s ∉ X → t ∉ X →
  ordered_steps s t X w1 w2 → ordered_steps s t X w2 w3 → ordered_steps s t X w1 w3.
Proof.
  intros HsX HtX (e1 & H1 & O1) (e2 & H2 & O2).
  exists (e1 ++ e2). split; [eapply step_trans; eauto|].
  intros Es Et. unfold starts. rewrite omap_app. fold (starts e1) (starts e2).
  specialize (O1 Es Et). apply first_is_app; [done|].
  destruct (decide (s ∈ starts e1)) as [|Hs]; [by left|right].
  pose proof (first_is_not_elem_of _ _ _ O1 Hs) as Ht.
  apply O2; eapply eligible_stable; eauto.
Qed.

Lemma ordered_weaken X Y w w' :
  ordered_steps s t X w w' → (∀ n, n ∈ X → n ∈ Y) → ordered_steps s t Y w w'.
Proof. intros (evs & H & O) HXY. exists evs. split; [by eapply step_weaken|done]. Qed.

Lemma ordered_sharpen X w w' :
  ordered_steps s t X w w' → steps [] w w' → ordered_steps s t [] w w'.
Proof.
  intros (evs & H & O) (evs' & H').
  assert (evs' = evs) as ->.
  { pose proof (step_trace _ _ _ _ H) as E1. pose proof (step_trace _ _ _ _ H') as E2.
    rewrite E1 in E2. by apply app_inv_head in E2. }
  by exists evs.
Qed.

Section Rec.
Variable rec : world → option outcome.
Hypothesis rec_ordered :
  ∀ w o, rec w = Some o → before s t (seq (this w)) →
         ordered_steps s t [] w (world_of o).
Hypothesis rec_steps : ∀ w o, rec w = Some o → steps [] w (world_of o).

Variable u : task.
Hypothesis u_ne_s : name u ≠ s.
Hypothesis u_ne_t : name u ≠ t.

Let s_notin : s ∉ [name u].
Proof. intros H%list_elem_of_singleton. done. Qed.

Let t_notin : t ∉ [name u].
Proof. intros H%list_elem_of_singleton. done. Qed.

Lemma mark_done_ordered w : ordered_steps s t [name u] w (mark_done u w).
Proof.
  apply ordered_of_quiet. exists []. split; [|done].
  by apply step_mark_done, list_elem_of_singleton.
Qed.

Lemma log_ordered X line w : ordered_steps s t X w (log line w).
Proof.
  apply ordered_of_quiet. destruct (step_log X line w) as (evs & ? & ? & _). eauto.
Qed.

Lemma stop_ordered X err b w : ordered_steps s t X w (stop err b w).
Proof.
  apply ordered_of_quiet. destruct (step_stop X err b w) as (evs & ? & ? & _). eauto.
Qed.

Lemma rec_ordered' w o :
  rec w = Some o → before s t (seq (this w)) →
  ordered_steps s t [name u] w (world_of o).
Proof.
  intros H Hb. eapply ordered_weaken; [by apply rec_ordered|].
  by intros ? ?%elem_of_nil.
Qed.

Lemma cb_ordered err w o :
  before s t (seq (this w)) →
  cb rec u err w = Some o → ordered_steps s t [name u] w (world_of o).
Proof.
  unfold cb. intros Hb H.
  eapply ordered_trans; [done..|apply mark_done_ordered|].
  eapply ordered_trans; [done..|apply log_ordered|].
  destruct (truthy err).
  - injection H as <-. apply stop_ordered.
  - apply rec_ordered'; [done|]. by rewrite log_this.
Qed.

Lemma seq_steps X w w' : steps X w w' → seq (this w') = seq (this w).
Proof. intros [evs H]. by destruct H. Qed.

Lemma call_body_ordered calls w o :
  before s t (seq (this w)) →
  call_body rec u calls w = Some o → ordered_steps s t [name u] w (world_of o).
Proof.
  revert w. induction calls as [|v calls IH]; simpl; intros w Hb H.
  - injection H as <-. apply ordered_refl.
  - destruct (cb rec u v w) as [[w'|e w']|] eqn:E; [|injection H as <-|done].
    + pose proof (cb_ordered _ _ _ Hb E) as Ho.
      eapply ordered_trans; [done..|exact Ho|]. apply IH; [|done].
      by rewrite (seq_steps _ _ _ (ordered_steps_steps _ _ _ Ho)).
    + by eapply cb_ordered.
Qed.

Lemma call_fn_ordered w e w' :
  before s t (seq (this w)) →
  call_fn rec u w = Some (e, w') → ordered_steps s t [name u] w w'.
Proof.
  unfold call_fn. intros Hb. destruct (fn u) as [l|f].
  - intros [= <- <-]. apply ordered_refl.
  - destruct (call_body rec u (fn_calls f) w) as [[w1|e1 w1]|] eqn:E; [| |done];
      intros [= <- <-]; by apply call_body_ordered in E.
Qed.

Lemma onFulfilled_ordered w o :
  before s t (seq (this w)) →
  onFulfilled rec u w = Some o → ordered_steps s t [name u] w (world_of o).
Proof.
  unfold onFulfilled. intros Hb H.
  eapply ordered_trans; [done..|apply mark_done_ordered|].
  eapply ordered_trans; [done..|apply log_ordered|].
  apply rec_ordered'; [done|]. by rewrite log_this.
Qed.

Lemma onRejected_ordered err w : ordered_steps s t [name u] w (onRejected u err w).
Proof.
  unfold onRejected.
  eapply ordered_trans; [done..|apply mark_done_ordered|].
  eapply ordered_trans; [done..|apply log_ordered|]. apply stop_ordered.
Qed.

Lemma register_handlers_ordered settles w o :
  before s t (seq (this w)) →
  register_handlers rec u settles w = Some o →
  ordered_steps s t [name u] w (world_of o).
Proof.
  revert w. induction settles as [|x settles IH]; simpl; intros w Hb H.
  - injection H as <-. apply ordered_refl.
  - destruct x as [|e].
    + destruct (onFulfilled rec u w) as [[w'|e' w']|] eqn:E; [|injection H as <-|done].
      * pose proof (onFulfilled_ordered _ _ Hb E) as Ho.
        eapply ordered_trans; [done..|exact Ho|]. apply IH; [|done].
        by rewrite (seq_steps _ _ _ (ordered_steps_steps _ _ _ Ho)).
      * by eapply onFulfilled_ordered.
    + pose proof (onRejected_ordered e w) as Ho.
      eapply ordered_trans; [done..|exact Ho|]. apply IH; [|done].
      by rewrite (seq_steps _ _ _ (ordered_steps_steps _ _ _ Ho)).
Qed.

Lemma runTask_ordered w o :
  before s t (seq (this w)) →
  isRunning (this w) = true → eligible (tasks (this w)) (name u) →
  runTask rec u w = Some o → ordered_steps s t [] w (world_of o).
Proof.
  intros Hb Hr He H.
  destruct (runTask_steps rec rec_steps u w o Hr He H) as (evs & rest & Hstep & _).
  eapply ordered_sharpen; [|by exists evs].
  unfold runTask in H.
  set (w0 := log ("[" +:+ name u +:+ " started]") w) in *.
  assert (Hthis : this w0 = this w) by apply log_this.
  set (w1 := emit (Started (name u) (tasks (this w0))) w0) in *.
  set (w2 := mark_running u w1) in *.
  eapply ordered_trans; [done..|apply log_ordered|]. fold w0.
  eapply ordered_trans; [done..| |].
  { eapply (ordered_of_step _ w0 [Started (name u) (tasks (this w0))] w1).
    - apply step_started; rewrite Hthis; done.
    - simpl. apply String.eqb_neq in u_ne_s, u_ne_t. by rewrite u_ne_s, u_ne_t. }
  eapply ordered_trans; [done..| |].
  { apply ordered_of_quiet. exists []. split; [|done].
    apply (step_mark_running _ u w1), list_elem_of_singleton. done. }
  fold w2.
  assert (Hb2 : before s t (seq (this w2))).
  { subst w2 w1. wsimpl_goal. by rewrite Hthis. }
  destruct (call_fn rec u w2) as [[e w3]|] eqn:Ecall; [|done].
  pose proof (call_fn_ordered _ _ _ Hb2 Ecall) as Ho3.
  eapply ordered_trans; [done..|exact Ho3|].
  assert (Hb3 : before s t (seq (this w3))).
  { by rewrite (seq_steps _ _ _ (ordered_steps_steps _ _ _ Ho3)). }
  set (pw := match e with
             | Threw err =>
                 (RPlain,
                  stop (js_or err (VStr (name u +:+ " threw an exception"))) false w3)
             | Returned r => (r, w3)
             end) in *.
  assert (Hpw : ordered_steps s t [name u] w3 pw.2).
  { subst pw. destruct e; simpl; [apply stop_ordered | apply ordered_refl]. }
  destruct pw as [p w4]. simpl in Hpw.
  eapply ordered_trans; [done..|exact Hpw|].
  assert (Hb4 : before s t (seq (this w4))).
  { by rewrite (seq_steps _ _ _ (ordered_steps_steps _ _ _ Hpw)). }
  destruct p as [|settles].
  - destruct (Nat.eqb (fnval_length (fn u)) 0); injection H as <-; simpl.
    + eapply ordered_trans; [done..|apply log_ordered|]. apply mark_done_ordered.
    + apply ordered_refl.
  - by eapply register_handlers_ordered.
Qed.
End Rec.

Section RecScan.
Variable rec : world → option outcome.
Hypothesis rec_ordered :
  ∀ w o, rec w = Some o → before s t (seq (this w)) →
         ordered_steps s t [] w (world_of o).
Hypothesis rec_steps : ∀ w o, rec w = Some o → steps [] w (world_of o).

Lemma scan_one_ordered n w o :
  n ≠ s → n ≠ t → before s t (seq (this w)) →
  isRunning (this w) = true → scan_one rec n w = Some o →
  ordered_steps s t [] w (world_of o).
Proof.
  unfold scan_one. intros Hns Hnt Hb Hr H.
  destruct (lookup_task n (tasks (this w))) as [u|] eqn:E.
  2:{ injection H as <-. apply ordered_refl. }
  destruct (negb (done u) && negb (running u)) eqn:Ef.
  2:{ injection H as <-. apply ordered_refl. }
  apply andb_true_iff in Ef as [Hd Hru]. apply negb_true_iff in Hd, Hru.
  destruct (readyToRunTask u w) as [ready w1] eqn:Er. unfold readyToRunTask in Er.
  pose proof (lookup_task_name _ _ _ E) as Hn.
  destruct ready.
  - apply readyToRunTask_loop_true in Er as [-> Hdeps].
    eapply (runTask_ordered rec rec_ordered rec_steps u); try done; try congruence.
    rewrite Hn. by exists u.
  - injection H as <-. simpl. apply ordered_of_quiet.
    by eapply readyToRunTask_loop_false.
Qed.

Lemma scan_one_first w o :
  isRunning (this w) = true → eligible (tasks (this w)) s →
  scan_one rec s w = Some o →
  ∃ evs rest, step [] w evs (world_of o) ∧ starts evs = s :: rest.
Proof.
  unfold scan_one. intros Hr (u & Hl & Hd & Hru & Hdeps) H.
  rewrite Hl, Hd, Hru in H. simpl in H. unfold readyToRunTask in H.
  rewrite readyToRunTask_loop_complete in H by done.
  pose proof (lookup_task_name _ _ _ Hl) as Hn.
  destruct (runTask_steps rec rec_steps u w o) as (evs & rest & ? & ?); try done.
  - rewrite Hn. by exists u.
  - exists evs, rest. by rewrite <- Hn.
Qed.

Lemma scan_ordered names w o :
  before s t (seq (this w)) → before s t names →
  isRunning (this w) = true → scan rec names w = Some o →
  ordered_steps s t [] w (world_of o).
Proof.
  revert w. induction names as [|n names IH]; intros w Hbs Hb Hr H.
  { destruct Hb as (l1 & l2 & E & _). by destruct l1. }
  simpl in H.
  destruct (scan_one rec n w) as [o1|] eqn:E1; [|done].
  destruct (decide (n = s)) as [->|Hns].
  - (* the pass has reached [s] *)
    assert (Hall : steps [] w (world_of o)).
    { eapply (scan_steps rec rec_steps (s :: names)); [done|]. simpl. by rewrite E1. }
    destruct Hall as [evs Hevs]. exists evs. split; [done|].
    intros Es _.
    destruct (scan_one_first w o1 Hr Es E1) as (e1 & rest & H1 & Hst).
    assert (Hrest : steps [] (world_of o1) (world_of o)).
    { destruct o1 as [w1|e w1]; [|injection H as <-; apply steps_refl].
      destruct (isRunning (this w1)) eqn:Hr1; [|injection H as <-; apply steps_refl].
      by eapply scan_steps. }
    destruct Hrest as [e2 H2].
    assert (evs = e1 ++ e2) as ->.
    { pose proof (step_trace _ _ _ _ Hevs) as T.
      rewrite (step_trace _ _ _ _ H2), (step_trace _ _ _ _ H1), <- app_assoc in T.
      by apply app_inv_head in T. }
    unfold starts. rewrite omap_app. fold (starts e1). rewrite Hst. simpl.
    by rewrite String.eqb_refl.
  - assert (Hb' : before s t names ∧ n ≠ t).
    { destruct Hb as (l1 & l2 & E & Ht & _). destruct l1 as [|x l1]; simpl in E.
      - injection E as ? _. done.
      - injection E as -> ->. apply not_elem_of_cons in Ht as [? ?].
        split; [|done]. exists l1, l2. done. }
    destruct Hb' as [Hb' Hnt].
    pose proof (scan_one_ordered n w o1 Hns Hnt Hbs Hr E1) as Ho1.
    destruct o1 as [w1|e w1]; [|by injection H as <-].
    destruct (isRunning (this w1)) eqn:Hr1; [|by injection H as <-].
    simpl in Ho1.
    assert (Hbs1 : before s t (seq (this w1))).
    { by rewrite (seq_steps _ _ _ (ordered_steps_steps _ _ _ Ho1)). }
    eapply ordered_trans; [apply not_elem_of_nil..|exact Ho1|]. by apply IH.
Qed.
End RecScan.

Lemma runStep_ordered fuel w o :
  runStep fuel w = Some o → before s t (seq (this w)) →
  ordered_steps s t [] w (world_of o).
Proof.
  revert w o. induction fuel as [|fuel IH]; simpl; intros w o H Hb; [done|].
  destruct (isRunning (this w)) eqn:Hr.
  - eapply scan_ordered; eauto. apply runStep_steps.
  - injection H as <-. apply ordered_refl.
Qed.
End SchedulerOrder.

(** ** Histories *)

Lemma trace_ok_refl w : trace_ok w w.
Proof.
  exists []. split; [by rewrite app_nil_r|]. intros n r H. by apply elem_of_nil in H.
Qed.

Lemma trace_ok_eq w w' : trace w' = trace w → trace_ok w w'.
Proof.
  intros E. exists []. split; [by rewrite app_nil_r|].
  intros n r H. by apply elem_of_nil in H.
Qed.

Lemma trace_ok_trans w1 w2 w3 : trace_ok w1 w2 → trace_ok w2 w3 → trace_ok w1 w3.
Proof.
  intros (e1 & T1 & S1) (e2 & T2 & S2). exists (e1 ++ e2).
  split; [by rewrite T2, T1, app_assoc|].
  intros n r [H|H]%elem_of_app; [by apply S1 | by apply S2].
Qed.

Lemma trace_ok_steps X w w' : steps X w w' → trace_ok w w'.
Proof. intros [evs H]. exists evs. split; by destruct H. Qed.

Lemma add_trace n d f w : trace (world_of (add n d f w)) = trace w.
Proof.
  unfold add. destruct (arg_truthy f); destruct (name_truthy n); simpl; try done;
    destruct (arg_truthy _); done.
Qed.

Lemma run_eq fuel names notify w :
  run fuel names notify w =
  match sequence_call (run_names names w) (with_notifier notify w) with
  | None => None
  | Some (s, w1) => runStep fuel (prepared s w1)
  end.
Proof. unfold run, with_notifier. by destruct notify. Qed.

Lemma with_notifier_fields notify w :
  tasks (this (with_notifier notify w)) = tasks (this w) ∧
  seq (this (with_notifier notify w)) = seq (this w) ∧
  isRunning (this (with_notifier notify w)) = isRunning (this w) ∧
  verbose (this (with_notifier notify w)) = verbose (this w) ∧
  fresh (with_notifier notify w) = fresh w ∧
  trace (with_notifier notify w) = trace w ∧
  doneCallback (this (with_notifier notify w)) =
    match notify with Some c => Some c | None => doneCallback (this w) end.
Proof. unfold with_notifier. by destruct notify. Qed.

Lemma prepared_fields s w :
  seq (this (prepared s w)) = s ∧
  isRunning (this (prepared s w)) = true ∧
  tasks (this (prepared s w)) = tasks (this w) ∧
  doneCallback (this (prepared s w)) = doneCallback (this w) ∧
  verbose (this (prepared s w)) = verbose (this w) ∧
  fresh (prepared s w) = fresh w ∧
  ∃ evs, trace (prepared s w) = trace w ++ evs ∧
         starts evs = [] ∧ stops evs = [] ∧ notified evs = [].
Proof.
  unfold prepared.
  set (w1 := log ("[seq: " +:+ String.concat "," s +:+ "]") (set_seq s w)).
  assert (H1 : this w1 = this (set_seq s w) ∧ fresh w1 = fresh w ∧
               ∃ evs, trace w1 = trace w ++ evs ∧
                      starts evs = [] ∧ stops evs = [] ∧ notified evs = []).
  { subst w1. rewrite log_this, log_trace. split; [done|]. split.
    - unfold log. by destruct (verbose _).
    - eexists. split; [done|]. by destruct (verbose _). }
  destruct H1 as (Hthis & Hfresh & Hevs).
  destruct (isRunning (this w1)) eqn:Hr.
  - rewrite Hthis in *. by repeat split.
  - wsimpl_goal. rewrite Hthis. by repeat split.
Qed.

Lemma sequence_call_cases names w s w1 :
  sequence_call names w = Some (s, w1) →
  (sequence (tasks (this w)) names [] [] = SeqOk s ∧ w1 = w) ∨
  (∃ e, sequence (tasks (this w)) names [] [] = SeqFail e ∧ s = [] ∧
        w1 = stop (seq_error_value e) false w).
Proof.
  unfold sequence_call. destruct (sequence _ _ _ _) as [s'|e|]; [| |done].
  - intros [= <- <-]. by left.
  - intros [= <- <-]. right. by exists e.
Qed.

Lemma sequence_call_steps names w s w1 :
  sequence_call names w = Some (s, w1) → steps [] w w1.
Proof.
  intros [[_ ->]|(e & _ & _ & ->)]%sequence_call_cases;
    [apply steps_refl | apply steps_stop].
Qed.

(** [run] is the call of the sequencer followed by one scheduling pass. *)
Lemma run_cases fuel names notify w r :
  run fuel names notify w = Some r →
  ∃ s w1, sequence_call (run_names names w) (with_notifier notify w) = Some (s, w1) ∧
          runStep fuel (prepared s w1) = Some r.
Proof.
  rewrite run_eq. destruct (sequence_call _ _) as [[s w1]|]; [|done]. eauto.
Qed.

Lemma run_trace_ok fuel names notify w r :
  run fuel names notify w = Some r → trace_ok w (world_of r).
Proof.
  intros (s & w1 & Hc & H)%run_cases.
  destruct (with_notifier_fields notify w) as (_ & _ & _ & _ & _ & Htr & _).
  destruct (prepared_fields s w1) as (_ & _ & _ & _ & _ & _ & evs & Hevs & Hst & _).
  eapply trace_ok_trans; [by apply trace_ok_eq|].
  eapply trace_ok_trans; [eapply trace_ok_steps, sequence_call_steps, Hc|].
  eapply trace_ok_trans; [|eapply trace_ok_steps, runStep_steps, H].
  exists evs. split; [done|]. intros n r0 Hin. exfalso.
  assert (Hn : n ∈ starts evs) by (apply list_elem_of_omap; by exists (Started n r0)).
  rewrite Hst in Hn. by apply elem_of_nil in Hn.
Qed.

Lemma exec_trace_ok fuel o w r : exec fuel o w = Some r → trace_ok w (world_of r).
Proof.
  destruct o; simpl.
  - intros [= <-]. apply trace_ok_eq, add_trace.
  - apply run_trace_ok.
  - intros [= <-]. eapply trace_ok_steps, (steps_stop []).
  - intros [= <-]. unfold reset.
    eapply trace_ok_trans; [eapply trace_ok_steps, (steps_stop [])|]. by apply trace_ok_eq.
  - intros H. eapply trace_ok_steps, cb_steps, H. apply runStep_steps.
  - intros H. eapply trace_ok_steps, onFulfilled_steps, H. apply runStep_steps.
  - intros [= <-]. eapply trace_ok_steps, onRejected_steps.
Qed.

Lemma exec_all_trace_ok fuel ops w w' : exec_all fuel ops w = Some w' → trace_ok w w'.
Proof.
  revert w. induction ops as [|o ops IH]; simpl; intros w H.
  - injection H as <-. apply trace_ok_refl.
  - destruct (exec fuel o w) as [r|] eqn:E; [|done].
    eapply trace_ok_trans; [by eapply exec_trace_ok | by apply IH].
Qed.

(** ** The sequencer *)

Lemma sequenced_nil ts : sequenced ts [].
Proof.
  split; [constructor|]. split; intros n; [|intros d]; intros H; by apply elem_of_nil in H.
Qed.

Lemma sequenced_snoc ts l n t :
  sequenced ts l → n ∉ l → lookup_task n ts = Some t →
  (∀ d, d ∈ dep t → d ∈ l) → sequenced ts (l ++ [n]).
Proof.
  intros (Hnd & Hreg & Hdep) Hn Hl Hd. split; [|split].
  - apply NoDup_app. split; [done|]. split; [|apply NoDup_singleton].
    intros x Hx ->%list_elem_of_singleton. done.
  - intros x [Hx| ->%list_elem_of_singleton]%elem_of_app; [by apply Hreg | by exists t].
  - intros x d [Hx| ->%list_elem_of_singleton]%elem_of_app Hxd.
    + destruct (Hdep x d Hx Hxd) as (l1 & l2 & -> & Hin).
      exists l1, (l2 ++ [n]). split; [by rewrite <- app_assoc | done].
    + destruct Hxd as (t' & Ht' & Hin). rewrite Hl in Ht'. injection Ht' as <-.
      exists l, []. split; [done | by apply Hd].
Qed.

Lemma visit_spec_refl ts results : visit_spec ts [] results results.
Proof.
  split; [exists []; by rewrite app_nil_r|]. split; [done|].
  split; [intros n H; by apply elem_of_nil in H | by left].
Qed.

Section VisitSpec.
Variable ts : list task.
Variable expand : list string → list string → list string → seq_result.
Hypothesis expand_spec :
  ∀ names results nest results',
    expand names results nest = SeqOk results' → visit_spec ts names results results'.

Lemma visit_each_spec names results nest results' :
  visit_each ts expand names results nest = SeqOk results' →
  visit_spec ts names results results'.
Proof.
  revert results. induction names as [|n names IH]; simpl; intros results H.
  - injection H as <-. apply visit_spec_refl.
  - destruct (contains n nest); [done|].
    destruct (lookup_task n ts) as [t|] eqn:El; [|done].
    destruct (expand (dep t) results (n :: nest)) as [r1| |] eqn:Ex; try done.
    destruct (expand_spec _ _ _ _ Ex) as ((ext1 & E1) & Hinv1 & Hin1 & Hreach1).
    set (r2 := if contains n r1 then r1 else r1 ++ [n]) in *.
    assert (H2 : (∃ ext, r2 = r1 ++ ext) ∧ (sequenced ts r1 → sequenced ts r2) ∧
                 n ∈ r2 ∧ (∀ x, x ∈ r2 → x ∈ r1 ∨ x = n)).
    { subst r2. destruct (contains n r1) eqn:Ec.
      - apply contains_elem_of in Ec. split; [exists []; by rewrite app_nil_r|].
        split; [done|]. split; [done | by left].
      - apply contains_not_elem_of in Ec. split; [by exists [n]|].
        split; [intros Hi; by eapply sequenced_snoc|].
        split; [apply elem_of_app; right; by apply list_elem_of_singleton|].
        intros x [?| ->%list_elem_of_singleton]%elem_of_app; auto. }
    destruct H2 as ((ext2 & E2) & Hinv2 & Hn2 & Hsub2).
    destruct (IH _ H) as ((ext3 & E3) & Hinv3 & Hin3 & Hreach3).
    split; [|split; [|split]].
    + exists (ext1 ++ ext2 ++ ext3). by rewrite E3, E2, E1, <- !app_assoc.
    + auto.
    + intros x [->|Hx]%elem_of_cons; [|by apply Hin3].
      rewrite E3. apply elem_of_app. by left.
    + intros x Hx. destruct (Hreach3 x Hx) as [Hx2|(m & Hm & Hr)].
      * destruct (Hsub2 x Hx2) as [Hx1| ->].
        -- destruct (Hreach1 x Hx1) as [?|(d & Hd & Hr)]; [by left|].
           right. exists n. split; [by left|].
           eapply rtc_l; [|exact Hr]. by exists t.
        -- right. exists n. split; [by left | done].
      * right. exists m. split; [by right | done].
Qed.

Lemma visit_each_app names1 names2 results nest :
  visit_each ts expand (names1 ++ names2) results nest =
  match visit_each ts expand names1 results nest with
  | SeqOk r => visit_each ts expand names2 r nest
  | failure => failure
  end.
Proof.
  revert results. induction names1 as [|n names1 IH]; simpl; intros results; [done|].
  destruct (contains n nest); [done|].
  destruct (lookup_task n ts); [|done].
  by destruct (expand _ _ _).
Qed.
End VisitSpec.

Lemma sequence_go_spec depth ts names results nest results' :
  sequence_go depth ts names results nest = SeqOk results' →
  visit_spec ts names results results'.
Proof.
  revert names results nest results'.
  induction depth as [|depth IH]; simpl; intros names results nest results' H; [done|].
  eapply visit_each_spec; [|exact H]. apply IH.
Qed.

Lemma sequence_sequenced ts names s :
  sequence ts names [] [] = SeqOk s →
  sequenced ts s ∧ (∀ n, n ∈ names → n ∈ s) ∧
  (∀ x, x ∈ s → ∃ n, n ∈ names ∧ rtc (depends ts) n x).
Proof.
  intros H. apply sequence_go_spec in H as (_ & Hinv & Hin & Hreach).
  split; [apply Hinv, sequenced_nil|]. split; [done|].
  intros x Hx. destruct (Hreach x Hx) as [H|H]; [by apply elem_of_nil in H | done].
Qed.

Lemma sequence_app ts names1 names2 s :
  sequence ts (names1 ++ names2) [] [] = SeqOk s →
  ∃ s1 s2, sequence ts names1 [] [] = SeqOk s1 ∧ s = s1 ++ s2.
Proof.
  unfold sequence. simpl. rewrite visit_each_app.
  destruct (visit_each ts _ names1 [] []) as [s1| |] eqn:E1; try done.
  intros H. exists s1.
  apply (visit_each_spec ts _ (sequence_go_spec (length ts) ts)) in H as ((s2 & ->) & _).
  by exists s2.
Qed.

(** The expansion never runs out of depth: the names on the path being
    expanded are distinct registered names. *)
Lemma sequence_go_depth depth ts names results nest :
  NoDup nest → (∀ n, n ∈ nest → n ∈ map name ts) →
  length ts < depth + length nest →
  sequence_go depth ts names results nest ≠ SeqDepth.
Proof.
  revert names results nest. induction depth as [|depth IH]; intros names results nest Hnd Hreg Hlen.
  - exfalso. pose proof (submseteq_length _ _ (NoDup_submseteq _ _ Hnd Hreg)) as Hle.
    rewrite length_map in Hle. simpl in Hlen. lia.
  - simpl. revert results.
    induction names as [|n names IHn]; simpl; intros results; [done|].
    destruct (contains n nest) eqn:Ec; [done|].
    destruct (lookup_task n ts) as [t|] eqn:El; [|done].
    destruct (sequence_go depth ts (dep t) results (n :: nest)) as [r|e|] eqn:Ex.
    + apply IHn.
    + done.
    + exfalso. revert Ex. apply IH.
      * constructor; [by apply contains_not_elem_of | done].
      * intros x [->|Hx]%elem_of_cons; [|by apply Hreg].
        apply lookup_task_is_Some. by exists t.
      * simpl. lia.
Qed.

Lemma sequence_total ts names : sequence ts names [] [] ≠ SeqDepth.
Proof.
  apply sequence_go_depth; [constructor| |simpl; lia].
  intros n H. by apply elem_of_nil in H.
Qed.

(** On an acyclic graph whose names are all registered the sequencer
    reports no failure. *)
Lemma sequence_go_no_failure depth ts names results nest :
  acyclic ts →
  (∀ n x, n ∈ names → rtc (depends ts) n x → registered ts x) →
  (∀ x n, x ∈ nest → n ∈ names → tc (depends ts) x n) →
  ∀ e, sequence_go depth ts names results nest ≠ SeqFail e.
Proof.
  intros Hac. revert names results nest.
  induction depth as [|depth IH]; simpl; intros names results nest Hcl Hq; [done|].
  revert results. induction names as [|n names IHn]; simpl; intros results; [done|].
  destruct (contains n nest) eqn:Ec.
  { apply contains_elem_of in Ec. destruct (Hac n). apply Hq; [done | by left]. }
  destruct (lookup_task n ts) as [t|] eqn:El.
  2:{ destruct (Hcl n n) as [t Ht]; [by left|done|]. congruence. }
  destruct (sequence_go depth ts (dep t) results (n :: nest)) as [r|e'|] eqn:Ex; [| |done].
  - apply IHn.
    + intros m x Hm. apply Hcl. by right.
    + intros x m Hx Hm. apply Hq; [done | by right].
  - exfalso. revert Ex. apply IH.
    + intros d x Hd Hr. apply (Hcl n); [by left|].
      eapply rtc_l; [|exact Hr]. by exists t.
    + intros x d [->|Hx]%elem_of_cons Hd.
      * apply tc_once. by exists t.
      * eapply tc_r; [apply Hq; [done | by left]|]. by exists t.
Qed.

(** ** Runs *)

Lemma step_turn X w evs w' : step X w evs w' → turn w evs w'.
Proof. intros []. by split. Qed.

Lemma turn_refl w : turn w [] w.
Proof. eapply step_turn, (step_refl []). Qed.

Lemma turn_trans w1 evs1 w2 evs2 w3 :
  turn w1 evs1 w2 → turn w2 evs2 w3 → turn w1 (evs1 ++ evs2) w3.
Proof.
  intros [] [].
  assert (Hst : stops (evs1 ++ evs2) = stops evs1 ++ stops evs2) by apply omap_app.
  assert (Hsta : starts (evs1 ++ evs2) = starts evs1 ++ starts evs2) by apply omap_app.
  assert (Hno : notified (evs1 ++ evs2) = notified evs1 ++ notified evs2) by apply omap_app.
  split.
  - rewrite turn_trace1, turn_trace0. by rewrite app_assoc.
  - rewrite Hst, turn_isRunning1, turn_isRunning0.
    destruct (stops evs1), (stops evs2); done.
  - rewrite Hst, turn_doneCallback1, turn_doneCallback0.
    destruct (stops evs1), (stops evs2); done.
  - rewrite Hno, Hst, turn_notified0, turn_notified1, turn_doneCallback0.
    destruct (doneCallback (this w1)), (stops evs1), (stops evs2); simpl; done.
  - intros Hr. rewrite Hsta, turn_quiet0, turn_quiet1; try done.
    rewrite turn_isRunning0, Hr. by destruct (stops evs1).
  - apply quiet_after_stop_app; try done.
    intros Hne. apply turn_quiet1. rewrite turn_isRunning0.
    by destruct (stops evs1).
Qed.

Lemma turn_fields w w' :
  trace w' = trace w → isRunning (this w') = isRunning (this w) →
  doneCallback (this w') = doneCallback (this w) → turn w [] w'.
Proof.
  intros T R D. split; simpl; try done.
  - by rewrite app_nil_r.
  - by destruct (doneCallback (this w)).
Qed.

Lemma add_turn n d f w : turn w [] (world_of (add n d f w)).
Proof.
  apply turn_fields; unfold add;
    destruct (arg_truthy f); destruct (name_truthy n); simpl; try done;
    destruct (arg_truthy _); done.
Qed.

Lemma reset_turn w : ∃ evs, turn w evs (reset w).
Proof.
  exists (stop_events VNull false w).
  pose proof (step_turn _ _ _ _ (step_stop_events [] VNull false w)) as [].
  rewrite stop_events_stops in *.
  unfold reset. split; wsimpl_goal; try done.
Qed.

Lemma exec_turn fuel o w r :
  is_run o = false → exec fuel o w = Some r → ∃ evs, turn w evs (world_of r).
Proof.
  destruct o; simpl; intros Hrun H; try done.
  - injection H as <-. eexists. apply add_turn.
  - injection H as <-. eexists. eapply step_turn, (step_stop_events []).
  - injection H as <-. apply reset_turn.
  - apply cb_steps in H as [evs H]; [|apply runStep_steps].
    exists evs. by eapply step_turn.
  - apply onFulfilled_steps in H as [evs H]; [|apply runStep_steps].
    exists evs. by eapply step_turn.
  - injection H as <-. destruct (onRejected_steps t err w) as [evs H].
    exists evs. by eapply step_turn.
Qed.

Lemma exec_all_turn fuel ops w w' :
  forallb (λ o, negb (is_run o)) ops = true →
  exec_all fuel ops w = Some w' → ∃ evs, turn w evs w'.
Proof.
  revert w. induction ops as [|o ops IH]; simpl; intros w Hops H.
  - injection H as <-. eexists. apply turn_refl.
  - apply andb_true_iff in Hops as [Ho Hops]. apply negb_true_iff in Ho.
    destruct (exec fuel o w) as [r|] eqn:E; [|done].
    destruct (exec_turn _ _ _ _ Ho E) as [e1 H1].
    destruct (IH _ Hops H) as [e2 H2].
    eexists. by eapply turn_trans.
Qed.

Lemma seq_registered_steps X w w' :
  steps X w w' → seq_registered w → seq_registered w'.
Proof.
  intros [evs H] Hreg n Hn. rewrite (step_seq _ _ _ _ H) in Hn.
  destruct (Hreg n Hn) as [u Hu].
  destruct (tasks_le_lookup _ _ _ _ (step_tasks _ _ _ _ H) Hu) as (u' & ? & _).
  by exists u'.
Qed.

Lemma allDone_loop_registered names ts :
  (∀ n, n ∈ names → registered ts n) → allDone_loop names ts ≠ None.
Proof.
  induction names as [|n names IH]; simpl; intros H; [done|].
  destruct (H n) as [u ->]; [by left|].
  destruct (done u); [|done]. apply IH. intros m Hm. apply H. by right.
Qed.

Section SchedulerNormal.
Variable rec : world → option outcome.
Hypothesis rec_steps : ∀ w o, rec w = Some o → steps [] w (world_of o).
Hypothesis rec_normal :
  ∀ w o, rec w = Some o → seq_registered w → ∃ w', o = Normal w'.

Lemma cb_normal t err w o :
  seq_registered w → cb rec t err w = Some o → ∃ w', o = Normal w'.
Proof.
  unfold cb. intros Hreg H. destruct (truthy err); [injection H as <-; eauto|].
  eapply rec_normal; [done|].
  eapply seq_registered_steps; [apply (steps_log [])|].
  eapply seq_registered_steps; [apply steps_mark_done|done].
Qed.

Lemma call_body_normal t calls w o :
  seq_registered w → call_body rec t calls w = Some o → ∃ w', o = Normal w'.
Proof.
  revert w. induction calls as [|v calls IH]; simpl; intros w Hreg H.
  - injection H as <-. eauto.
  - destruct (cb rec t v w) as [o1|] eqn:E; [|done].
    destruct (cb_normal _ _ _ _ Hreg E) as [w1 ->].
    eapply IH; [|done]. eapply seq_registered_steps; [|done].
    by apply (cb_steps rec rec_steps _ _ _ _ E).
Qed.

Lemma register_handlers_normal t settles w o :
  seq_registered w → register_handlers rec t settles w = Some o → ∃ w', o = Normal w'.
Proof.
  revert w. induction settles as [|x settles IH]; simpl; intros w Hreg H.
  - injection H as <-. eauto.
  - destruct x as [|e].
    + destruct (onFulfilled rec t w) as [o1|] eqn:E; [|done].
      assert (∃ w1, o1 = Normal w1) as [w1 ->].
      { unfold onFulfilled in E. eapply rec_normal; [done|].
        eapply seq_registered_steps; [apply (steps_log [])|].
        eapply seq_registered_steps; [apply steps_mark_done|done]. }
      eapply IH; [|done]. eapply seq_registered_steps; [|done].
      by apply (onFulfilled_steps rec rec_steps _ _ _ E).
    + eapply IH; [|done]. eapply seq_registered_steps; [|done].
      apply onRejected_steps.
Qed.

Lemma runTask_normal t w o :
  seq_registered w → runTask rec t w = Some o → ∃ w', o = Normal w'.
Proof.
  unfold runTask. fold (at_call t w). intros Hreg H.
  assert (Hreg2 : seq_registered (at_call t w)).
  { intros n Hn. unfold at_call in *. revert Hn. wsimpl_goal. rewrite !log_this.
    intros Hn. destruct (Hreg n Hn) as [u Hu]. unfold registered.
    rewrite lookup_write_flags by done. rewrite Hu. by eexists. }
  destruct (call_fn rec t (at_call t w)) as [[e w3]|] eqn:Ecall; [|done].
  pose proof (call_fn_steps rec rec_steps _ _ _ _ Ecall) as Hs3.
  pose proof (seq_registered_steps _ _ _ Hs3 Hreg2) as Hreg3.
  destruct e as [err|[|l]]; simpl in H.
  - destruct (Nat.eqb _ _); injection H as <-; eauto.
  - destruct (Nat.eqb _ _); injection H as <-; eauto.
  - by eapply register_handlers_normal.
Qed.

Lemma scan_one_normal n w o :
  seq_registered w → n ∈ seq (this w) →
  scan_one rec n w = Some o → ∃ w', o = Normal w'.
Proof.
  unfold scan_one. intros Hreg Hn H.
  destruct (Hreg n Hn) as [u Hu]. rewrite Hu in H.
  destruct (negb (done u) && negb (running u)); [|injection H as <-; eauto].
  destruct (readyToRunTask u w) as [ready w1] eqn:Er. unfold readyToRunTask in Er.
  destruct ready; [|injection H as <-; eauto].
  apply readyToRunTask_loop_true in Er as [-> _]. by eapply runTask_normal.
Qed.

Lemma scan_normal names w o :
  seq_registered w → (∀ n, n ∈ names → n ∈ seq (this w)) →
  isRunning (this w) = true →
  scan rec names w = Some o → ∃ w', o = Normal w'.
Proof.
  revert w. induction names as [|n names IH]; simpl; intros w Hreg Hsub Hr H.
  - unfold allDone in H.
    pose proof (allDone_loop_registered _ _ Hreg) as Hd.
    destruct (allDone_loop _ _) as [[|]|]; [| |done]; injection H as <-; eauto.
  - destruct (scan_one rec n w) as [o1|] eqn:E; [|done].
    destruct (scan_one_normal _ _ _ Hreg (Hsub n ltac:(by left)) E) as [w1 ->].
    destruct (isRunning (this w1)) eqn:Hr1; [|injection H as <-; eauto].
    pose proof (scan_one_steps rec rec_steps _ _ _ Hr E) as Hs1. simpl in Hs1.
    eapply IH; [by eapply seq_registered_steps| |done|done].
    intros m Hm. destruct Hs1 as [? Hs1]. rewrite (step_seq _ _ _ _ Hs1).
    apply Hsub. by right.
Qed.
End SchedulerNormal.

Lemma runStep_normal fuel w o :
  seq_registered w → runStep fuel w = Some o → ∃ w', o = Normal w'.
Proof.
  revert w o. induction fuel as [|fuel IH]; simpl; intros w o Hreg H; [done|].
  destruct (isRunning (this w)) eqn:Hr; [|injection H as <-; eauto].
  eapply (scan_normal (runStep fuel)); eauto. apply runStep_steps.
Qed.

Lemma unstarted_length ts : unstarted ts ≤ length ts.
Proof. unfold unstarted. apply length_filter. Qed.

Lemma append_nonempty s1 s2 : s2 ≠ "" → String.eqb (s1 +:+ s2) "" = false.
Proof.
  intros H. apply String.eqb_neq. destruct s1; simpl; [done | discriminate].
Qed.

Lemma truthy_js_or_message v s1 s2 :
  s2 ≠ "" → truthy (js_or v (VStr (s1 +:+ s2))) = true.
Proof.
  intros H. unfold js_or. destruct (truthy v) eqn:E; [done|].
  simpl. by rewrite append_nonempty.
Qed.

(** [run] returns, and returns normally. *)
Lemma run_returns fuel names notify w :
  length (tasks (this w)) < fuel → ∃ w', run fuel names notify w = Some (Normal w').
Proof.
  intros Hfuel. rewrite run_eq.
  destruct (with_notifier_fields notify w) as (Ht0 & _).
  set (w0 := with_notifier notify w) in *.
  destruct (sequence_call (run_names names w) w0) as [[s w1]|] eqn:Ec.
  2:{ unfold sequence_call in Ec. destruct (sequence _ _ _ _) eqn:Es; try done.
      by destruct (sequence_total _ _ Es). }
  destruct (prepared_fields s w1) as (Hs & _ & Ht & _).
  assert (Ht1 : tasks (this w1) = tasks (this w)).
  { apply sequence_call_cases in Ec as [[_ ->]|(e & _ & _ & ->)]; [done|].
    by rewrite stop_tasks. }
  destruct (runStep_total fuel (prepared s w1)) as [o Ho].
  { rewrite Ht, Ht1. pose proof (unstarted_length (tasks (this w))). lia. }
  rewrite Ho. destruct (runStep_normal fuel (prepared s w1) o) as [w' ->]; [|done|by exists w'].
  intros n Hn. rewrite Hs in Hn. rewrite Ht, Ht1, <- Ht0.
  apply sequence_call_cases in Ec as [[Es _]|(e & _ & -> & _)].
  - destruct (sequence_sequenced _ _ _ Es) as ((_ & Hreg & _) & _). by apply Hreg.
  - by apply elem_of_nil in Hn.
Qed.

Lemma readyToRunTask_loop_missing t l1 d l2 w :
  Forall (λ x, ∃ td, lookup_task x (tasks (this w)) = Some td ∧ done td = true) l1 →
  lookup_task d (tasks (this w)) = None →
  readyToRunTask_loop t (l1 ++ d :: l2) w = (false, stop (missing_msg t d) false w).
Proof.
  intros Hl1 Hd. induction Hl1 as [|x l1 (td & E & Ed) _ IH]; simpl.
  - by rewrite Hd.
  - by rewrite E, Ed.
Qed.

(** When the sequencer succeeds, [run] stores its output and makes one
    scheduling pass. *)
Lemma run_prepared fuel names notify w s :
  sequence (tasks (this w)) (run_names names w) [] [] = SeqOk s →
  ∃ w1, run fuel names notify w = runStep fuel w1 ∧
        seq (this w1) = s ∧ isRunning (this w1) = true ∧
        tasks (this w1) = tasks (this w) ∧
        doneCallback (this w1) =
          match notify with Some c => Some c | None => doneCallback (this w) end ∧
        ∃ evs, trace w1 = trace w ++ evs ∧
               starts evs = [] ∧ stops evs = [] ∧ notified evs = [].
Proof.
  intros Hs. rewrite run_eq.
  destruct (with_notifier_fields notify w) as (Ht0 & _ & _ & _ & _ & Htr0 & Hdc0).
  unfold sequence_call. rewrite Ht0, Hs.
  destruct (prepared_fields s (with_notifier notify w))
    as (H1 & H2 & H3 & H4 & _ & _ & evs & H5 & H6).
  exists (prepared s (with_notifier notify w)). split; [done|].
  rewrite H3, H4, H5, Ht0, Htr0, Hdc0. repeat split; try done. by exists evs.
Qed.

(** Every turn comes to an end when the fuel exceeds the number of
    registered tasks. *)
Lemma exec_total fuel o w :
  length (tasks (this w)) < fuel → is_Some (exec fuel o w).
Proof.
  intros Hfuel. pose proof (unstarted_length (tasks (this w))) as Hle.
  destruct o; simpl; try done.
  - destruct (run_returns fuel names notify w Hfuel) as [w' ->]. done.
  - apply (cb_total (runStep fuel) fuel); [apply runStep_total|lia].
  - unfold fulfilled, onFulfilled. apply runStep_total. rewrite log_this.
    pose proof (unstarted_steps _ _ _ (steps_mark_done t w)). lia.
Qed.

(** ** Object identity

    In every world that the operations produce from a new orchestrator the
    stamps tell the task objects apart, so a write through a captured object
    reaches that object and no other. *)

Lemma tasks_le_names ts ts' : Forall2 task_le ts ts' → map name ts' = map name ts.
Proof. induction 1 as [|u u' ts ts' (Hn & _) _ IH]; simpl; congruence. Qed.

Lemma tasks_le_tids ts ts' : Forall2 task_le ts ts' → map tid ts' = map tid ts.
Proof. induction 1 as [|u u' ts ts' (_ & _ & _ & Ht & _) _ IH]; simpl; congruence. Qed.

Lemma well_stamped_steps X w w' : steps X w w' → well_stamped w → well_stamped w'.
Proof.
  intros [evs H] (Hn & Ht & Hf). pose proof (step_tasks _ _ _ _ H) as Hle.
  unfold well_stamped. rewrite (tasks_le_names _ _ Hle), (tasks_le_tids _ _ Hle).
  split; [done|]. split; [done|].
  rewrite (step_fresh _ _ _ _ H). clear -Hf Hle.
  induction Hle as [|u u' ts ts' (_ & _ & _ & Hu & _) _ IH]; [done|].
  apply Forall_cons in Hf as [? ?]. constructor; [by rewrite Hu | auto].
Qed.

Lemma store_task_names t ts :
  map name (store_task t ts) =
  if contains (name t) (map name ts) then map name ts else map name ts ++ [name t].
Proof.
  induction ts as [|u ts IH]; simpl; [done|].
  destruct (String.eqb_spec (name u) (name t)) as [E|E]; simpl; [by rewrite E|].
  rewrite IH. by destruct (contains (name t) (map name ts)).
Qed.

Lemma store_task_elem_of t ts v :
  v ∈ store_task t ts → v = t ∨ v ∈ ts.
Proof.
  induction ts as [|x ts IH]; simpl; intros Hin.
  - apply list_elem_of_singleton in Hin. by left.
  - destruct (String.eqb (name x) (name t)).
    + apply elem_of_cons in Hin as [->|Hin]; [by left|]. right. by right.
    + apply elem_of_cons in Hin as [->|Hin]; [right; by left|].
      destruct (IH Hin); [by left|]. right. by right.
Qed.

Lemma store_task_stamped t ts k :
  NoDup (map tid ts) → Forall (λ u, tid u < k) ts → tid t = k →
  NoDup (map tid (store_task t ts)) ∧ Forall (λ u, tid u < S k) (store_task t ts).
Proof.
  intros Hnd Hf Ht. induction ts as [|u ts IH]; simpl.
  - split; [apply NoDup_singleton|]. constructor; [lia|done].
  - apply NoDup_cons in Hnd as [Hu Hnd]. apply Forall_cons in Hf as [Hk Hf].
    destruct (String.eqb (name u) (name t)); simpl.
    + split.
      * constructor; [|done]. intros Hin. apply list_elem_of_fmap in Hin as (v & Hv & Hin).
        rewrite Forall_forall in Hf. specialize (Hf v Hin). simpl in Hf. lia.
      * constructor; [lia|]. eapply Forall_impl; [done|]. simpl. lia.
    + destruct (IH Hnd Hf) as [IH1 IH2]. split.
      * constructor; [|done]. intros Hin. apply list_elem_of_fmap in Hin as (v & Hv & Hin).
        destruct (store_task_elem_of _ _ _ Hin) as [->|Hvts]; [lia|].
        apply Hu. apply list_elem_of_fmap. eauto.
      * constructor; [lia|done].
Qed.

Lemma add_cases n d f w :
  (∃ e, add n d f w = Thrown e w) ∨
  (∃ t, tid t = fresh w ∧
        add n d f w =
          Normal {| this := this (set_tasks (store_task t (tasks (this w))) w);
                    fresh := S (fresh w); trace := trace w |}).
Proof.
  unfold add.
  destruct (arg_truthy f) as [fv|] eqn:Ef.
  - rewrite Ef. destruct (name_truthy n); [|eauto]. right. eexists. split; [|done]. done.
  - destruct (arg_truthy d) as [dv|]; destruct (name_truthy n); eauto.
    right. eexists. split; [|done]. done.
Qed.

Lemma add_well_stamped n d f w : well_stamped w → well_stamped (world_of (add n d f w)).
Proof.
  intros (Hn & Ht & Hf).
  destruct (add_cases n d f w) as [[e ->]|(t & Htid & ->)]; [done|].
  destruct (store_task_stamped t (tasks (this w)) (fresh w) Ht Hf Htid) as [H1 H2].
  split; [|split; [exact H1 | exact H2]].
  wsimpl_goal. rewrite store_task_names.
  destruct (contains _ _) eqn:Ec; [done|].
  apply contains_not_elem_of in Ec. apply NoDup_app. split; [done|].
  split; [|apply NoDup_singleton].
  intros x Hx ->%list_elem_of_singleton. done.
Qed.

Lemma run_well_stamped fuel names notify w r :
  well_stamped w → run fuel names notify w = Some r → well_stamped (world_of r).
Proof.
  intros Hw (s & w1 & Hc & H)%run_cases.
  eapply well_stamped_steps; [by eapply runStep_steps|].
  assert (H1 : well_stamped w1).
  { eapply well_stamped_steps; [by eapply sequence_call_steps|].
    destruct (with_notifier_fields notify w) as (Ht & _ & _ & _ & Hf & _).
    unfold well_stamped. by rewrite Ht, Hf. }
  destruct (prepared_fields s w1) as (_ & _ & Ht & _ & _ & Hf & _).
  unfold well_stamped. by rewrite Ht, Hf.
Qed.

Lemma exec_well_stamped fuel o w r :
  well_stamped w → exec fuel o w = Some r → well_stamped (world_of r).
Proof.
  intros Hw. destruct o; simpl.
  - intros [= <-]. by apply add_well_stamped.
  - by apply run_well_stamped.
  - intros [= <-]. eapply well_stamped_steps; [apply (steps_stop [])|done].
  - intros [= <-]. unfold reset, well_stamped. wsimpl_goal.
    split; [constructor|]. split; constructor.
  - intros H. eapply well_stamped_steps; [|done]. eapply cb_steps, H. apply runStep_steps.
  - intros H. eapply well_stamped_steps; [|done].
    eapply onFulfilled_steps, H. apply runStep_steps.
  - intros [= <-]. eapply well_stamped_steps; [apply onRejected_steps|done].
Qed.

Lemma exec_all_well_stamped fuel ops v c s w' :
  exec_all fuel ops (Orchestrator v c s) = Some w' → well_stamped w'.
Proof.
  assert (H0 : well_stamped (Orchestrator v c s)).
  { split; [constructor|]. split; constructor. }
  revert H0. generalize (Orchestrator v c s). intros w Hw. revert w Hw.
  induction ops as [|o ops IH]; simpl; intros w Hw H.
  - by injection H as <-.
  - destruct (exec fuel o w) as [r|] eqn:E; [|done].
    eapply IH; [|done]. by eapply exec_well_stamped.
Qed.

(** ** Scanning in sequence order *)

Lemma NoDup_split_unique (a b c d : list string) x :
  NoDup (a ++ x :: b) → a ++ x :: b = c ++ x :: d → a = c.
Proof.
  revert c. induction a as [|y a IH]; intros c Hnd E.
  - destruct c as [|z c]; [done|]. simpl in *. injection E as <- ->.
    apply NoDup_cons in Hnd as [Hx _]. destruct Hx.
    apply elem_of_app. right. by left.
  - destruct c as [|z c]; simpl in *.
    + injection E as -> _. apply NoDup_cons in Hnd as [Hx _]. destruct Hx.
      apply elem_of_app. right. by left.
    + injection E as <- E. apply NoDup_cons in Hnd as [_ Hnd]. f_equal. by apply IH.
Qed.

Lemma tasks_le_lookup_r ts ts' n u' :
  Forall2 task_le ts ts' → lookup_task n ts' = Some u' →
  ∃ u, lookup_task n ts = Some u ∧ task_le u u'.
Proof.
  induction 1 as [|x y l k Hxy Hlk IH]; simpl; [discriminate|].
  pose proof Hxy as (Hn & _). rewrite Hn.
  destruct (String.eqb (name x) n).
  - intros [= <-]. eauto.
  - done.
Qed.

Lemma depends_le ts ts' a b : Forall2 task_le ts ts' → depends ts' a b → depends ts a b.
Proof.
  intros Hle (t' & Ht' & Hb).
  destruct (tasks_le_lookup_r _ _ _ _ Hle Ht') as (t & Ht & (_ & Hd & _)).
  exists t. split; [done|]. by rewrite <- Hd.
Qed.

Lemma sequenced_le ts ts' l : Forall2 task_le ts ts' → sequenced ts l → sequenced ts' l.
Proof.
  intros Hle (Hnd & Hreg & Hdep). split; [done|]. split.
  - intros n Hn. destruct (Hreg n Hn) as [u Hu].
    destruct (tasks_le_lookup _ _ _ _ Hle Hu) as (u' & ? & _). by exists u'.
  - intros n d Hn Hd. apply Hdep; [done|]. by eapply depends_le.
Qed.

Lemma in_pass_steps X sq w w' : steps X w w' → in_pass sq w → in_pass sq w'.
Proof.
  intros [evs H] [Hs Hq]. split; [by rewrite (step_seq _ _ _ _ H)|].
  eapply sequenced_le; [|done]. by destruct H.
Qed.

Lemma owns_steps X u w w' :
  steps X w w' → owns u (tasks (this w)) → owns u (tasks (this w')).
Proof.
  intros Hs (u0 & Hl & Ht).
  destruct (steps_lookup _ _ _ _ _ Hs Hl) as (u1 & Hl1 & (_ & _ & _ & Ht1 & _)).
  exists u1. split; [done | congruence].
Qed.

Lemma eligible_before_mark_running u w s :
  s ≠ name u → eligible (tasks (this (mark_running u w))) s →
  eligible (tasks (this w)) s.
Proof.
  intros Hs (t & Hl & Hd & Hr & Hdeps). revert Hl Hdeps. wsimpl_goal.
  rewrite lookup_write_flags_ne by done. intros Hl Hdeps.
  exists t. repeat split; try done.
  eapply Forall_impl; [done|]. simpl. intros d (td & Htd & Hdone).
  rewrite lookup_write_flags in Htd by done.
  destruct (lookup_task d (tasks (this w))) as [td0|]; [|done].
  exists td0. split; [done|]. simpl in Htd. injection Htd as <-.
  by destruct (_ && _).
Qed.

Lemma eligible_before_mark_done u w s :
  s ≠ name u → eligible (tasks (this (mark_done u w))) s →
  eligible (tasks (this w)) s ∨ depends (tasks (this w)) s (name u).
Proof.
  intros Hs (t & Hl & Hd & Hr & Hdeps). revert Hl Hdeps. wsimpl_goal.
  rewrite lookup_write_flags_ne by done. intros Hl Hdeps.
  destruct (decide (name u ∈ dep t)) as [Hin|Hnin]; [right; by exists t|].
  left. exists t. repeat split; try done.
  rewrite Forall_forall in Hdeps. apply Forall_forall. intros d Hd'.
  destruct (Hdeps d Hd') as (td & Htd & Hdone).
  rewrite lookup_write_flags_ne in Htd by (done || congruence). eauto.
Qed.

Lemma not_eligible_owned_running u w :
  owns u (tasks (this w)) → ¬ eligible (tasks (this (mark_running u w))) (name u).
Proof.
  intros (u0 & Hl & Ht) (t & Hl' & _ & Hr & _).
  rewrite (mark_running_lookup u w u0 Hl Ht) in Hl'. injection Hl' as <-. done.
Qed.

Lemma not_eligible_owned_done u w :
  owns u (tasks (this w)) → ¬ eligible (tasks (this (mark_done u w))) (name u).
Proof.
  intros (u0 & Hl & Ht) (t & Hl' & Hd & _).
  rewrite (mark_done_lookup u w u0 Hl Ht) in Hl'. injection Hl' as <-. done.
Qed.

Lemma starts_in_order_nil sq : starts_in_order sq [].
Proof. intros t r pre post H. by apply elem_of_nil in H. Qed.

Lemma starts_in_order_app sq evs1 evs2 :
  starts_in_order sq evs1 → starts_in_order sq evs2 → starts_in_order sq (evs1 ++ evs2).
Proof.
  intros H1 H2 t r pre post [H|H]%elem_of_app; [by eapply H1 | by eapply H2].
Qed.

Lemma starts_in_order_quiet sq evs : starts evs = [] → starts_in_order sq evs.
Proof.
  intros H t r pre post Hin. exfalso.
  assert (Hs : t ∈ starts evs).
  { apply list_elem_of_omap. by exists (Started t r). }
  rewrite H in Hs. by apply elem_of_nil in Hs.
Qed.

Lemma pass_in_order_quiet X sq w evs w' (Q : world → Prop) :
  step X w evs w' → starts evs = [] → Q w' → pass_in_order sq w (Normal w') Q.
Proof.
  intros H Hs HQ. exists evs. split; [by destruct H|].
  split; [by apply starts_in_order_quiet|]. by intros ? [= <-].
Qed.

Lemma pass_in_order_trans sq w w1 o (Q1 Q2 : world → Prop) :
  pass_in_order sq w (Normal w1) Q1 → pass_in_order sq w1 o Q2 →
  pass_in_order sq w o Q2.
Proof.
  intros (e1 & T1 & S1 & _) (e2 & T2 & S2 & HQ). exists (e1 ++ e2).
  split; [simpl in T1; by rewrite T2, T1, app_assoc|].
  split; [by apply starts_in_order_app | done].
Qed.

Lemma pass_in_order_weaken sq w o (Q1 Q2 : world → Prop) :
  pass_in_order sq w o Q1 → (∀ w', o = Normal w' → Q1 w' → Q2 w') →
  pass_in_order sq w o Q2.
Proof.
  intros (e1 & T1 & S1 & HQ) H. exists e1. split; [done|]. split; [done|]. auto.
Qed.

Lemma readyToRunTask_loop_false_cases t deps w w' :
  readyToRunTask_loop t deps w = (false, w') →
  (w' = w ∧
   ¬ Forall (λ d, ∃ td, lookup_task d (tasks (this w)) = Some td ∧ done td = true) deps) ∨
  isRunning (this w') = false.
Proof.
  induction deps as [|d deps IH]; simpl; [done|].
  destruct (lookup_task d (tasks (this w))) as [td|] eqn:Ed.
  - destruct (done td) eqn:Edone.
    + intros Hl. destruct (IH Hl) as [[-> Hn]|?]; [left|by right].
      split; [done|]. intros HF. apply Forall_cons in HF as [_ HF]. done.
    + intros [= <-]. left. split; [done|]. intros HF.
      apply Forall_cons in HF as [(td' & Htd' & Hdone) _]. congruence.
  - intros [= <-]. right. apply stop_isRunning.
Qed.

Section InOrder.
Variable sq : list string.

Section Task.
Variable rec : world → option outcome.
Hypothesis rec_steps : ∀ w o, rec w = Some o → steps [] w (world_of o).
Hypothesis rec_in_order :
  ∀ w o, rec w = Some o → in_pass sq w → pass_in_order sq w o (quiescent sq).

Variable u : task.
Variables pre post : list string.
Hypothesis sq_split : sq = pre ++ name u :: post.

Lemma earlier_not_after s :
  NoDup sq → s ∈ pre → ¬ earlier (name u) s sq.
Proof.
  intros Hnd Hs (l1 & l2 & E & Hu).
  apply list_elem_of_split in Hs as (p1 & p2 & ->).
  rewrite sq_split in E, Hnd. rewrite <- app_assoc in E, Hnd. simpl in E, Hnd.
  pose proof (NoDup_split_unique _ _ _ _ _ Hnd E) as <-.
  apply NoDup_app in Hnd as (_ & Hdis & _).
  apply (Hdis (name u) Hu). right. apply elem_of_app. right. by left.
Qed.

Lemma pre_ne s : NoDup sq → s ∈ pre → s ≠ name u.
Proof.
  intros Hnd Hs ->. rewrite sq_split in Hnd.
  apply NoDup_app in Hnd as (_ & Hdis & _). apply (Hdis _ Hs). by left.
Qed.

Lemma mark_done_in_task w :
  in_pass sq w → owns u (tasks (this w)) →
  in_task sq pre u w → in_task sq pre u (mark_done u w).
Proof.
  intros [Hseq (Hnd & Hreg & Hdep)] Hown [Hr|Hne]; [by left|right].
  intros s [Hs| ->%list_elem_of_singleton]%elem_of_app.
  - intros He. apply eligible_before_mark_done in He as [He|He]; [| |by apply pre_ne].
    + apply (Hne s); [|done]. apply elem_of_app. by left.
    + apply (earlier_not_after s Hnd Hs). apply Hdep; [|done].
      rewrite sq_split. apply elem_of_app. by left.
  - by apply not_eligible_owned_done.
Qed.

Lemma log_in_task line w : in_task sq pre u w → in_task sq pre u (log line w).
Proof. unfold in_task. by rewrite log_this. Qed.

Lemma stop_in_task err b w : in_task sq pre u (stop err b w).
Proof. left. apply stop_isRunning. Qed.

Lemma rec_in_task w o :
  in_pass sq w → rec w = Some o → pass_in_order sq w o (in_task sq pre u).
Proof.
  intros Hp H. eapply pass_in_order_weaken; [by apply rec_in_order|].
  intros w' -> HQ. unfold in_task. destruct (isRunning (this w')) eqn:Hr; [right|by left].
  intros s Hs. apply HQ; [done|]. rewrite sq_split.
  apply elem_of_app in Hs as [Hs| ->%list_elem_of_singleton];
    apply elem_of_app; [by left | right; by left].
Qed.

Lemma cb_in_order err w o :
  in_pass sq w → owns u (tasks (this w)) → in_task sq pre u w →
  cb rec u err w = Some o → pass_in_order sq w o (in_task sq pre u).
Proof.
  unfold cb. intros Hp Hown HJ H.
  eapply pass_in_order_trans.
  { eapply (pass_in_order_quiet [name u] _ _ [] _ (λ _, True)); [|done..].
    by apply step_mark_done, list_elem_of_singleton. }
  pose proof (mark_done_in_task w Hp Hown HJ) as HJ1.
  pose proof (in_pass_steps _ _ _ _ (steps_mark_done u w) Hp) as Hp1.
  destruct (step_log [] ("[" +:+ name u +:+ " calledback]") (mark_done u w))
    as (e2 & H2 & Hs2 & _).
  eapply pass_in_order_trans.
  { by eapply (pass_in_order_quiet [] _ _ e2 _ (λ _, True)). }
  destruct (truthy err).
  - injection H as <-. destruct (step_stop [] err false
      (log ("[" +:+ name u +:+ " calledback]") (mark_done u w))) as (e3 & H3 & Hs3 & _).
    eapply pass_in_order_quiet; [done..|]. apply stop_in_task.
  - apply rec_in_task; [|done]. eapply in_pass_steps; [by exists e2|done].
Qed.

Lemma call_body_in_order calls w o :
  in_pass sq w → owns u (tasks (this w)) → in_task sq pre u w →
  call_body rec u calls w = Some o → pass_in_order sq w o (in_task sq pre u).
Proof.
  revert w. induction calls as [|v calls IH]; simpl; intros w Hp Hown HJ H.
  - injection H as <-. by eapply (pass_in_order_quiet []); [apply step_refl|..].
  - destruct (cb rec u v w) as [[w1|e w1]|] eqn:E; [|injection H as <-|done].
    + pose proof (cb_in_order _ _ _ Hp Hown HJ E) as H1.
      pose proof (cb_steps rec rec_steps _ _ _ _ E) as Hs1. simpl in Hs1.
      eapply pass_in_order_trans; [exact H1|]. apply IH; try done.
      * by eapply in_pass_steps.
      * by eapply owns_steps.
      * destruct H1 as (_ & _ & _ & HQ). by apply HQ.
    + by eapply cb_in_order.
Qed.

Lemma register_handlers_in_order settles w o :
  in_pass sq w → owns u (tasks (this w)) → in_task sq pre u w →
  register_handlers rec u settles w = Some o →
  pass_in_order sq w o (in_task sq pre u).
Proof.
  revert w. induction settles as [|x settles IH]; simpl; intros w Hp Hown HJ H.
  - injection H as <-. by eapply (pass_in_order_quiet []); [apply step_refl|..].
  - assert (Hcb : ∀ o1,
        (match x with
         | Fulfil => onFulfilled rec u w
         | Reject e => Some (Normal (onRejected u e w))
         end) = Some o1 →
        pass_in_order sq w o1 (in_task sq pre u) ∧ steps [name u] w (world_of o1)).
    { intros o1 E. destruct x as [|e].
      - split; [|by eapply onFulfilled_steps].
        unfold onFulfilled in E.
        eapply pass_in_order_trans.
        { eapply (pass_in_order_quiet [name u] _ _ [] _ (λ _, True)); [|done..].
          by apply step_mark_done, list_elem_of_singleton. }
        destruct (step_log [] ("[" +:+ name u +:+ " resolved]") (mark_done u w))
          as (e2 & H2 & Hs2 & _).
        eapply pass_in_order_trans.
        { by eapply (pass_in_order_quiet [] _ _ e2 _ (λ _, True)). }
        apply rec_in_task; [|done]. eapply in_pass_steps; [by exists e2|].
        by eapply in_pass_steps; [apply steps_mark_done|].
      - injection E as <-. split; [|apply onRejected_steps].
        destruct (onRejected_steps u e w) as [e1 H1].
        exists e1. split; [by destruct H1|]. split.
        + apply starts_in_order_quiet.
          unfold onRejected in H1.
          destruct (step_stop [] (js_or e (VStr (name u +:+ " promise rejected"))) false
            (log ("[" +:+ name u +:+ " rejected]") (mark_done u w))) as (e3 & H3 & Hs3 & _).
          destruct (step_log [] ("[" +:+ name u +:+ " rejected]") (mark_done u w))
            as (e2 & H2 & Hs2 & _).
          pose proof (step_mark_done [name u] u w ltac:(by apply list_elem_of_singleton)) as H0.
          pose proof (step_trace _ _ _ _ H1) as T1.
          rewrite (step_trace _ _ _ _ H3), (step_trace _ _ _ _ H2), (step_trace _ _ _ _ H0),
            app_nil_r, <- app_assoc in T1.
          apply app_inv_head in T1 as <-. unfold starts in *.
          by rewrite omap_app, Hs2, Hs3.
        + intros w' [= <-]. apply stop_in_task. }
    destruct (match x with
              | Fulfil => onFulfilled rec u w
              | Reject e => Some (Normal (onRejected u e w))
              end) as [[w1|e w1]|] eqn:E; [|injection H as <-|done].
    + destruct (Hcb _ eq_refl) as [H1 Hs1]. simpl in Hs1.
      eapply pass_in_order_trans; [exact H1|]. apply IH; try done.
      * by eapply in_pass_steps.
      * by eapply owns_steps.
      * destruct H1 as (_ & _ & _ & HQ). by apply HQ.
    + by destruct (Hcb _ eq_refl).
Qed.

Lemma runTask_in_order w o :
  in_pass sq w → isRunning (this w) = true →
  none_eligible (tasks (this w)) pre →
  lookup_task (name u) (tasks (this w)) = Some u →
  eligible (tasks (this w)) (name u) →
  runTask rec u w = Some o → pass_in_order sq w o (in_task sq pre u).
Proof.
  intros Hp Hr Hpre Hl He H.
  pose proof Hp as [Hseq (Hnd & _)].
  unfold runTask in H.
  destruct (step_log [] ("[" +:+ name u +:+ " started]") w) as (e0 & Hs0 & Hst0 & _).
  set (w0 := log ("[" +:+ name u +:+ " started]") w) in *.
  assert (Hthis : this w0 = this w) by apply log_this.
  set (w1 := emit (Started (name u) (tasks (this w0))) w0) in *.
  assert (H1 : step [] w0 [Started (name u) (tasks (this w0))] w1).
  { apply step_started; rewrite Hthis; done. }
  set (w2 := mark_running u w1) in *.
  assert (H2 : step [name u] w1 [] w2).
  { by apply step_mark_running, list_elem_of_singleton. }
  assert (Hp2 : in_pass sq w2).
  { eapply in_pass_steps; [by eexists|]. eapply in_pass_steps; [by eexists|].
    eapply in_pass_steps; [by eexists|]. done. }
  assert (Hown1 : owns u (tasks (this w1))).
  { exists u. subst w1. simpl. by rewrite Hthis. }
  assert (Hown2 : owns u (tasks (this w2))).
  { eapply owns_steps; [by eexists|done]. }
  assert (HJ2 : in_task sq pre u w2).
  { right. intros s [Hs| ->%list_elem_of_singleton]%elem_of_app.
    - intros Hes. apply eligible_before_mark_running in Hes; [|by apply pre_ne].
      apply (Hpre s Hs). revert Hes. subst w1. simpl. by rewrite Hthis.
    - by apply not_eligible_owned_running. }
  eapply pass_in_order_trans.
  { by eapply (pass_in_order_quiet [] _ _ e0 _ (λ _, True)). }
  eapply pass_in_order_trans.
  { exists [Started (name u) (tasks (this w0))]. split; [by destruct H1|].
    split; [|by intros ? _; exact I].
    intros t r pre' post' Hin E. apply list_elem_of_singleton in Hin.
    injection Hin as -> ->. rewrite sq_split in E, Hnd.
    pose proof (NoDup_split_unique _ _ _ _ _ Hnd E) as <-. by rewrite Hthis. }
  eapply pass_in_order_trans.
  { by eapply (pass_in_order_quiet [name u] _ _ [] _ (λ _, True)). }
  fold w2.
  destruct (call_fn rec u w2) as [[e w3]|] eqn:Ecall; [|done].
  pose proof (call_fn_steps rec rec_steps _ _ _ _ Ecall) as Hs3.
  pose proof (in_pass_steps _ _ _ _ Hs3 Hp2) as Hp3.
  pose proof (owns_steps _ _ _ _ Hs3 Hown2) as Hown3.
  assert (H3 : ∃ o3, world_of o3 = w3 ∧ pass_in_order sq w2 o3 (in_task sq pre u) ∧
                     ((∃ r, e = Returned r) → o3 = Normal w3)).
  { unfold call_fn in Ecall. destruct (fn u) as [l|f].
    - injection Ecall as <- <-. exists (Normal w2). split; [done|]. split; [|done].
      by eapply (pass_in_order_quiet []); [apply step_refl|..].
    - destruct (call_body rec u (fn_calls f) w2) as [[w'|e' w']|] eqn:Eb; [| |done];
        injection Ecall as <- <-.
      + exists (Normal w'). split; [done|]. split; [|done].
        by eapply call_body_in_order.
      + exists (Thrown e' w'). split; [done|]. split; [by eapply call_body_in_order|].
        by intros [r ?]. }
  destruct H3 as (o3 & Hw3 & (e3 & T3 & S3 & HQ3) & Hret).
  assert (Hpre3 : pass_in_order sq w2 (Normal w3) (λ w', (∃ r, e = Returned r) → in_task sq pre u w')).
  { exists e3. split; [simpl; by rewrite <- Hw3|]. split; [done|].
    intros w' [= <-] Hr3. apply HQ3. by apply Hret. }
  eapply pass_in_order_trans; [exact Hpre3|].
  set (pw := match e with
             | Threw err =>
                 (RPlain,
                  stop (js_or err (VStr (name u +:+ " threw an exception"))) false w3)
             | Returned r => (r, w3)
             end) in *.
  assert (Hpw : pass_in_order sq w3 (Normal pw.2) (in_task sq pre u) ∧
                steps [name u] w3 pw.2).
  { subst pw. destruct e as [err|r]; simpl.
    - destruct (step_stop [name u] (js_or err (VStr (name u +:+ " threw an exception")))
                  false w3) as (e4 & H4 & Hs4 & _).
      split; [|by exists e4]. eapply pass_in_order_quiet; [done..|]. apply stop_in_task.
    - split; [|apply steps_refl].
      eapply (pass_in_order_quiet []); [apply step_refl|done|].
      destruct Hpre3 as (_ & _ & _ & HQ). apply HQ; eauto. }
  destruct pw as [p w4]. simpl in Hpw. destruct Hpw as [Hpw Hs4].
  eapply pass_in_order_trans; [exact Hpw|].
  pose proof (in_pass_steps _ _ _ _ Hs4 Hp3) as Hp4.
  pose proof (owns_steps _ _ _ _ Hs4 Hown3) as Hown4.
  assert (HJ4 : in_task sq pre u w4) by (destruct Hpw as (_ & _ & _ & HQ); by apply HQ).
  destruct p as [|settles].
  - destruct (Nat.eqb (fnval_length (fn u)) 0); injection H as <-.
    + destruct (step_log [] ("[" +:+ name u +:+ " finished]") w4) as (e5 & H5 & Hs5 & _).
      eapply pass_in_order_trans.
      { by eapply (pass_in_order_quiet [] _ _ e5 _ (λ _, True)). }
      eapply (pass_in_order_quiet [name u] _ _ []);
        [by apply step_mark_done, list_elem_of_singleton|done|].
      apply mark_done_in_task.
      * eapply in_pass_steps; [by exists e5|done].
      * eapply owns_steps; [by exists e5|done].
      * by apply log_in_task.
    + by eapply (pass_in_order_quiet []); [apply step_refl|..].
  - by eapply register_handlers_in_order.
Qed.
End Task.

Section Scan.
Variable rec : world → option outcome.
Hypothesis rec_steps : ∀ w o, rec w = Some o → steps [] w (world_of o).
Hypothesis rec_in_order :
  ∀ w o, rec w = Some o → in_pass sq w → pass_in_order sq w o (quiescent sq).

Lemma scan_one_in_order pre n post w o :
  sq = pre ++ n :: post →
  in_pass sq w → isRunning (this w) = true →
  none_eligible (tasks (this w)) pre →
  scan_one rec n w = Some o →
  pass_in_order sq w o
    (λ w', isRunning (this w') = false ∨ none_eligible (tasks (this w')) (pre ++ [n])).
Proof.
  unfold scan_one. intros Hsq Hp Hr Hpre H.
  assert (Hidle : ¬ eligible (tasks (this w)) n →
                  pass_in_order sq w (Normal w)
                    (λ w', isRunning (this w') = false ∨
                           none_eligible (tasks (this w')) (pre ++ [n]))).
  { intros Hn. eapply (pass_in_order_quiet []); [apply step_refl|done|]. right.
    intros s [Hs| ->%list_elem_of_singleton]%elem_of_app; [by apply Hpre | done]. }
  destruct (lookup_task n (tasks (this w))) as [u|] eqn:E.
  2:{ injection H as <-. exists []. split; [simpl; by rewrite app_nil_r|].
      split; [apply starts_in_order_nil | done]. }
  pose proof (lookup_task_name _ _ _ E) as Hn.
  destruct (negb (done u) && negb (running u)) eqn:Ef.
  2:{ injection H as <-. apply Hidle. intros (t & Ht & Hd & Hru & _).
      rewrite E in Ht. injection Ht as <-. by rewrite Hd, Hru in Ef. }
  apply andb_true_iff in Ef as [Hd Hru]. apply negb_true_iff in Hd, Hru.
  destruct (readyToRunTask u w) as [ready w1] eqn:Er. unfold readyToRunTask in Er.
  destruct ready.
  - apply readyToRunTask_loop_true in Er as [-> Hdeps].
    subst n. eapply (runTask_in_order rec rec_steps rec_in_order u pre post); try done.
    by exists u.
  - injection H as <-.
    destruct (readyToRunTask_loop_false_cases _ _ _ _ Er) as [[-> Hnf]|Hr1].
    + apply Hidle. intros (t & Ht & _ & _ & HF). rewrite E in Ht. by injection Ht as <-.
    + destruct (readyToRunTask_loop_false [] _ _ _ _ Er) as (evs & Hs & Hq).
      eapply pass_in_order_quiet; [done..|]. by left.
Qed.

Lemma scan_in_order pre names w o :
  sq = pre ++ names →
  in_pass sq w → isRunning (this w) = true →
  none_eligible (tasks (this w)) pre →
  scan rec names w = Some o → pass_in_order sq w o (quiescent sq).
Proof.
  revert pre w. induction names as [|n names IH]; simpl; intros pre w Hsq Hp Hr Hpre H.
  - rewrite app_nil_r in Hsq. subst pre.
    destruct (allDone w) as [[|]|]; injection H as <-.
    + destruct (step_stop [] VNull true w) as (e & He & Hs & _).
      eapply pass_in_order_quiet; [done..|]. intros Hr'. by rewrite stop_isRunning in Hr'.
    + eapply (pass_in_order_quiet []); [apply step_refl|done|]. by intros _.
    + exists []. split; [simpl; by rewrite app_nil_r|].
      split; [apply starts_in_order_nil | done].
  - destruct (scan_one rec n w) as [o1|] eqn:E; [|done].
    pose proof (scan_one_in_order pre n names w o1 Hsq Hp Hr Hpre E) as H1.
    pose proof (scan_one_steps rec rec_steps _ _ _ Hr E) as Hs1.
    destruct o1 as [w1|e w1].
    + destruct (isRunning (this w1)) eqn:Hr1.
      * eapply pass_in_order_trans; [exact H1|].
        apply (IH (pre ++ [n])); try done.
        -- by rewrite <- app_assoc.
        -- by eapply in_pass_steps.
        -- destruct H1 as (_ & _ & _ & HQ). destruct (HQ w1 eq_refl); [congruence|done].
      * injection H as <-. eapply pass_in_order_weaken; [exact H1|].
        intros w' [= <-] _ Hr'. congruence.
    + injection H as <-. eapply pass_in_order_weaken; [exact H1|]. done.
Qed.
End Scan.

Lemma runStep_in_order fuel w o :
  in_pass sq w → runStep fuel w = Some o → pass_in_order sq w o (quiescent sq).
Proof.
  revert w o. induction fuel as [|fuel IH]; simpl; intros w o Hp H; [done|].
  destruct (isRunning (this w)) eqn:Hr.
  - eapply (scan_in_order (runStep fuel) (runStep_steps fuel)
              (λ w0 o0 H0 Hp0, IH w0 o0 Hp0 H0) []); try done.
    + intros s Hs. by apply elem_of_nil in Hs.
    + destruct Hp as [<- _]. done.
  - injection H as <-. eapply (pass_in_order_quiet []); [apply step_refl|done|].
    intros Hr'. congruence.
Qed.
End InOrder.

(** [run] changes task objects only as a scheduling pass does; in
    particular a task that is done stays done. *)
Lemma run_tasks_le fuel names notify w r :
  run fuel names notify w = Some r →
  Forall2 task_le (tasks (this w)) (tasks (this (world_of r))).
Proof.
  intros (s & w1 & Hc & H)%run_cases.
  apply runStep_steps in H as [evs H]. apply step_tasks in H.
  destruct (prepared_fields s w1) as (_ & _ & Ht & _). rewrite Ht in H.
  destruct (sequence_call_steps _ _ _ _ Hc) as [evs1 H1]. apply step_tasks in H1.
  destruct (with_notifier_fields notify w) as (Ht0 & _). rewrite Ht0 in H1.
  eapply Forall2_trans; [|exact H1|exact H]. intros ???; apply task_le_trans.
Qed.

(** * The claims *)

(** C4: [stop] is idempotent with respect to the notifier.  With a notifier
    registered, the first of two consecutive calls fires it exactly once,
    with the error it was given; the second call, whatever its arguments,
    fires nothing and leaves every field of the orchestrator as it was. *)
Theorem stop_twice_fires_once (w : world) (c : notifier) (err err2 : value)
    (fin fin2 : bool) :
  doneCallback (this w) = Some c →
  ∃ evs1 evs2,
    trace (stop err fin w) = trace w ++ evs1 ∧
    trace (stop err2 fin2 (stop err fin w)) = trace (stop err fin w) ++ evs2 ∧
    notified evs1 = [(c, err)] ∧
    notified evs2 = [] ∧
    this (stop err2 fin2 (stop err fin w)) = this (stop err fin w).
Proof.
  intros Hc.
  exists (stop_events err fin w), (stop_events err2 fin2 (stop err fin w)).
  split; [apply stop_trace|]. split; [apply stop_trace|].
  rewrite !stop_events_notified, Hc, stop_doneCallback.
  repeat split. apply stop_this_idle; [apply stop_isRunning | apply stop_doneCallback].
Qed.

Lemma stop_twice_fires_once_witness :
  ∃ evs1 evs2,
    trace (stop (VError "failed") false (Orchestrator true (Some 3) [])) =
      trace (Orchestrator true (Some 3) []) ++ evs1 ∧
    trace (stop VNull true (stop (VError "failed") false (Orchestrator true (Some 3) []))) =
      trace (stop (VError "failed") false (Orchestrator true (Some 3) [])) ++ evs2 ∧
    notified evs1 = [(3, VError "failed")] ∧
    notified evs2 = [] ∧
    this (stop VNull true (stop (VError "failed") false (Orchestrator true (Some 3) []))) =
      this (stop (VError "failed") false (Orchestrator true (Some 3) [])).
Proof.
  apply (stop_twice_fires_once (Orchestrator true (Some 3) []) 3
           (VError "failed") VNull false true).
  reflexivity.
Defined.


(** C6: a started task whose executor declares no parameter, returns no
    deferred handle and does not throw is done and no longer running when
    [_runTask] returns, which it does, without throwing.  When the executor
    does not touch the completion callback, [_runTask] returns on the spot
    and reports no error: [stop] is not called, the notifier is not fired and
    the run stays as it was. *)
Theorem sync_executor_done_on_return (fuel : nat) (t : task) (f : executor) (w : world) :
  lookup_task (name t) (tasks (this w)) = Some t →
  fn t = FFunction f → fn_length f = 0 → fn_end f = Return RPlain →
  (done t = false → running t = false → unstarted (tasks (this w)) ≤ fuel →
   is_Some (runTask (runStep fuel) t w)) ∧
  (∀ o, runTask (runStep fuel) t w = Some o →
     ∃ w' t', o = Normal w' ∧ lookup_task (name t) (tasks (this w')) = Some t' ∧
              done t' = true ∧ running t' = false ∧ tid t' = tid t) ∧
  (fn_calls f = [] →
     ∃ w' evs, runTask (runStep fuel) t w = Some (Normal w') ∧
               trace w' = trace w ++ evs ∧
               stops evs = [] ∧ notified evs = [] ∧
               isRunning (this w') = isRunning (this w) ∧
               doneCallback (this w') = doneCallback (this w)).
Proof.
  intros Hl Hf Hlen Hend. split; [|split].
  - intros Hd Hr Hfuel.
    apply (runTask_total (runStep fuel) fuel (runStep_steps fuel) (runStep_total fuel));
      try done. lia.
  - intros o Ho.
    destruct (runTask_plain_done fuel t w o) as (w' & t' & ? & ? & ? & ? & ? & _); try done.
    + by rewrite Hf.
    + intros g l Hg. rewrite Hf in Hg. injection Hg as <-. by rewrite Hend.
    + eauto 10.
  - intros Hc. rewrite (runTask_no_calls _ t f w Hf Hc), Hend, Hlen. simpl.
    destruct (at_call_fields t w) as (Hv & Hd & _ & Hr).
    eexists _, _. split; [done|]. split.
    + wsimpl_goal. rewrite log_trace, at_call_trace, Hv, <- !app_assoc. done.
    + wsimpl_goal. rewrite !log_this, Hr, Hd. unfold stops, notified.
      rewrite !omap_app. by destruct (verbose (this w)).
Qed.

Lemma sync_executor_done_on_return_witness :
  let t := Build_task "lint" [] (FFunction (Build_executor 0 [] (Return RPlain)))
             false false 0 in
  let w := Build_world (Build_orchestrator true (Some 1) ["lint"] [t] true) 1 [] in
  ∃ w' evs, runTask (runStep 1) t w = Some (Normal w') ∧
            trace w' = trace w ++ evs ∧
            stops evs = [] ∧ notified evs = [] ∧
            isRunning (this w') = isRunning (this w) ∧
            doneCallback (this w') = doneCallback (this w).
Proof.
  intros t w.
  destruct (sync_executor_done_on_return 1 t (Build_executor 0 [] (Return RPlain)) w
              eq_refl eq_refl eq_refl eq_refl) as (_ & _ & H).
  exact (H eq_refl).
Defined.

(** C10: when the executor of a started task declares no parameter and
    throws, [_runTask] returns, having stopped the run and still marked the
    task done and not running.  When the executor does not touch the completion callback, the
    one [stop] call made carries the thrown value (or the replacement message
    when that value is falsy), and a registered notifier receives it. *)
Theorem throwing_sync_executor_marked_done (fuel : nat) (t : task) (f : executor)
    (e : value) (w : world) :
  lookup_task (name t) (tasks (this w)) = Some t →
  fn t = FFunction f → fn_length f = 0 → fn_end f = Throw e →
  (done t = false → running t = false → unstarted (tasks (this w)) ≤ fuel →
   is_Some (runTask (runStep fuel) t w)) ∧
  (∀ o, runTask (runStep fuel) t w = Some o →
     ∃ w' t', o = Normal w' ∧ isRunning (this w') = false ∧
              lookup_task (name t) (tasks (this w')) = Some t' ∧
              done t' = true ∧ running t' = false ∧ tid t' = tid t) ∧
  (fn_calls f = [] →
     ∃ w' evs, runTask (runStep fuel) t w = Some (Normal w') ∧
               trace w' = trace w ++ evs ∧
               stops evs = [js_or e (VStr (name t +:+ " threw an exception"))] ∧
               notified evs =
                 match doneCallback (this w) with
                 | Some c => [(c, js_or e (VStr (name t +:+ " threw an exception")))]
                 | None => []
                 end).
Proof.
  intros Hl Hf Hlen Hend. split; [|split].
  - intros Hd Hr Hfuel.
    apply (runTask_total (runStep fuel) fuel (runStep_steps fuel) (runStep_total fuel));
      try done. lia.
  - intros o Ho.
    destruct (runTask_plain_done fuel t w o) as (w' & t' & ? & ? & ? & ? & ? & Hstop);
      try done.
    + by rewrite Hf.
    + intros g l Hg. rewrite Hf in Hg. injection Hg as <-. by rewrite Hend.
    + exists w', t'. repeat split; try done. by eapply Hstop.
  - intros Hc. rewrite (runTask_no_calls _ t f w Hf Hc), Hend, Hlen. simpl.
    destruct (at_call_fields t w) as (Hv & Hd & _ & Hr).
    set (err := js_or e (VStr (name t +:+ " threw an exception"))).
    eexists _, _. split; [done|]. split.
    + wsimpl_goal. rewrite log_trace, stop_trace, at_call_trace, <- !app_assoc. done.
    + unfold stops, notified. rewrite !omap_app.
      fold (stops (stop_events err false (at_call t w))).
      fold (notified (stop_events err false (at_call t w))).
      rewrite stop_events_stops, stop_events_notified, Hd.
      destruct (verbose (this w)); simpl;
        destruct (verbose (this (stop err false (at_call t w)))); simpl;
        rewrite ?app_nil_r; done.
Qed.

Lemma throwing_sync_executor_marked_done_witness :
  let t := Build_task "lint" [] (FFunction (Build_executor 0 [] (Throw (VError "bad"))))
             false false 0 in
  let w := Build_world (Build_orchestrator false (Some 1) ["lint"] [t] true) 1 [] in
  ∃ w' t', runTask (runStep 1) t w = Some (Normal w') ∧ isRunning (this w') = false ∧
           lookup_task (name t) (tasks (this w')) = Some t' ∧
           done t' = true ∧ running t' = false ∧
           notified (trace w') = [(1, VError "bad")].
Proof.
  intros t w.
  destruct (throwing_sync_executor_marked_done 1 t
              (Build_executor 0 [] (Throw (VError "bad"))) (VError "bad") w
              eq_refl eq_refl eq_refl eq_refl) as (_ & H & _).
  destruct (H _ eq_refl) as (w' & t' & Ho & Hr & Hl & Hd & Hru & _).
  exists w', t'. injection Ho as <-. repeat split; try assumption; reflexivity.
Defined.

(** C5, as amended: the completion callback does not look at the state of
    its task or at the deferred handle.  Whenever it is invoked, the task it
    belongs to is done afterwards.  Invoked for a task that is already done
    and not running, it leaves the task as it is and goes on as for a first
    notification: with an error it stops the run, without one it makes a
    scheduling pass. *)
Theorem late_callback_still_processed (fuel : nat) (t : task) (err : value) (w : world) :
  (∀ u o, lookup_task (name t) (tasks (this w)) = Some u → tid u = tid t →
          callback fuel t err w = Some o →
          ∃ u', lookup_task (name t) (tasks (this (world_of o))) = Some u' ∧
                done u' = true) ∧
  ((∀ u, u ∈ tasks (this w) → name u = name t → tid u = tid t →
         done u = true ∧ running u = false) →
   mark_done t w = w ∧
   callback fuel t err w =
     if truthy err then
       Some (Normal (stop err false (log ("[" +:+ name t +:+ " calledback]") w)))
     else runStep fuel (log ("[" +:+ name t +:+ " calledback]") w)).
Proof.
  split.
  - intros u o Hl Ht H. unfold callback, cb in H.
    pose proof (mark_done_lookup t w u Hl Ht) as Hl1.
    set (w1 := log ("[" +:+ name t +:+ " calledback]") (mark_done t w)) in *.
    assert (Hs : steps [] w1 (world_of o)).
    { destruct (truthy err); [injection H as <-; apply steps_stop|].
      by apply runStep_steps in H. }
    assert (Hl1' : lookup_task (name t) (tasks (this w1)) = Some (set_flags false true u)).
    { subst w1. by rewrite log_this. }
    destruct (steps_lookup _ _ _ _ _ Hs Hl1') as (u' & Hu' & Hle).
    exists u'. split; [done|]. destruct Hle as (_ & _ & _ & _ & Hd & _). by apply Hd.
  - intros H. pose proof (mark_done_id t w H) as Hid. split; [done|].
    unfold callback, cb. by rewrite Hid.
Qed.

Lemma late_callback_still_processed_witness :
  let t := Build_task "deploy" []
             (FFunction (Build_executor 1 [] (Return (RDeferred [])))) false true 0 in
  let w := Build_world (Build_orchestrator false (Some 9) ["deploy"] [t] true) 1 [] in
  callback 2 t (VError "late") w =
    Some (Normal (stop (VError "late") false w)).
Proof.
  intros t w.
  refine (proj2 (proj2 (late_callback_still_processed 2 t (VError "late") w) _)).
  intros u Hu _ _. apply list_elem_of_singleton in Hu. subst u. split; reflexivity.
Defined.

(** C5 as stated fails.  The task [deploy] declares a completion parameter
    and returns a deferred handle; [watch] keeps the run alive.  After the
    handle is fulfilled [deploy] is done and the run is still active; the
    completion callback of [deploy], invoked then with an error, stops the
    run and fires the notifier with that error. *)
Lemma late_callback_aborts_run :
  let deploy := Build_executor 1 [] (Return (RDeferred [])) in
  let watch := Build_executor 1 [] (Return RPlain) in
  let w0 := Orchestrator false None [] in
  let w1 := world_of (add (Some "deploy") AUndefined (AFunction deploy) w0) in
  let w2 := world_of (add (Some "watch") AUndefined (AFunction watch) w1) in
  let t := Build_task "deploy" [] (FFunction deploy) false false 0 in
  ∃ w3 w4 w5,
    run 3 ["deploy"; "watch"] (Some 9) w2 = Some (Normal w3) ∧
    fulfilled 3 t w3 = Some (Normal w4) ∧
    lookup_task "deploy" (tasks (this w4)) =
      Some (Build_task "deploy" [] (FFunction deploy) false true 0) ∧
    isRunning (this w4) = true ∧
    callback 3 t (VError "late") w4 = Some (Normal w5) ∧
    isRunning (this w5) = false ∧
    notified (trace w5) = [(9, VError "late")].
Proof. intros. eexists _, _, _. repeat split; vm_compute; reflexivity. Qed.

(** C9: [run] does not clear the run state of the tasks: a task that is
    done before a call of [run] is done after it.  So when every task of the
    sequence [run] computes is already done, [run] invokes no executor and
    stops at once as a success: a registered notifier is fired with no
    error, the run is over, and the tasks are as they were.  A task object
    that is not done comes from [add], which stores a new object, and
    [reset] empties the registry. *)
Theorem rerun_of_finished_tasks :
  (∀ fuel names notify w r n t,
     run fuel names notify w = Some r →
     lookup_task n (tasks (this w)) = Some t → done t = true →
     ∃ t', lookup_task n (tasks (this (world_of r))) = Some t' ∧ done t' = true) ∧
  (∀ fuel names notify w s,
     sequence (tasks (this w)) (run_names names w) [] [] = SeqOk s →
     allDone_loop s (tasks (this w)) = Some true →
     ∃ w' evs,
       run (S fuel) names notify w = Some (Normal w') ∧
       trace w' = trace w ++ evs ∧
       starts evs = [] ∧
       notified evs =
         match (match notify with Some c => Some c | None => doneCallback (this w) end) with
         | Some c => [(c, VNull)]
         | None => []
         end ∧
       isRunning (this w') = false ∧
       tasks (this w') = tasks (this w)) ∧
  (∀ name_arg dep_arg fn_arg w w',
     add name_arg dep_arg fn_arg w = Normal w' →
     ∃ n t, name_truthy name_arg = Some n ∧
            lookup_task n (tasks (this w')) = Some t ∧
            done t = false ∧ running t = false ∧ tid t = fresh w) ∧
  (∀ w, tasks (this (reset w)) = []).
Proof.
  split; [|split; [|split]].
  { intros fuel names notify w r n t H Hl Hd.
    destruct (tasks_le_lookup _ _ _ _ (run_tasks_le _ _ _ _ _ H) Hl) as (t' & Ht' & Hle).
    exists t'. split; [done|]. destruct Hle as (_ & _ & _ & _ & Hm & _). auto. }
  3:{ done. }
  2:{ intros name_arg dep_arg fn_arg w w'. unfold add.
      destruct (arg_truthy fn_arg) as [fv|] eqn:Ef.
      - rewrite Ef. destruct (name_truthy name_arg) as [n|]; [|done].
        intros [= <-]. eexists n, _. split; [done|]. wsimpl_goal.
        split; [apply (lookup_store_task_eq (Build_task n _ _ false false _))|done].
      - destruct (arg_truthy dep_arg) as [dv|]; destruct (name_truthy name_arg) as [n|];
          try done.
        intros [= <-]. eexists n, _. split; [done|]. wsimpl_goal.
        split; [apply (lookup_store_task_eq (Build_task n _ _ false false _))|done]. }
  intros fuel names notify w s.
  intros Hs Hd.
  destruct (run_prepared (S fuel) names notify w s Hs)
    as (w1 & -> & Hs1 & Hr1 & Ht1 & Hdc1 & evs & Htr1 & Hst & _ & Hno).
  simpl. rewrite Hr1, Hs1.
  rewrite scan_all_done by (by rewrite ?Ht1).
  unfold allDone. rewrite Hs1, Ht1, Hd.
  eexists _, _. split; [done|]. split.
  - rewrite stop_trace, Htr1, <- app_assoc. done.
  - unfold starts, notified. rewrite !omap_app.
    fold (starts evs). fold (notified evs).
    fold (starts (stop_events VNull true w1)). fold (notified (stop_events VNull true w1)).
    rewrite Hst, Hno, stop_events_starts, stop_events_notified, Hdc1, stop_isRunning,
      stop_tasks.
    done.
Qed.

Lemma rerun_of_finished_tasks_witness :
  let sync := Build_executor 0 [] (Return RPlain) in
  let w := Build_world
             (Build_orchestrator false None ["a"; "b"]
                [Build_task "a" [] (FFunction sync) false true 0;
                 Build_task "b" ["a"] (FFunction sync) false true 1] false) 2 [] in
  ∃ w' evs,
    run 1 ["b"] (Some 4) w = Some (Normal w') ∧
    trace w' = trace w ++ evs ∧
    starts evs = [] ∧
    notified evs = [(4, VNull)] ∧
    isRunning (this w') = false ∧
    tasks (this w') = tasks (this w).
Proof.
  intros sync w.
  apply (proj1 (proj2 rerun_of_finished_tasks) 0 ["b"] (Some 4) w ["a"; "b"]);
    reflexivity.
Defined.

(** C1: whatever happens to an orchestrator, an executor is invoked only
    for a task that at that moment is not done, not running, and has every
    dependency registered and done; so no task starts before its
    dependencies are done.  Within a scheduling pass, of two tasks that are
    both eligible when the pass begins, the one that comes first in the
    stored sequence is started first.  When the stored sequence is an output
    of the sequencer for the registry, an executor is invoked only while no
    task at an earlier position of the sequence is eligible. *)
Theorem executors_start_eligible_in_order :
  (∀ fuel ops w w',
     exec_all fuel ops w = Some w' →
     ∃ evs, trace w' = trace w ++ evs ∧
            ∀ n r, Started n r ∈ evs → eligible r n) ∧
  (∀ fuel w o s t,
     runStep fuel w = Some o →
     eligible (tasks (this w)) s → eligible (tasks (this w)) t →
     before s t (seq (this w)) →
     ∃ evs, trace (world_of o) = trace w ++ evs ∧
            ∀ pre post, starts evs = pre ++ (t :: post) → s ∈ pre) ∧
  (∀ fuel w o,
     runStep fuel w = Some o →
     sequenced (tasks (this w)) (seq (this w)) →
     ∃ evs, trace (world_of o) = trace w ++ evs ∧
            ∀ t r pre post,
              Started t r ∈ evs → seq (this w) = pre ++ (t :: post) →
              ∀ s, s ∈ pre → ¬ eligible r s).
Proof.
  split; [|split].
  - intros fuel ops w w' H. by apply exec_all_trace_ok in H.
  - intros fuel w o s t H Es Et Hb.
    assert (Hst : s ≠ t) by (by destruct Hb as (? & ? & _ & _ & ?)).
    destruct (runStep_ordered s t Hst fuel w o H Hb) as (evs & Hstep & Ho).
    exists evs. split; [by destruct Hstep|].
    apply first_is_split; auto.
  - intros fuel w o H Hseq.
    destruct (runStep_in_order (seq (this w)) fuel w o) as (evs & T & Hord & _);
      [by split|done|].
    exists evs. split; [done|]. intros t r pre post Hin E. by eapply Hord.
Qed.

Lemma executors_start_eligible_in_order_witness :
  let sync := Build_executor 0 [] (Return RPlain) in
  let signal := Build_executor 1 [VUndefined] (Return RPlain) in
  let w := Build_world
             (Build_orchestrator false (Some 1) ["a"; "b"; "c"]
                [Build_task "a" [] (FFunction signal) false false 0;
                 Build_task "b" [] (FFunction sync) false false 1;
                 Build_task "c" [] (FFunction sync) false false 2] true) 3 [] in
  ∃ o evs, runStep 3 w = Some o ∧ trace (world_of o) = trace w ++ evs ∧
           starts evs = ["a"; "b"; "c"] ∧
           ∀ pre post, starts evs = pre ++ ("c" :: post) → "b" ∈ pre.
Proof.
  intros sync signal w.
  destruct (runStep 3 w) as [o|] eqn:E; [|vm_compute in E; discriminate].
  destruct (proj1 (proj2 executors_start_eligible_in_order) 3 w o "b" "c" E)
    as (evs & T & O).
  - exists (Build_task "b" [] (FFunction sync) false false 1).
    repeat split. constructor.
  - exists (Build_task "c" [] (FFunction sync) false false 2).
    repeat split. constructor.
  - exists ["a"], ["c"]. repeat split; [|discriminate].
    intros Hin. apply list_elem_of_singleton in Hin. discriminate.
  - exists o, evs. split; [reflexivity|]. split; [exact T|]. split; [|exact O].
    vm_compute in E. injection E as <-. simpl in T.
    unfold starts. rewrite <- T. reflexivity.
Defined.

(** C2: the sequence computed at the start of a run lists each requested
    task and each of their transitive dependencies, nothing else and nothing
    twice, and lists every dependency of a task ahead of the task.
    - Whatever names the sequencer is given, a sequence it returns has these
      properties.
    - [run] gives the sequencer the names it was called with (followed by
      the stored sequence when a run is in progress, and replaced by every
      registered name when none is left) and stores the result: every name
      [run] was called with is in the stored sequence; on an idle
      orchestrator the stored sequence lists the requested names and their
      transitive dependencies and nothing else, or every registered name and
      its transitive dependencies when no name was requested; nothing is
      listed twice and dependencies come first.
    - On an acyclic dependency graph in which the requested names and
      everything they depend on are registered, the sequencer does compute a
      sequence. *)
Theorem sequence_topological (ts : list task) (names : list string) :
  (∀ s, sequence ts names [] [] = SeqOk s →
        NoDup s ∧
        (∀ x, x ∈ s ↔ ∃ n, n ∈ names ∧ rtc (depends ts) n x) ∧
        (∀ a b, a ∈ s → depends ts a b → earlier b a s)) ∧
  (∀ fuel requested notify w s,
     tasks (this w) = ts →
     sequence ts (run_names requested w) [] [] = SeqOk s →
     (∃ w1, run fuel requested notify w = runStep fuel w1 ∧ seq (this w1) = s) ∧
     (∀ n, n ∈ requested → n ∈ s) ∧
     (isRunning (this w) = true → ∀ n, n ∈ seq (this w) → n ∈ s) ∧
     (isRunning (this w) = false → requested ≠ [] →
      ∀ x, x ∈ s ↔ ∃ n, n ∈ requested ∧ rtc (depends ts) n x) ∧
     (isRunning (this w) = false → requested = [] →
      ∀ x, x ∈ s ↔ ∃ n, registered ts n ∧ rtc (depends ts) n x) ∧
     NoDup s ∧
     (∀ a b, a ∈ s → depends ts a b → earlier b a s)) ∧
  (acyclic ts →
   (∀ n x, n ∈ names → rtc (depends ts) n x → registered ts x) →
   ∃ s, sequence ts names [] [] = SeqOk s).
Proof.
  assert (Hprops : ∀ l s, sequence ts l [] [] = SeqOk s →
            NoDup s ∧
            (∀ x, x ∈ s ↔ ∃ n, n ∈ l ∧ rtc (depends ts) n x) ∧
            (∀ a b, a ∈ s → depends ts a b → earlier b a s)).
  { intros l s E.
    destruct (sequence_sequenced _ _ _ E) as ((Hnd & Hreg & Hdep) & Hin & Hreach).
    split; [done|]. split; [|done].
    intros x. split; [apply Hreach|].
    intros (n & Hn & Hr). specialize (Hin n Hn).
    clear Hn. induction Hr as [|a b c Hab _ IH]; [done|].
    apply IH. destruct (Hdep a b Hin Hab) as (l1 & l2 & -> & Hb).
    apply elem_of_app. by left. }
  split; [|split].
  - apply Hprops.
  - intros fuel requested notify w s <- E.
    destruct (Hprops _ _ E) as (Hnd & Hmem & Hord).
    assert (Hin : ∀ n, n ∈ run_names requested w → n ∈ s).
    { intros n Hn. apply Hmem. exists n. split; [done|apply rtc_refl]. }
    split.
    { destruct (run_prepared fuel requested notify w s E) as (w1 & ? & ? & _). eauto. }
    split.
    { intros n Hn. apply Hin. unfold run_names.
      destruct (isRunning (this w)).
      - destruct requested as [|r rest]; [by apply elem_of_nil in Hn|].
        simpl. change (n ∈ (r :: rest) ++ seq (this w)). apply elem_of_app. by left.
      - by destruct requested as [|r rest]; [apply elem_of_nil in Hn|]. }
    split.
    { intros Hr n Hn. apply Hin. unfold run_names. rewrite Hr.
      destruct (requested ++ seq (this w)) as [|r rest] eqn:Eapp.
      - apply app_eq_nil in Eapp as [_ Eseq]. rewrite Eseq in Hn.
        by apply elem_of_nil in Hn.
      - rewrite <- Eapp. apply elem_of_app. by right. }
    split.
    { intros Hr Hne x. rewrite Hmem. unfold run_names. rewrite Hr.
      by destruct requested. }
    split; [|done].
    intros Hr -> x. rewrite Hmem. unfold run_names. rewrite Hr. simpl.
    split; intros (n & Hn & Hreach); exists n; (split; [|done]);
      by apply lookup_task_is_Some.
  - intros Hac Hcl.
    destruct (sequence ts names [] []) as [s|e|] eqn:E.
    + eauto.
    + exfalso. revert E. apply sequence_go_no_failure; [done..|].
      intros x n Hx. by apply elem_of_nil in Hx.
    + by destruct (sequence_total ts names).
Qed.

Lemma sequence_topological_witness :
  let f := FFunction (Build_executor 0 [] (Return RPlain)) in
  let ts := [Build_task "build" ["clean"] f false false 0;
             Build_task "clean" [] f false false 1] in
  let w := Build_world (Build_orchestrator false None [] ts false) 2 [] in
  ∃ s, sequence ts ["build"] [] [] = SeqOk s ∧
       NoDup s ∧
       (∀ x, x ∈ s ↔ ∃ n, n ∈ ["build"] ∧ rtc (depends ts) n x) ∧
       (∀ a b, a ∈ s → depends ts a b → earlier b a s) ∧
       (∃ w1, run 1 ["build"] None w = runStep 1 w1 ∧ seq (this w1) = s) ∧
       (∀ n, n ∈ ["build"] → n ∈ s).
Proof.
  intros f ts w.
  assert (Hdep : ∀ a b, depends ts a b → a = "build" ∧ b = "clean").
  { intros a b (u & Hu & Hb). revert Hu. unfold ts. cbn [lookup_task name].
    destruct (String.eqb_spec "build" a) as [<-|_].
    - intros [= <-]. simpl in Hb. by apply list_elem_of_singleton in Hb as ->.
    - destruct (String.eqb_spec "clean" a) as [<-|_]; [|discriminate].
      intros [= <-]. simpl in Hb. by apply elem_of_nil in Hb. }
  destruct (sequence_topological ts ["build"]) as (Hprops & Hrun & Hex).
  destruct Hex as [s Hs].
  - intros a Ha. inversion Ha as [? ? Hab|? b ? Hab Hba]; subst.
    + by apply Hdep in Hab as [-> ?].
    + apply Hdep in Hab as [-> ->].
      inversion Hba as [? ? Hbc|? c ? Hbc _]; subst; by apply Hdep in Hbc as [? _].
  - intros n x ->%list_elem_of_singleton Hr.
    inversion Hr as [|? b ? Hab Hbx]; subst; [by eexists|].
    apply Hdep in Hab as [_ ->].
    inversion Hbx as [|? c ? Hbc _]; subst; [by eexists|].
    by apply Hdep in Hbc as [? _].
  - destruct (Hprops s Hs) as (H1 & H2 & H3).
    destruct (Hrun 1 ["build"] None w s eq_refl Hs) as (H4 & H5 & _).
    exists s. repeat split; try done; by apply H2.
Defined.

(** C7: [run] called on a running orchestrator starts no second run.  It
    hands the sequencer the new names followed by the stored sequence, stores
    the result and makes one scheduling pass over it, with the run state of
    the tasks untouched; the sequence of the new names alone is a prefix of
    the stored sequence, so the new work is scanned first. *)
Theorem run_while_running_merges (fuel : nat) (names : list string)
    (notify : option notifier) (w : world) (s : list string) :
  isRunning (this w) = true → names ≠ [] →
  sequence (tasks (this w)) (names ++ seq (this w)) [] [] = SeqOk s →
  run_names names w = names ++ seq (this w) ∧
  (∃ s1 s2, sequence (tasks (this w)) names [] [] = SeqOk s1 ∧ s = s1 ++ s2) ∧
  ∃ w1, run fuel names notify w = runStep fuel w1 ∧
        seq (this w1) = s ∧ isRunning (this w1) = true ∧
        tasks (this w1) = tasks (this w) ∧
        starts (trace w1) = starts (trace w).
Proof.
  intros Hr Hne Hs.
  assert (Hn : run_names names w = names ++ seq (this w)).
  { unfold run_names. rewrite Hr. destruct names; [done|]. done. }
  split; [done|]. split; [by apply sequence_app in Hs|].
  rewrite <- Hn in Hs.
  destruct (run_prepared fuel names notify w s Hs)
    as (w1 & Hrun & Hs1 & Hr1 & Ht1 & _ & evs & Htr1 & Hst & _).
  exists w1. repeat split; try done.
  unfold starts. rewrite Htr1, omap_app. fold (starts evs). by rewrite Hst, app_nil_r.
Qed.

Lemma run_while_running_merges_witness :
  let wait := FFunction (Build_executor 1 [] (Return RPlain)) in
  let w := Build_world
             (Build_orchestrator false (Some 1) ["a"; "b"]
                [Build_task "a" [] wait true false 0;
                 Build_task "b" ["a"] wait false false 1;
                 Build_task "c" [] wait false false 2;
                 Build_task "d" ["c"] wait false false 3] true) 4 [] in
  ∃ s1 s2, sequence (tasks (this w)) ["d"] [] [] = SeqOk s1 ∧
           ["c"; "d"; "a"; "b"] = s1 ++ s2.
Proof.
  intros wait w.
  apply (run_while_running_merges 2 ["d"] None w ["c"; "d"; "a"; "b"]);
    [reflexivity | discriminate | reflexivity].
Defined.

(** C3, as amended: a failure of any kind goes through [stop], and the
    first call of [stop] ends the run and uses up the notifier.
    - Over a scheduling pass and any later turns other than a new call of
      [run], no executor is invoked after a [stop] call; once [stop] has been
      called the run is not running, and a notifier registered when the pass
      began has been fired exactly once, with the argument of the first
      [stop] call.
    - [stop] hands its argument to the notifier registered at that moment,
      if there is one, and leaves none registered: the error of a failure
      reaches the notifier exactly when no call of [stop] came before it.
    - A completion callback invoked with an error, a rejected deferred
      handle, an executor that throws and a dependency that is not
      registered at readiness time (under a name that [Object.prototype]
      does not define) each call [stop] with a truthy error; in the last
      case the executor of the dependent task is not invoked.
    - [run] returns without throwing. *)
Theorem first_failure_aborts_run :
  (∀ fuel w o ops w',
     runStep fuel w = Some o →
     forallb (λ o, negb (is_run o)) ops = true →
     exec_all fuel ops (world_of o) = Some w' →
     ∃ evs, trace w' = trace w ++ evs ∧
       (∀ pre e post, evs = pre ++ Stopped e :: post → starts post = []) ∧
       (∀ e rest, stops evs = e :: rest →
          isRunning (this w') = false ∧
          ∀ c, doneCallback (this w) = Some c → notified evs = [(c, e)])) ∧
  (∀ err fin w,
     ∃ evs, trace (stop err fin w) = trace w ++ evs ∧
            starts evs = [] ∧ stops evs = [err] ∧
            notified evs =
              match doneCallback (this w) with Some c => [(c, err)] | None => [] end ∧
            isRunning (this (stop err fin w)) = false ∧
            doneCallback (this (stop err fin w)) = None) ∧
  (∀ fuel t err w,
     truthy err = true →
     callback fuel t err w =
       Some (Normal (stop err false
                       (log ("[" +:+ name t +:+ " calledback]") (mark_done t w)))) ∧
     doneCallback (this (log ("[" +:+ name t +:+ " calledback]") (mark_done t w))) =
       doneCallback (this w)) ∧
  (∀ t err w,
     rejected t err w =
       stop (js_or err (VStr (name t +:+ " promise rejected"))) false
         (log ("[" +:+ name t +:+ " rejected]") (mark_done t w)) ∧
     truthy (js_or err (VStr (name t +:+ " promise rejected"))) = true ∧
     doneCallback (this (log ("[" +:+ name t +:+ " rejected]") (mark_done t w))) =
       doneCallback (this w)) ∧
  (∀ rec t e w w3,
     call_fn rec t (at_call t w) = Some (Threw e, w3) →
     let err := js_or e (VStr (name t +:+ " threw an exception")) in
     truthy err = true ∧
     runTask rec t w =
       Some (Normal (if Nat.eqb (fnval_length (fn t)) 0
                     then mark_done t (log ("[" +:+ name t +:+ " finished]")
                                         (stop err false w3))
                     else stop err false w3))) ∧
  (∀ rec n t l1 d l2 w,
     lookup_task n (tasks (this w)) = Some t →
     done t = false → running t = false →
     dep t = l1 ++ d :: l2 →
     Forall (λ x, ∃ td, lookup_task x (tasks (this w)) = Some td ∧ done td = true) l1 →
     lookup_task d (tasks (this w)) = None → prototype_member d = false →
     truthy (missing_msg t d) = true ∧
     scan_one rec n w = Some (Normal (stop (missing_msg t d) false w))) ∧
  (∀ fuel names notify w,
     length (tasks (this w)) < fuel →
     ∃ w', run fuel names notify w = Some (Normal w')).
Proof.
  split; [|split; [|split; [|split; [|split; [|split]]]]].
  - intros fuel w o ops w' H Hops Hall.
    destruct (runStep_steps _ _ _ H) as [e1 H1]. apply step_turn in H1.
    destruct (exec_all_turn _ _ _ _ Hops Hall) as [e2 H2].
    pose proof (turn_trans _ _ _ _ _ H1 H2) as [].
    exists (e1 ++ e2). split; [done|]. split.
    + intros pre e post E. rewrite E in turn_after_stop0.
      by apply quiet_after_stop_split in turn_after_stop0.
    + intros e rest E. rewrite E in *. split; [done|].
      intros c Hc. by rewrite Hc in turn_notified0.
  - intros err fin w. exists (stop_events err fin w).
    split; [apply stop_trace|].
    by rewrite stop_events_starts, stop_events_stops, stop_events_notified,
      stop_isRunning, stop_doneCallback.
  - intros fuel t err w Ht. unfold callback, cb. rewrite Ht. by rewrite log_this.
  - intros t err w. split; [done|]. split; [by apply truthy_js_or_message|].
    by rewrite log_this.
  - intros rec t e w w3 H err. split; [by apply truthy_js_or_message|].
    unfold runTask. fold (at_call t w). rewrite H. simpl.
    by destruct (Nat.eqb _ _).
  - intros rec n t l1 d l2 w Hl Hd Hr Hdep Hl1 Hmiss _. split.
    + done.
    + unfold scan_one, readyToRunTask. rewrite Hl, Hd, Hr, Hdep. simpl.
      by rewrite readyToRunTask_loop_missing.
  - apply run_returns.
Qed.

(** C3 as stated fails: the error of a failure is not delivered when a call
    of [stop] came before it.  An executor that signals success through its
    callback and then throws completes the run first: the pass made by the
    callback finds every task done and calls [stop] without an error, which
    hands [null] to the notifier and unregisters it; the exception is then
    caught and passed to [stop], which has no notifier left to give it
    to. *)
Lemma failure_after_success_not_delivered :
  let f := Build_executor 1 [VUndefined] (Throw (VError "boom")) in
  let w := world_of (add (Some "a") AUndefined (AFunction f) (Orchestrator false None [])) in
  ∃ w', run 2 ["a"] (Some 7) w = Some (Normal w') ∧
        starts (trace w') = ["a"] ∧
        stops (trace w') = [VNull; VError "boom"] ∧
        notified (trace w') = [(7, VNull)].
Proof. intros f w. eexists. split; [vm_compute; reflexivity|]. by vm_compute. Qed.

Lemma first_failure_aborts_run_witness :
  let fails := Build_executor 1 [VError "boom"] (Return RPlain) in
  let sync := Build_executor 0 [] (Return RPlain) in
  let a := Build_task "a" [] (FFunction fails) false false 0 in
  let w := Build_world
             (Build_orchestrator false (Some 7) ["a"; "b"; "c"]
                [a; Build_task "b" ["a"] (FFunction sync) false false 1;
                 Build_task "c" [] (FFunction sync) false false 2] true) 3 [] in
  ∃ o w' evs,
    runStep 3 w = Some o ∧
    exec_all 3 [OpCallback a VNull] (world_of o) = Some w' ∧
    trace w' = trace w ++ evs ∧
    starts evs = ["a"] ∧
    isRunning (this w') = false ∧
    notified evs = [(7, VError "boom")].
Proof.
  intros fails sync a w.
  destruct (runStep 3 w) as [o|] eqn:E; [|vm_compute in E; discriminate].
  destruct (exec_all 3 [OpCallback a VNull] (world_of o)) as [w'|] eqn:E'.
  2:{ vm_compute in E. injection E as <-. vm_compute in E'. discriminate. }
  destruct (proj1 first_failure_aborts_run 3 w o [OpCallback a VNull] w' E eq_refl E')
    as (evs & T & _ & N).
  assert (Hst : stops evs = [VError "boom"] ∧ starts evs = ["a"]).
  { vm_compute in E. injection E as <-. vm_compute in E'. injection E' as <-.
    simpl in T. unfold stops, starts. rewrite <- T. split; reflexivity. }
  destruct Hst as [Hst Hsta].
  destruct (N _ _ Hst) as [Hr Hn].
  exists o, w', evs. repeat split; try assumption.
  exact (Hn 7 eq_refl).
Defined.

(** * Further properties *)

(** ** The registry and [add] *)

Lemma store_task_unique t ts u :
  NoDup (map name ts) → u ∈ store_task t ts → name u = name t → u = t.
Proof.
  induction ts as [|v ts IH]; simpl.
  - by intros _ ->%list_elem_of_singleton.
  - intros [Hv Hnd]%NoDup_cons.
    destruct (String.eqb_spec (name v) (name t)) as [E|E].
    + intros [->|Hu]%elem_of_cons Hn; [done|]. exfalso. apply Hv.
      rewrite E, <- Hn. apply list_elem_of_fmap. by exists u.
    + intros [->|Hu]%elem_of_cons Hn; [done|]. by apply IH.
Qed.

Lemma store_task_NoDup t ts : NoDup (map name ts) → NoDup (map name (store_task t ts)).
Proof.
  intros Hnd. rewrite store_task_names.
  destruct (contains (name t) (map name ts)) eqn:E; [done|].
  apply contains_not_elem_of in E. apply NoDup_app. split; [done|].
  split; [|apply NoDup_singleton].
  by intros x Hx ->%list_elem_of_singleton.
Qed.

Lemma add_stored name_arg dep_arg fn_arg w w' :
  add name_arg dep_arg fn_arg w = Normal w' →
  ∃ t, name_truthy name_arg = Some (name t) ∧ tid t = fresh w ∧
       done t = false ∧ running t = false ∧
       this w' = this (set_tasks (store_task t (tasks (this w))) w) ∧
       fresh w' = S (fresh w) ∧ trace w' = trace w.
Proof.
  unfold add.
  destruct (arg_truthy fn_arg) as [fv|] eqn:Ef.
  - rewrite Ef. destruct (name_truthy name_arg) as [n|]; [|done].
    intros [= <-]. by eexists (Build_task n _ _ false false _).
  - destruct (arg_truthy dep_arg) as [dv|]; destruct (name_truthy name_arg) as [n|];
      try done.
    intros [= <-]. by eexists (Build_task n _ _ false false _).
Qed.

(** X1: a registry of plain keys keeps its names in the order of their
    first registration.  When the names registered so far and the name
    given to [add] are plain keys (written neither with digits only nor like
    a member of [Object.prototype]), a successful [add] under a name already
    registered leaves the order of the names as it is, and under a new name
    puts the name last; the names stay plain keys and no name is ever listed
    twice.  This is the order in which [run] without task names on an idle
    orchestrator requests the tasks. *)
Theorem add_keeps_registration_order (name_arg : option string) (dep_arg fn_arg : jsarg)
    (w w' : world) :
  Forall (λ m, plain_key m = true) (map name (tasks (this w))) →
  (∀ n, name_truthy name_arg = Some n → plain_key n = true) →
  add name_arg dep_arg fn_arg w = Normal w' →
  ∃ n, name_truthy name_arg = Some n ∧
       map name (tasks (this w')) =
         (if contains n (map name (tasks (this w))) then map name (tasks (this w))
          else map name (tasks (this w)) ++ [n]) ∧
       Forall (λ m, plain_key m = true) (map name (tasks (this w'))) ∧
       (NoDup (map name (tasks (this w))) → NoDup (map name (tasks (this w')))) ∧
       (isRunning (this w') = false → run_names [] w' = map name (tasks (this w'))).
Proof.
  intros Hplain Hkey (t & Hn & _ & _ & _ & Hthis & _)%add_stored.
  exists (name t). split; [done|].
  split; [|split; [|split]].
  - rewrite Hthis. apply store_task_names.
  - rewrite Hthis. wsimpl_goal. rewrite store_task_names.
    destruct (contains (name t) (map name (tasks (this w)))); [done|].
    apply Forall_app. split; [done|]. apply Forall_singleton. by apply Hkey.
  - rewrite Hthis. apply store_task_NoDup.
  - intros Hr. unfold run_names. by rewrite Hr.
Qed.

Lemma add_keeps_registration_order_witness :
  let f := AFunction (Build_executor 0 [] (Return RPlain)) in
  let w1 := world_of (add (Some "a") AUndefined f (Orchestrator false None [])) in
  let w2 := world_of (add (Some "b") AUndefined f w1) in
  let w3 := world_of (add (Some "a") (AArray ["b"]) f w2) in
  ∃ n, name_truthy (Some "a") = Some n ∧
       map name (tasks (this w3)) =
         (if contains n (map name (tasks (this w2))) then map name (tasks (this w2))
          else map name (tasks (this w2)) ++ [n]) ∧
       Forall (λ m, plain_key m = true) (map name (tasks (this w3))) ∧
       (NoDup (map name (tasks (this w2))) → NoDup (map name (tasks (this w3)))) ∧
       (isRunning (this w3) = false → run_names [] w3 = map name (tasks (this w3))).
Proof.
  intros f w1 w2 w3.
  apply (add_keeps_registration_order (Some "a") (AArray ["b"]) f w2).
  - repeat (apply Forall_cons; split; [reflexivity|]). by apply Forall_nil.
  - by intros n [= <-].
  - reflexivity.
Defined.

(** X2: a task object replaced by [add] is out of reach of the closures
    that captured it.  When a task is registered again under its name, a
    completion signal of the earlier object (created before, hence with an
    earlier identity) writes its flags to an object the registry no longer
    holds: the registry is left as it is, with the new task neither running
    nor done, and the rest of the handler runs as for any late signal. *)
Theorem replaced_task_ignores_old_signals (name_arg : option string)
    (dep_arg fn_arg : jsarg) (t : task) (w w' : world) :
  NoDup (map name (tasks (this w))) →
  add name_arg dep_arg fn_arg w = Normal w' →
  name_truthy name_arg = Some (name t) → tid t < fresh w →
  (∃ u, lookup_task (name t) (tasks (this w')) = Some u ∧
        done u = false ∧ running u = false ∧ tid u ≠ tid t) ∧
  mark_done t w' = w' ∧
  (∀ err, rejected t err w' =
          stop (js_or err (VStr (name t +:+ " promise rejected"))) false
            (log ("[" +:+ name t +:+ " rejected]") w')) ∧
  (∀ fuel, fulfilled fuel t w' =
           runStep fuel (log ("[" +:+ name t +:+ " resolved]") w')) ∧
  (∀ fuel err, callback fuel t err w' =
               if truthy err
               then Some (Normal (stop err false (log ("[" +:+ name t +:+ " calledback]") w')))
               else runStep fuel (log ("[" +:+ name t +:+ " calledback]") w')).
Proof.
  intros Hnd (u & Hn & Htid & Hd & Hr & Hthis & _)%add_stored Hname Hlt.
  assert (Hu : name u = name t) by congruence.
  assert (Hid : mark_done t w' = w').
  { apply mark_done_id. intros v Hv Hvn Hvt. exfalso.
    rewrite Hthis in Hv. wsimpl.
    assert (v = u) as -> by (apply (store_task_unique u (tasks (this w))); congruence).
    lia. }
  split.
  { exists u. rewrite Hthis. wsimpl_goal. rewrite <- Hu.
    split; [apply lookup_store_task_eq|]. repeat split; try done. lia. }
  split; [done|].
  unfold rejected, onRejected, fulfilled, onFulfilled, callback, cb. rewrite Hid.
  repeat split; done.
Qed.

Lemma replaced_task_ignores_old_signals_witness :
  let f := AFunction (Build_executor 1 [] (Return RPlain)) in
  let w := world_of (add (Some "a") AUndefined f (Orchestrator false None [])) in
  let t := Build_task "a" [] (FFunction (Build_executor 1 [] (Return RPlain))) true false 0 in
  mark_done t (world_of (add (Some "a") AUndefined f w)) =
  world_of (add (Some "a") AUndefined f w).
Proof.
  intros f w t.
  refine (proj1 (proj2 (replaced_task_ignores_old_signals (Some "a") AUndefined f t w
            (world_of (add (Some "a") AUndefined f w)) _ _ _ _))).
  - simpl. apply NoDup_singleton.
  - reflexivity.
  - reflexivity.
  - simpl. lia.
Defined.

(** X24: what [add] stores.  [add] throws, leaving the orchestrator as it
    is, when the name is absent or empty and when neither a second nor a
    third argument is given.  Given a non-empty name other than [__proto__]
    and a function as executor (the third argument together with a list of
    dependencies or nothing in the second place, or the second argument
    when there is no third), it does not throw: it stores a new task object
    with that name, the dependencies given (none by default) and the
    executor, neither running nor done, in place of any task of the same
    name, and changes nothing else. *)
Theorem add_throws_or_stores (name_arg : option string) (dep_arg fn_arg : jsarg)
    (w : world) :
  (name_truthy name_arg = None ∨ (dep_arg = AUndefined ∧ fn_arg = AUndefined) →
   ∃ e, add name_arg dep_arg fn_arg w = Thrown e w) ∧
  (∀ n f, name_truthy name_arg = Some n → n ≠ "__proto__" →
     executor_of dep_arg fn_arg = Some f →
     (fn_arg = AUndefined ∨ ∀ g, dep_arg ≠ AFunction g) →
     ∃ w', add name_arg dep_arg fn_arg w = Normal w' ∧
       lookup_task n (tasks (this w')) =
         Some {| name := n;
                 dep := match fn_arg, dep_arg with
                        | AFunction _, AArray l => l
                        | _, _ => []
                        end;
                 fn := FFunction f; running := false; done := false;
                 tid := fresh w |} ∧
       (∀ m, m ≠ n → lookup_task m (tasks (this w')) = lookup_task m (tasks (this w))) ∧
       verbose (this w') = verbose (this w) ∧
       doneCallback (this w') = doneCallback (this w) ∧
       seq (this w') = seq (this w) ∧
       isRunning (this w') = isRunning (this w) ∧
       trace w' = trace w).
Proof.
  split.
  - intros [Hn|[-> ->]]; unfold add.
    + destruct (arg_truthy fn_arg); rewrite Hn; eauto.
    + simpl. destruct (name_truthy name_arg); eauto.
  - intros n f Hn _ Hf Hdep. unfold add.
    destruct fn_arg as [|l|g]; simpl in *; [|done|].
    + destruct dep_arg as [|l|g]; simpl in *; try done. injection Hf as ->.
      rewrite Hn. eexists. split; [done|]. wsimpl.
      split; [apply (lookup_store_task_eq (Build_task n [] (FFunction f) false false (fresh w)))|].
      split; [|done]. intros m Hm. by apply lookup_store_task_ne.
    + injection Hf as ->. rewrite Hn.
      destruct Hdep as [Hu|Hdep]; [done|].
      destruct dep_arg as [|l|g']; [| |by destruct (Hdep g')];
        (eexists; split; [done|]; wsimpl; split;
         [apply (lookup_store_task_eq (Build_task n _ (FFunction f) false false (fresh w)))|];
         split; [|done]; intros m Hm; by apply lookup_store_task_ne).
Qed.

Lemma add_throws_or_stores_witness :
  (∃ e, add None AUndefined (AFunction (Build_executor 0 [] (Return RPlain)))
          (Orchestrator false None []) = Thrown e (Orchestrator false None [])) ∧
  (∃ w', add (Some "build") (AArray ["clean"])
           (AFunction (Build_executor 1 [] (Return RPlain)))
           (Orchestrator false None []) = Normal w' ∧
         lookup_task "build" (tasks (this w')) =
           Some (Build_task "build" ["clean"]
                   (FFunction (Build_executor 1 [] (Return RPlain))) false false 0)).
Proof.
  split.
  - apply (add_throws_or_stores None AUndefined
             (AFunction (Build_executor 0 [] (Return RPlain)))
             (Orchestrator false None [])).
    left. reflexivity.
  - destruct (add_throws_or_stores (Some "build") (AArray ["clean"])
                (AFunction (Build_executor 1 [] (Return RPlain)))
                (Orchestrator false None [])) as [_ H].
    destruct (H "build" (Build_executor 1 [] (Return RPlain)) eq_refl) as (w' & H1 & H2 & _).
    + discriminate.
    + reflexivity.
    + right. discriminate.
    + exists w'. split; [exact H1 | exact H2].
Defined.

(** ** [reset] *)


(** ** [allDone] and [_readyToRunTask] *)

Lemma allDone_loop_cases names ts :
  match allDone_loop names ts with
  | Some true => Forall (finished ts) names
  | Some false =>
      ∃ pre n post t, names = pre ++ n :: post ∧ Forall (finished ts) pre ∧
                      lookup_task n ts = Some t ∧ done t = false
  | None =>
      ∃ pre n post, names = pre ++ n :: post ∧ Forall (finished ts) pre ∧
                    lookup_task n ts = None
  end.
Proof.
  induction names as [|n names IH]; simpl; [by apply Forall_nil|].
  destruct (lookup_task n ts) as [t|] eqn:El.
  - destruct (done t) eqn:Ed.
    + assert (Hn : finished ts n) by (by exists t).
      destruct (allDone_loop names ts) as [[]|].
      * by apply Forall_cons.
      * destruct IH as (pre & m & post & u & -> & Hpre & Hm & Hu).
        exists (n :: pre), m, post, u. split; [done|]. split; [by apply Forall_cons|done].
      * destruct IH as (pre & m & post & -> & Hpre & Hm).
        exists (n :: pre), m, post. split; [done|]. split; [by apply Forall_cons|done].
    + exists [], n, names, t. split; [done|]. split; [by apply Forall_nil|done].
  - exists [], n, names. split; [done|]. split; [by apply Forall_nil|done].
Qed.

Lemma finished_split_false ts pre n post :
  Forall (finished ts) (pre ++ n :: post) → ¬ finished ts n → False.
Proof.
  intros H Hn. apply Hn. rewrite Forall_forall in H. apply H.
  apply elem_of_app. right. apply elem_of_cons. by left.
Qed.

Lemma first_unfinished_unique ts (pre pre' post post' : list string) n n' :
  pre ++ n :: post = pre' ++ n' :: post' →
  Forall (finished ts) pre → Forall (finished ts) pre' →
  ¬ finished ts n → ¬ finished ts n' → n = n'.
Proof.
  revert pre'. induction pre as [|x pre IH]; intros [|x' pre'] E Hp Hp' Hn Hn';
    simpl in E; injection E as E1 E2; subst.
  - done.
  - apply Forall_cons in Hp' as [Hx _]. by destruct Hn.
  - apply Forall_cons in Hp as [Hx _]. by destruct Hn'.
  - apply Forall_cons in Hp as [_ Hp]. apply Forall_cons in Hp' as [_ Hp'].
    by apply (IH pre').
Qed.

Lemma allDone_false_first w :
  allDone w = Some false →
  ∃ pre n post t, seq (this w) = pre ++ n :: post ∧
                  Forall (finished (tasks (this w))) pre ∧
                  lookup_task n (tasks (this w)) = Some t ∧ done t = false.
Proof.
  unfold allDone. intros E.
  pose proof (allDone_loop_cases (seq (this w)) (tasks (this w))) as H.
  by rewrite E in H.
Qed.

Lemma allDone_loop_true_iff w :
  Forall (finished (tasks (this w))) (seq (this w)) ↔ allDone w = Some true.
Proof.
  unfold allDone.
  pose proof (allDone_loop_cases (seq (this w)) (tasks (this w))) as H.
  split; [|by intros E; rewrite E in H].
  intros Hall. destruct (allDone_loop _ _) as [[]|]; [done| |].
  - destruct H as (pre & n & post & t & E & _ & Hl & Hd). rewrite E in Hall.
    destruct (finished_split_false _ _ _ _ Hall).
    intros (t' & Hl' & Hd'). congruence.
  - destruct H as (pre & n & post & E & _ & Hl). rewrite E in Hall.
    destruct (finished_split_false _ _ _ _ Hall).
    intros (t' & Hl' & _). congruence.
Qed.

(** X4: [allDone] answers [true] exactly when every name of the stored
    sequence has a registry entry that is marked done, so in particular for
    the empty sequence.  When no name of the sequence is the name of a
    member of [Object.prototype], it answers [false] exactly when the first
    name that is not such belongs to a task not yet done, and it fails
    (reading [done] of [undefined]) exactly when that name is not
    registered. *)
Theorem allDone_characterised (w : world) :
  (allDone w = Some true ↔ Forall (finished (tasks (this w))) (seq (this w))) ∧
  (seq (this w) = [] → allDone w = Some true) ∧
  ((∀ n, n ∈ seq (this w) → prototype_member n = false) →
   (allDone w = Some false ↔
    ∃ pre n post t, seq (this w) = pre ++ n :: post ∧
                    Forall (finished (tasks (this w))) pre ∧
                    lookup_task n (tasks (this w)) = Some t ∧ done t = false) ∧
   (allDone w = None ↔
    ∃ pre n post, seq (this w) = pre ++ n :: post ∧
                  Forall (finished (tasks (this w))) pre ∧
                  lookup_task n (tasks (this w)) = None)).
Proof.
  unfold allDone.
  pose proof (allDone_loop_cases (seq (this w)) (tasks (this w))) as H.
  assert (Hnot : ∀ n t, lookup_task n (tasks (this w)) = Some t → done t = false →
                        ¬ finished (tasks (this w)) n).
  { intros n t Hl Hd (t' & Hl' & Hd'). congruence. }
  assert (Hnone : ∀ n, lookup_task n (tasks (this w)) = None →
                       ¬ finished (tasks (this w)) n).
  { intros n Hl (t' & Hl' & _). congruence. }
  split; [|split; [|intros _; split]].
  - split; [by intros E; rewrite E in H|].
    intros Hall. destruct (allDone_loop _ _) as [[]|]; [done| |].
    + destruct H as (pre & n & post & t & E & _ & Hl & Hd). rewrite E in Hall.
      destruct (finished_split_false _ _ _ _ Hall (Hnot _ _ Hl Hd)).
    + destruct H as (pre & n & post & E & _ & Hl). rewrite E in Hall.
      destruct (finished_split_false _ _ _ _ Hall (Hnone _ Hl)).
  - by intros ->.
  - split; [by intros E; rewrite E in H|].
    intros (pre & n & post & t & E & Hpre & Hl & Hd).
    destruct (allDone_loop _ _) as [[]|]; [|done|].
    + rewrite E in H. destruct (finished_split_false _ _ _ _ H (Hnot _ _ Hl Hd)).
    + destruct H as (pre' & n' & post' & E' & Hpre' & Hl'). rewrite E in E'.
      assert (n = n') as <- by
        (eapply first_unfinished_unique; [exact E'|done|done|by eapply Hnot|by apply Hnone]).
      congruence.
  - split; [by intros E; rewrite E in H|].
    intros (pre & n & post & E & Hpre & Hl).
    destruct (allDone_loop _ _) as [[]|]; [| |done].
    + rewrite E in H. destruct (finished_split_false _ _ _ _ H (Hnone _ Hl)).
    + destruct H as (pre' & n' & post' & t' & E' & Hpre' & Hl' & Hd'). rewrite E in E'.
      assert (n = n') as <- by
        (eapply first_unfinished_unique; [exact E'|done|done|by apply Hnone|by eapply Hnot]).
      congruence.
Qed.

Lemma allDone_characterised_witness :
  let f := FFunction (Build_executor 0 [] (Return RPlain)) in
  let w := Build_world
             (Build_orchestrator false None ["a"; "b"]
                [Build_task "a" [] f false true 0;
                 Build_task "b" ["a"] f true false 1] true) 2 [] in
  ∃ pre n post t, seq (this w) = pre ++ n :: post ∧
                  Forall (finished (tasks (this w))) pre ∧
                  lookup_task n (tasks (this w)) = Some t ∧ done t = false.
Proof.
  intros f w.
  refine (proj1 (proj1 (proj2 (proj2 (allDone_characterised w)) _)) _).
  - intros n Hn. repeat (apply elem_of_cons in Hn as [->|Hn]; [reflexivity|]).
    by apply elem_of_nil in Hn.
  - reflexivity.
Defined.

Lemma readyToRunTask_loop_cases t deps w :
  (readyToRunTask_loop t deps w = (true, w) ∧ Forall (finished (tasks (this w))) deps) ∨
  (∃ l1 d l2 td, deps = l1 ++ d :: l2 ∧ Forall (finished (tasks (this w))) l1 ∧
                 lookup_task d (tasks (this w)) = Some td ∧ done td = false ∧
                 readyToRunTask_loop t deps w = (false, w)) ∨
  (∃ l1 d l2, deps = l1 ++ d :: l2 ∧ Forall (finished (tasks (this w))) l1 ∧
              lookup_task d (tasks (this w)) = None ∧
              readyToRunTask_loop t deps w = (false, stop (missing_msg t d) false w)).
Proof.
  induction deps as [|d deps IH]; simpl; [left; split; [done|by apply Forall_nil]|].
  destruct (lookup_task d (tasks (this w))) as [td|] eqn:El.
  - destruct (done td) eqn:Ed.
    + assert (Hd : finished (tasks (this w)) d) by (by exists td).
      destruct IH as [[E H]|[(l1 & x & l2 & tx & -> & H1 & Hx & Hxd & E)|
                              (l1 & x & l2 & -> & H1 & Hx & E)]].
      * left. split; [done|by apply Forall_cons].
      * right; left. exists (d :: l1), x, l2, tx.
        split; [done|]. split; [by apply Forall_cons|done].
      * right; right. exists (d :: l1), x, l2.
        split; [done|]. split; [by apply Forall_cons|done].
    + right; left. exists [], d, deps, td. split; [done|]. split; [by apply Forall_nil|done].
  - right; right. exists [], d, deps. split; [done|]. split; [by apply Forall_nil|done].
Qed.

(** X5: [_readyToRunTask] answers [true] exactly when every dependency of
    the task has a registry entry that is marked done; a task without
    dependencies is always ready.  With every dependency registered the
    check changes nothing.  When no dependency bears the name of a member
    of [Object.prototype], the check changes the orchestrator in one case
    only: when the first dependency that is not done turns out not to be
    registered, it calls [stop] with a message naming the task and the
    dependency, and answers [false]. *)
Theorem readyToRunTask_characterised (t : task) (w : world) :
  (fst (readyToRunTask t w) = true ↔ Forall (finished (tasks (this w))) (dep t)) ∧
  (dep t = [] → readyToRunTask t w = (true, w)) ∧
  ((∀ d, d ∈ dep t → registered (tasks (this w)) d) → snd (readyToRunTask t w) = w) ∧
  ((∀ d, d ∈ dep t → prototype_member d = false) →
   snd (readyToRunTask t w) = w ∨
   ∃ l1 d l2, dep t = l1 ++ d :: l2 ∧ Forall (finished (tasks (this w))) l1 ∧
              lookup_task d (tasks (this w)) = None ∧
              readyToRunTask t w = (false, stop (missing_msg t d) false w)).
Proof.
  unfold readyToRunTask.
  destruct (readyToRunTask_loop_cases t (dep t) w)
    as [[E H]|[(l1 & x & l2 & tx & Hdep & H1 & Hx & Hxd & E)|
               (l1 & x & l2 & Hdep & H1 & Hx & E)]]; rewrite E; simpl.
  - repeat split; try done. intros _. by left.
  - assert (Hnot : ¬ Forall (finished (tasks (this w))) (dep t)).
    { rewrite Hdep. intros H. apply (finished_split_false _ _ _ _ H).
      intros (t' & Hl' & Hd'). congruence. }
    split; [split; [done|by intros ?]|]. split; [|split; [done|intros _; by left]].
    intros Hnil. rewrite Hnil in Hdep. by destruct l1.
  - assert (Hnot : ¬ Forall (finished (tasks (this w))) (dep t)).
    { rewrite Hdep. intros H. apply (finished_split_false _ _ _ _ H).
      intros (t' & Hl' & Hd'). congruence. }
    split; [split; [done|by intros ?]|]. split; [|split].
    + intros Hnil. rewrite Hnil in Hdep. by destruct l1.
    + intros Hreg. destruct (Hreg x) as [tx Htx]; [|congruence].
      rewrite Hdep. apply elem_of_app. right. apply elem_of_cons. by left.
    + intros _. right. by exists l1, x, l2.
Qed.

Lemma readyToRunTask_characterised_witness :
  let f := FFunction (Build_executor 0 [] (Return RPlain)) in
  let t := Build_task "c" ["a"; "b"] f false false 2 in
  let w := Build_world
             (Build_orchestrator false None ["a"; "c"]
                [Build_task "a" [] f false true 0; t] true) 3 [] in
  snd (readyToRunTask t w) = w ∨
  ∃ l1 d l2, dep t = l1 ++ d :: l2 ∧ Forall (finished (tasks (this w))) l1 ∧
             lookup_task d (tasks (this w)) = None ∧
             readyToRunTask t w = (false, stop (missing_msg t d) false w).
Proof.
  intros f t w.
  apply (proj2 (proj2 (proj2 (readyToRunTask_characterised t w)))).
  intros d Hd. repeat (apply elem_of_cons in Hd as [->|Hd]; [reflexivity|]).
  by apply elem_of_nil in Hd.
Defined.

(** ** Termination *)

(** X6: a scheduling pass always comes to an end.  A completion handler
    that runs while its executor is still being called makes a pass of its
    own inside the pass that started the task; every such pass has at least
    one task fewer that is neither running nor done, so the passes are
    nested at most one deeper than the number of those tasks, and the result
    of the pass does not depend on any bound allowing that depth. *)
Theorem runStep_terminates (fuel : nat) (w : world) :
  unstarted (tasks (this w)) < fuel →
  ∃ o, runStep fuel w = Some o ∧ ∀ fuel', fuel ≤ fuel' → runStep fuel' w = Some o.
Proof.
  intros H. destruct (runStep_total fuel w H) as [o Ho].
  exists o. split; [done|]. intros fuel' Hle. by apply (runStep_mono fuel).
Qed.

Lemma runStep_terminates_witness :
  let signal := FFunction (Build_executor 1 [VUndefined] (Return RPlain)) in
  let w := Build_world
             (Build_orchestrator false None ["a"; "b"]
                [Build_task "a" [] signal false false 0;
                 Build_task "b" ["a"] signal false false 1] true) 2 [] in
  ∃ o, runStep 3 w = Some o ∧ ∀ fuel', 3 ≤ fuel' → runStep fuel' w = Some o.
Proof.
  intros signal w. apply (runStep_terminates 3 w). vm_compute. lia.
Defined.

(** ** No executor is invoked twice *)

Lemma started_le r r' n : Forall2 task_le r r' → started r n → started r' n.
Proof.
  intros Hle (t & Hl & Hs).
  destruct (tasks_le_lookup _ _ _ _ Hle Hl) as (t' & Hl' & Ht').
  exists t'. split; [done|]. destruct Ht' as (_ & _ & _ & _ & _ & H). auto.
Qed.

Lemma eligible_not_started r n : eligible r n → ¬ started r n.
Proof.
  intros (t & Hl & Hd & Hr & _) (t' & Hl' & Hs).
  assert (t' = t) as -> by congruence. by rewrite Hd, Hr in Hs.
Qed.

Lemma started_elem_of n r evs : Started n r ∈ evs → n ∈ starts evs.
Proof. intros H. apply list_elem_of_omap. by exists (Started n r). Qed.

Lemma elem_of_starts n evs : n ∈ starts evs → ∃ r, Started n r ∈ evs.
Proof.
  intros (e & He & Hn)%list_elem_of_omap. destruct e; try done.
  injection Hn as ->. by eexists.
Qed.

Lemma tasks_le_trans r1 r2 r3 :
  Forall2 task_le r1 r2 → Forall2 task_le r2 r3 → Forall2 task_le r1 r3.
Proof. intros H1 H2. eapply Forall2_trans; [|exact H1|exact H2]. intros ???; apply task_le_trans. Qed.

Lemma once_refl w : once w w.
Proof.
  exists []. rewrite app_nil_r. split; [done|]. split; [apply tasks_le_refl|].
  split; [by intros ? ? ?%elem_of_nil|]. split; [apply NoDup_nil_2|].
  split; [by intros ? ?%elem_of_nil|by intros ? ? ?%elem_of_nil].
Qed.

Lemma once_trans w1 w2 w3 : once w1 w2 → once w2 w3 → once w1 w3.
Proof.
  intros (e1 & Ht1 & Hle1 & He1 & Hnd1 & Hs1 & Hr1) (e2 & Ht2 & Hle2 & He2 & Hnd2 & Hs2 & Hr2).
  exists (e1 ++ e2). split; [by rewrite Ht2, Ht1, app_assoc|].
  split; [by eapply tasks_le_trans|].
  split. { intros n r [H|H]%elem_of_app; [by apply He1|by apply He2]. }
  split.
  { unfold starts. rewrite omap_app. apply NoDup_app. split; [done|]. split; [|done].
    intros n Hn1 Hn2. apply elem_of_starts in Hn2 as [r Hr].
    apply (eligible_not_started r n); [by apply He2|].
    eapply started_le; [by eapply Hr2|by apply Hs1]. }
  split.
  - unfold starts. rewrite omap_app. intros n [H|H]%elem_of_app.
    + eapply started_le; [done|by apply Hs1].
    + by apply Hs2.
  - intros n r [H|H]%elem_of_app; [by eapply Hr1|].
    eapply tasks_le_trans; [done|by eapply Hr2].
Qed.

Lemma once_quiet X w evs w' : step X w evs w' → starts evs = [] → once w w'.
Proof.
  intros H Hs. exists evs. split; [apply H|]. split; [apply H|].
  assert (Hno : ∀ n r, Started n r ∈ evs → False).
  { intros n r Hin%started_elem_of. rewrite Hs in Hin. by apply elem_of_nil in Hin. }
  split; [intros n r Hin; destruct (Hno n r Hin)|]. rewrite Hs.
  split; [apply NoDup_nil_2|].
  split; [by intros ? ?%elem_of_nil|intros n r Hin; destruct (Hno n r Hin)].
Qed.

Lemma once_mark_done t w : once w (mark_done t w).
Proof.
  apply (once_quiet [name t] w []); [|done].
  apply step_mark_done, list_elem_of_singleton; done.
Qed.

Lemma once_log line w : once w (log line w).
Proof. destruct (step_log [] line w) as (evs & H & Hs & _). by eapply once_quiet. Qed.

Lemma once_stop err b w : once w (stop err b w).
Proof. destruct (step_stop [] err b w) as (evs & H & Hs & _). by eapply once_quiet. Qed.

Lemma once_at_call t w :
  lookup_task (name t) (tasks (this w)) = Some t →
  eligible (tasks (this w)) (name t) → once w (at_call t w).
Proof.
  intros Hl He.
  exists ((if verbose (this w) then [Console ("[" +:+ name t +:+ " started]")] else [])
          ++ [Started (name t) (tasks (this w))]).
  assert (Hst : starts ((if verbose (this w)
                         then [Console ("[" +:+ name t +:+ " started]")] else [])
                        ++ [Started (name t) (tasks (this w))]) = [name t])
    by (by destruct (verbose (this w))).
  assert (Hin : ∀ n r,
    Started n r ∈ (if verbose (this w)
                   then [Console ("[" +:+ name t +:+ " started]")] else [])
                  ++ [Started (name t) (tasks (this w))] →
    n = name t ∧ r = tasks (this w)).
  { intros n r [H|H]%elem_of_app.
    - destruct (verbose (this w)); [|by apply elem_of_nil in H].
      by apply list_elem_of_singleton in H.
    - apply list_elem_of_singleton in H. by injection H as -> ->. }
  split; [by rewrite at_call_trace, app_assoc|].
  split.
  { unfold at_call. wsimpl_goal. rewrite log_this. apply tasks_le_write_flags.
    intros u. unfold task_le, set_flags. simpl. repeat split; try done.
    intros _. by rewrite orb_true_r. }
  split; [by intros n r [-> ->]%Hin|]. rewrite Hst.
  split; [apply NoDup_singleton|]. split.
  - intros n ->%list_elem_of_singleton. eexists. split; [by apply at_call_lookup|].
    simpl. by rewrite orb_true_r.
  - intros n r [-> ->]%Hin. apply tasks_le_refl.
Qed.

Section SchedulerOnce.
Variable rec : world → option outcome.
Hypothesis rec_once : ∀ w o, rec w = Some o → once w (world_of o).

Lemma cb_once t err w o : cb rec t err w = Some o → once w (world_of o).
Proof.
  unfold cb. intros H.
  eapply once_trans; [apply once_mark_done|].
  eapply once_trans; [apply once_log|].
  destruct (truthy err).
  - injection H as <-. apply once_stop.
  - by apply rec_once.
Qed.

Lemma call_body_once t calls w o :
  call_body rec t calls w = Some o → once w (world_of o).
Proof.
  revert w. induction calls as [|v calls IH]; simpl; intros w H.
  - injection H as <-. apply once_refl.
  - destruct (cb rec t v w) as [[w'|e w']|] eqn:E; [|injection H as <-|done].
    + eapply once_trans; [by eapply cb_once|]. by apply IH.
    + by eapply cb_once.
Qed.

Lemma call_fn_once t w e w' : call_fn rec t w = Some (e, w') → once w w'.
Proof.
  unfold call_fn. destruct (fn t) as [l|f].
  - intros [= <- <-]. apply once_refl.
  - destruct (call_body rec t (fn_calls f) w) as [[w1|e1 w1]|] eqn:E; [| |done];
      intros [= <- <-]; by apply call_body_once in E.
Qed.

Lemma onFulfilled_once t w o : onFulfilled rec t w = Some o → once w (world_of o).
Proof.
  unfold onFulfilled. intros H.
  eapply once_trans; [apply once_mark_done|].
  eapply once_trans; [apply once_log|]. by apply rec_once.
Qed.

Lemma onRejected_once t err w : once w (onRejected t err w).
Proof.
  unfold onRejected.
  eapply once_trans; [apply once_mark_done|].
  eapply once_trans; [apply once_log|]. apply once_stop.
Qed.

Lemma register_handlers_once t settles w o :
  register_handlers rec t settles w = Some o → once w (world_of o).
Proof.
  revert w. induction settles as [|s settles IH]; simpl; intros w H.
  - injection H as <-. apply once_refl.
  - destruct s as [|e].
    + destruct (onFulfilled rec t w) as [[w'|e' w']|] eqn:E; [|injection H as <-|done].
      * eapply once_trans; [by eapply onFulfilled_once|]. by apply IH.
      * by eapply onFulfilled_once.
    + eapply once_trans; [apply onRejected_once|]. by apply IH.
Qed.

Lemma runTask_once t w o :
  lookup_task (name t) (tasks (this w)) = Some t →
  eligible (tasks (this w)) (name t) →
  runTask rec t w = Some o → once w (world_of o).
Proof.
  intros Hl He H. eapply once_trans; [by apply once_at_call|].
  unfold runTask in H. fold (at_call t w) in H.
  destruct (call_fn rec t (at_call t w)) as [[e w3]|] eqn:Ecall; [|done].
  eapply once_trans; [by eapply call_fn_once|].
  destruct e as [err|[|settles]].
  - eapply once_trans; [apply once_stop|].
    destruct (Nat.eqb (fnval_length (fn t)) 0); injection H as <-; simpl.
    + eapply once_trans; [apply once_log|apply once_mark_done].
    + apply once_refl.
  - destruct (Nat.eqb (fnval_length (fn t)) 0); injection H as <-; simpl.
    + eapply once_trans; [apply once_log|apply once_mark_done].
    + apply once_refl.
  - by eapply register_handlers_once.
Qed.

Lemma scan_one_once n w o : scan_one rec n w = Some o → once w (world_of o).
Proof.
  unfold scan_one. intros H.
  destruct (lookup_task n (tasks (this w))) as [t|] eqn:E.
  2:{ injection H as <-. apply once_refl. }
  destruct (negb (done t) && negb (running t)) eqn:Ef.
  2:{ injection H as <-. apply once_refl. }
  apply andb_true_iff in Ef as [Hd Hru]. apply negb_true_iff in Hd, Hru.
  destruct (readyToRunTask t w) as [ready w1] eqn:Er. unfold readyToRunTask in Er.
  destruct ready.
  - apply readyToRunTask_loop_true in Er as [-> Hdeps].
    pose proof (lookup_task_name _ _ _ E) as Hn.
    apply (runTask_once t); [by rewrite Hn| |done].
    rewrite Hn. by exists t.
  - injection H as <-. simpl.
    destruct (readyToRunTask_loop_false [] _ _ _ _ Er) as (evs & Hs & Hq).
    by eapply once_quiet.
Qed.

Lemma scan_once names w o : scan rec names w = Some o → once w (world_of o).
Proof.
  revert w. induction names as [|n names IH]; simpl; intros w H.
  - destruct (allDone w) as [[|]|]; injection H as <-; simpl;
      [apply once_stop | apply once_refl | apply once_refl].
  - destruct (scan_one rec n w) as [[w'|e w']|] eqn:E; [|injection H as <-|done].
    + apply scan_one_once in E. simpl in E.
      eapply once_trans; [done|].
      destruct (isRunning (this w')) eqn:Hr'.
      * by apply IH.
      * injection H as <-. apply once_refl.
    + by apply scan_one_once in E.
Qed.
End SchedulerOnce.

Lemma runStep_once fuel w o : runStep fuel w = Some o → once w (world_of o).
Proof.
  revert w o. induction fuel as [|fuel IH]; simpl; intros w o H; [done|].
  destruct (isRunning (this w)) eqn:Hr.
  - eapply scan_once; eauto.
  - injection H as <-. apply once_refl.
Qed.

Lemma once_fields w w' evs :
  trace w' = trace w ++ evs → starts evs = [] → tasks (this w') = tasks (this w) →
  once w w'.
Proof.
  intros Ht Hs Hts. exists evs. split; [done|]. rewrite Hts. split; [apply tasks_le_refl|].
  assert (Hno : ∀ n r, Started n r ∈ evs → False).
  { intros n r Hin%started_elem_of. rewrite Hs in Hin. by apply elem_of_nil in Hin. }
  split; [intros n r Hin; destruct (Hno n r Hin)|]. rewrite Hs.
  split; [apply NoDup_nil_2|].
  split; [by intros ? ?%elem_of_nil|intros n r Hin; destruct (Hno n r Hin)].
Qed.

Lemma run_once fuel names notify w r :
  run fuel names notify w = Some r → once w (world_of r).
Proof.
  intros (s & w1 & Hc & H)%run_cases.
  destruct (with_notifier_fields notify w) as (Ht0 & _ & _ & _ & _ & Htr0 & _).
  apply (once_trans _ (with_notifier notify w)).
  { apply (once_fields w (with_notifier notify w) []); [by rewrite app_nil_r|done..]. }
  apply (once_trans _ w1).
  { apply sequence_call_cases in Hc as [[_ ->]|(e & _ & _ & ->)];
      [apply once_refl|apply once_stop]. }
  destruct (prepared_fields s w1) as (_ & _ & Ht & _ & _ & _ & evs & Htr & Hst & _).
  apply (once_trans _ (prepared s w1)); [by eapply once_fields|]. by eapply runStep_once.
Qed.

Lemma exec_once fuel o w r :
  keeps_registry o = true → exec fuel o w = Some r → once w (world_of r).
Proof.
  destruct o as [n d f|names notify|err fin| |t err|t|t err]; simpl; try done; intros _ H.
  - by eapply run_once.
  - injection H as <-. apply once_stop.
  - eapply cb_once; [|exact H]. apply runStep_once.
  - eapply onFulfilled_once; [|exact H]. apply runStep_once.
  - injection H as <-. apply onRejected_once.
Qed.

Lemma exec_all_once fuel ops w w' :
  forallb keeps_registry ops = true → exec_all fuel ops w = Some w' → once w w'.
Proof.
  revert w. induction ops as [|o ops IH]; simpl; intros w Hk H.
  - injection H as <-. apply once_refl.
  - apply andb_true_iff in Hk as [Ho Hk].
    destruct (exec fuel o w) as [r|] eqn:E; [|done].
    eapply once_trans; [by eapply exec_once|by apply IH].
Qed.

(** X7: no executor is invoked twice.  Over any sequence of calls of [run]
    and [stop] and of completion signals, as long as no task is registered
    anew by [add] and the registry is not emptied by [reset], every task
    name occurs at most once among the executor invocations; a task whose
    executor is invoked was neither running nor done before, and is running
    or done afterwards. *)
Theorem executors_run_at_most_once (fuel : nat) (ops : list op) (w w' : world) :
  forallb keeps_registry ops = true →
  exec_all fuel ops w = Some w' →
  ∃ evs, trace w' = trace w ++ evs ∧
         NoDup (starts evs) ∧
         ∀ n, n ∈ starts evs →
              ¬ started (tasks (this w)) n ∧ started (tasks (this w')) n.
Proof.
  intros Hk H.
  destruct (exec_all_once _ _ _ _ Hk H) as (evs & Htr & Hle & He & Hnd & Hs & Hr).
  exists evs. split; [done|]. split; [done|].
  intros n Hn. split; [|by apply Hs].
  destruct (elem_of_starts _ _ Hn) as [r Hin]. intros Hw.
  apply (eligible_not_started r n); [by apply He|].
  eapply started_le; [by eapply Hr|done].
Qed.

Lemma executors_run_at_most_once_witness :
  let wait := FFunction (Build_executor 1 [] (Return RPlain)) in
  let a := Build_task "a" [] wait false false 0 in
  let w := Build_world
             (Build_orchestrator false None []
                [a; Build_task "b" ["a"] wait false false 1] false) 2 [] in
  let ops := [OpRun ["b"] (Some 5); OpRun ["a"] None; OpCallback a VNull;
              OpRun ["a"; "b"] None] in
  ∃ w' evs, exec_all 3 ops w = Some w' ∧ trace w' = trace w ++ evs ∧
            NoDup (starts evs).
Proof.
  intros wait a w ops.
  assert (E : exec_all 3 ops w = Some (default w (exec_all 3 ops w)))
    by (vm_compute; reflexivity).
  destruct (executors_run_at_most_once 3 ops w _ eq_refl E) as (evs & Htr & Hnd & _).
  by exists (default w (exec_all 3 ops w)), evs.
Defined.

(** X8: apart from [add] and [reset], nothing changes which task objects
    the registry holds or what they are made of.  Over any sequence of
    calls of [run] and [stop] and of completion signals the registry keeps
    its names in their order, every task keeps its dependencies, its
    executor and its identity, a task that is done stays done, and a task
    that is running or done stays running or done. *)
Theorem tasks_only_progress (fuel : nat) (ops : list op) (w w' : world) :
  forallb keeps_registry ops = true →
  exec_all fuel ops w = Some w' →
  map name (tasks (this w')) = map name (tasks (this w)) ∧
  ∀ n t, lookup_task n (tasks (this w)) = Some t →
         ∃ t', lookup_task n (tasks (this w')) = Some t' ∧
               dep t' = dep t ∧ fn t' = fn t ∧ tid t' = tid t ∧
               (done t = true → done t' = true) ∧
               (done t || running t = true → done t' || running t' = true).
Proof.
  intros Hk H.
  destruct (exec_all_once _ _ _ _ Hk H) as (evs & _ & Hle & _).
  split; [by apply tasks_le_names|].
  intros n t Hl. destruct (tasks_le_lookup _ _ _ _ Hle Hl) as (t' & Hl' & Ht').
  exists t'. split; [done|]. by destruct Ht' as (_ & ? & ? & ? & ? & ?).
Qed.

Lemma tasks_only_progress_witness :
  let wait := FFunction (Build_executor 1 [] (Return RPlain)) in
  let a := Build_task "a" [] wait false false 0 in
  let w := Build_world
             (Build_orchestrator false None []
                [a; Build_task "b" ["a"] wait false false 1] false) 2 [] in
  let ops := [OpRun ["b"] (Some 5); OpCallback a (VError "failed"); OpStop VNull false] in
  ∃ w', exec_all 3 ops w = Some w' ∧
        map name (tasks (this w')) = map name (tasks (this w)).
Proof.
  intros wait a w ops.
  assert (E : exec_all 3 ops w = Some (default w (exec_all 3 ops w)))
    by (vm_compute; reflexivity).
  exists (default w (exec_all 3 ops w)). split; [done|].
  exact (proj1 (tasks_only_progress 3 ops w _ eq_refl E)).
Defined.

(** ** A pass over synchronous tasks *)

Lemma filter_ext_elem {A} (P Q : A → Prop) `{∀ x, Decision (P x)} `{∀ x, Decision (Q x)}
    (l : list A) :
  (∀ x, x ∈ l → (P x ↔ Q x)) → filter P l = filter Q l.
Proof.
  induction l as [|x l IH]; intros Hext; [done|].
  rewrite !filter_cons.
  assert (Hx : P x ↔ Q x) by (apply Hext, elem_of_cons; by left).
  rewrite IH by (intros y Hy; apply Hext, elem_of_cons; by right).
  destruct (decide (P x)), (decide (Q x)); tauto.
Qed.

Lemma runTask_sync rec t w :
  lookup_task (name t) (tasks (this w)) = Some t → plain_sync t →
  ∃ w1 evs,
    runTask rec t w = Some (Normal w1) ∧
    trace w1 = trace w ++ evs ∧ starts evs = [name t] ∧ stops evs = [] ∧
    notified evs = [] ∧
    isRunning (this w1) = isRunning (this w) ∧ seq (this w1) = seq (this w) ∧
    doneCallback (this w1) = doneCallback (this w) ∧
    finished (tasks (this w1)) (name t) ∧
    (∀ m, m ≠ name t → lookup_task m (tasks (this w1)) = lookup_task m (tasks (this w))).
Proof.
  intros Hl (f & Hf & Hlen & Hcalls & Hend).
  rewrite (runTask_no_calls rec t f w Hf Hcalls), Hend, Hlen. simpl.
  destruct (at_call_fields t w) as (Hv & Hdc & Hsq & Hr).
  set (w1 := log ("[" +:+ name t +:+ " finished]") (at_call t w)).
  assert (Hthis : this w1 = this (at_call t w)) by apply log_this.
  eexists _, _. split; [done|].
  split.
  { change (trace (mark_done t w1)) with (trace w1). subst w1.
    rewrite log_trace, at_call_trace, Hv, <- !app_assoc. done. }
  split; [by destruct (verbose (this w))|].
  split; [by destruct (verbose (this w))|].
  split; [by destruct (verbose (this w))|].
  change (isRunning (this (mark_done t w1))) with (isRunning (this w1)).
  change (seq (this (mark_done t w1))) with (seq (this w1)).
  change (doneCallback (this (mark_done t w1))) with (doneCallback (this w1)).
  rewrite Hthis. repeat split; try done.
  - exists (set_flags false true (set_flags true (done t) t)). split; [|done].
    apply mark_done_lookup; [|done].
    rewrite Hthis. by apply at_call_lookup.
  - intros m Hm. unfold mark_done. wsimpl_goal.
    rewrite lookup_write_flags_ne by done. rewrite Hthis.
    unfold at_call. wsimpl_goal. rewrite lookup_write_flags_ne by done.
    by rewrite log_this.
Qed.

Lemma scan_sync rec names : ∀ pre w,
  seq (this w) = pre ++ names → NoDup (pre ++ names) → isRunning (this w) = true →
  Forall (finished (tasks (this w))) pre →
  (∀ l1 n l2, names = l1 ++ n :: l2 →
     ∃ t, lookup_task n (tasks (this w)) = Some t ∧ plain_sync t ∧ running t = false ∧
          ∀ d, d ∈ dep t → d ∈ pre ++ l1) →
  ∃ w' evs,
    scan rec names w = Some (Normal w') ∧ trace w' = trace w ++ evs ∧
    starts evs = filter (λ n, pending (tasks (this w)) n = true) names ∧
    stops evs = [VNull] ∧
    notified evs =
      match doneCallback (this w) with Some c => [(c, VNull)] | None => [] end ∧
    isRunning (this w') = false ∧
    Forall (finished (tasks (this w'))) (pre ++ names).
Proof.
  induction names as [|n names IH]; intros pre w Hseq Hnd Hr Hpre Htasks.
  - rewrite app_nil_r in *. simpl.
    assert (Hall : allDone w = Some true).
    { apply (proj1 (allDone_loop_true_iff w)). by rewrite Hseq. }
    rewrite Hall. exists (stop VNull true w), (stop_events VNull true w).
    split; [done|]. split; [apply stop_trace|].
    rewrite stop_events_starts, stop_events_stops, stop_events_notified, stop_isRunning,
      stop_tasks.
    done.
  - destruct (Htasks [] n names eq_refl) as (t & Hl & Hsync & Hrun & Hdeps).
    rewrite app_nil_r in Hdeps.
    pose proof (lookup_task_name _ _ _ Hl) as Hn.
    assert (Hni : (n ∉ pre) ∧ (n ∉ names)).
    { apply NoDup_app in Hnd as (_ & Hdis & [Hnn _]%NoDup_cons).
      split; [|done]. intros Hin. apply (Hdis n Hin). apply elem_of_cons. by left. }
    destruct Hni as [Hnpre Hnnames].
    assert (Hsplit : ∀ l1 m l2, names = l1 ++ m :: l2 → m ≠ n).
    { intros l1 m l2 -> ->. apply Hnnames, elem_of_app. right. apply elem_of_cons. by left. }
    simpl. unfold scan_one. rewrite Hl, Hrun. simpl.
    destruct (done t) eqn:Hd; simpl.
    + rewrite Hr.
      destruct (IH (pre ++ [n]) w) as (w' & evs & Hscan & Htr & Hst & Hsp & Hno & Hr' & Hfin).
      * by rewrite <- app_assoc.
      * by rewrite <- app_assoc.
      * done.
      * apply Forall_app. split; [done|]. apply Forall_singleton. by exists t.
      * intros l1 m l2 E. destruct (Htasks (n :: l1) m l2) as (u & Hu & Hus & Hur & Hud).
        { by rewrite E. }
        exists u. repeat split; try done. intros d Hdd. rewrite <- app_assoc. by apply Hud.
      * exists w', evs. rewrite <- app_assoc in Hfin. repeat split; try done.
        assert (Hp : pending (tasks (this w)) n = false)
          by (unfold pending; by rewrite Hl, Hd).
        rewrite filter_cons. destruct (decide _) as [Hq|Hq]; [congruence|done].
    + assert (Hready : readyToRunTask t w = (true, w)).
      { apply readyToRunTask_loop_complete. apply Forall_forall. intros d Hdd.
        rewrite Forall_forall in Hpre. by apply Hpre, Hdeps. }
      rewrite Hready.
      destruct (runTask_sync rec t w) as
        (w1 & e1 & -> & Htr1 & Hst1 & Hsp1 & Hno1 & Hr1 & Hsq1 & Hdc1 & Hfin1 & Hoth);
        [by rewrite Hn|done|].
      rewrite Hr1, Hr. rewrite Hn in *.
      assert (Hsame : ∀ m, m ≠ n → finished (tasks (this w)) m → finished (tasks (this w1)) m).
      { intros m Hm (u & Hu & Hud). exists u. by rewrite Hoth. }
      destruct (IH (pre ++ [n]) w1) as (w' & evs & Hscan & Htr & Hst & Hsp & Hno & Hr' & Hfin).
      * by rewrite Hsq1, <- app_assoc.
      * by rewrite <- app_assoc.
      * by rewrite Hr1.
      * apply Forall_app. split; [|by apply Forall_singleton].
        rewrite Forall_forall in Hpre. apply Forall_forall. intros m Hm.
        apply Hsame; [|by apply Hpre]. by intros ->.
      * intros l1 m l2 E. destruct (Htasks (n :: l1) m l2) as (u & Hu & Hus & Hur & Hud).
        { by rewrite E. }
        exists u. rewrite Hoth by (by eapply Hsplit).
        repeat split; try done. intros d Hdd. rewrite <- app_assoc. by apply Hud.
      * exists w', (e1 ++ evs). rewrite <- app_assoc in Hfin.
        split; [done|]. split; [by rewrite Htr, Htr1, app_assoc|].
        unfold starts, stops, notified in *. rewrite !omap_app, Hst1, Hsp1, Hno1, Hst, Hsp, Hno.
        rewrite Hdc1. repeat split; try done.
        assert (Hp : pending (tasks (this w)) n = true)
          by (unfold pending; by rewrite Hl, Hd).
        rewrite filter_cons. destruct (decide _) as [Hq|Hq]; [|done]. f_equal.
        apply filter_ext_elem. intros m Hm. unfold pending.
        rewrite Hoth; [done|]. by intros ->.
Qed.

(** X9: a pass over synchronous tasks runs the whole sequence.  When the
    stored sequence lists registered tasks once each with every dependency
    ahead of its dependent, and each of these tasks is not running and has
    an executor that declares no parameter, does not call the completion
    callback, returns no deferred handle and does not throw, then one call
    of [_runStep] on a running orchestrator invokes the executors of exactly
    the tasks not yet done, once each and in the order of the sequence,
    leaves every task of the sequence done, and ends the run with one call
    of [stop] without an error, which hands [null] to the notifier. *)
Theorem sync_pass_runs_everything (fuel : nat) (w : world) :
  isRunning (this w) = true →
  sequenced (tasks (this w)) (seq (this w)) →
  (∀ n t, n ∈ seq (this w) → lookup_task n (tasks (this w)) = Some t →
          plain_sync t ∧ running t = false) →
  ∃ w' evs,
    runStep (S fuel) w = Some (Normal w') ∧ trace w' = trace w ++ evs ∧
    starts evs = filter (λ n, pending (tasks (this w)) n = true) (seq (this w)) ∧
    stops evs = [VNull] ∧
    notified evs =
      match doneCallback (this w) with Some c => [(c, VNull)] | None => [] end ∧
    isRunning (this w') = false ∧
    Forall (finished (tasks (this w'))) (seq (this w)).
Proof.
  intros Hr (Hnd & Hreg & Hdep) Hsync. simpl. rewrite Hr.
  apply (scan_sync (runStep fuel) (seq (this w)) [] w); try done.
  intros l1 n l2 E.
  assert (Hin : n ∈ seq (this w)).
  { rewrite E. apply elem_of_app. right. apply elem_of_cons. by left. }
  destruct (Hreg n Hin) as [t Hl]. destruct (Hsync n t Hin Hl) as [Hs Hrun].
  exists t. repeat split; try done. intros d Hd. simpl.
  destruct (Hdep n d Hin) as (k1 & k2 & E' & Hk); [by exists t|].
  rewrite E in E'. rewrite E in Hnd.
  by rewrite (NoDup_split_unique l1 l2 k1 k2 n Hnd E').
Qed.

Lemma sync_pass_runs_everything_witness :
  let f := FFunction (Build_executor 0 [] (Return RPlain)) in
  let w := Build_world
             (Build_orchestrator false (Some 1) ["a"; "b"; "c"]
                [Build_task "c" ["a"; "b"] f false false 0;
                 Build_task "a" [] f false true 1;
                 Build_task "b" ["a"] f false false 2] true) 3 [] in
  ∃ w' evs,
    runStep 1 w = Some (Normal w') ∧ trace w' = trace w ++ evs ∧
    starts evs = ["b"; "c"] ∧ stops evs = [VNull] ∧ notified evs = [(1, VNull)] ∧
    isRunning (this w') = false ∧
    Forall (finished (tasks (this w'))) ["a"; "b"; "c"].
Proof.
  intros f w. apply (sync_pass_runs_everything 0 w).
  - reflexivity.
  - split; [|split].
    + repeat (apply NoDup_cons; split; [set_solver|]). apply NoDup_nil_2.
    + intros n Hn. unfold registered. repeat (apply elem_of_cons in Hn as [->|Hn]; [by eexists|]).
      by apply elem_of_nil in Hn.
    + intros n d Hn (t & Hl & Hd).
      repeat (apply elem_of_cons in Hn as [->|Hn];
              [injection Hl as <-; simpl in Hd;
               repeat (apply elem_of_cons in Hd as [->|Hd];
                       [first [by exists [], ["b"; "c"]; split; [done|set_solver]
                              |by exists ["a"], ["c"]; split; [done|set_solver]
                              |by exists ["a"; "b"], []; split; [done|set_solver]]|]);
               by apply elem_of_nil in Hd|]).
      by apply elem_of_nil in Hn.
  - intros n t Hn Hl.
    repeat (apply elem_of_cons in Hn as [->|Hn];
            [injection Hl as <-; split; [by eexists|done]|]).
    by apply elem_of_nil in Hn.
Defined.

(** ** What a pass starts, and what it leaves behind *)

Section SchedulerComplete.
Variable rec : world → option outcome.
Hypothesis rec_steps : ∀ w o, rec w = Some o → steps [] w (world_of o).

Lemma scan_one_starts n w o :
  isRunning (this w) = true → scan_one rec n w = Some o →
  ∃ evs, step [] w evs (world_of o) ∧ (eligible (tasks (this w)) n → n ∈ starts evs).
Proof.
  intros Hr H.
  destruct (scan_one_steps rec rec_steps n w o Hr H) as [evs0 Hs0].
  unfold scan_one in H.
  destruct (lookup_task n (tasks (this w))) as [t|] eqn:Hl.
  2:{ exists evs0. split; [done|]. intros (t' & Hl' & _). congruence. }
  destruct (negb (done t) && negb (running t)) eqn:Ef.
  2:{ exists evs0. split; [done|]. intros (t' & Hl' & Hd & Hru & _).
      assert (t' = t) as -> by congruence. by rewrite Hd, Hru in Ef. }
  unfold readyToRunTask in H.
  destruct (readyToRunTask_loop_cases t (dep t) w)
    as [[E Hdeps]|[(l1 & x & l2 & tx & Hdep & H1 & Hx & Hxd & E)|
                   (l1 & x & l2 & Hdep & H1 & Hx & E)]]; rewrite E in H.
  - apply andb_true_iff in Ef as [Hd Hru]. apply negb_true_iff in Hd, Hru.
    pose proof (lookup_task_name _ _ _ Hl) as Hn.
    destruct (runTask_steps rec rec_steps t w o) as (evs & rest & Hs & Hst); try done.
    + rewrite Hn. by exists t.
    + exists evs. split; [done|]. intros _. rewrite Hst, Hn. apply elem_of_cons. by left.
  - exists evs0. split; [done|]. intros (t' & Hl' & _ & _ & Hall).
    assert (t' = t) as -> by congruence. rewrite Hdep in Hall.
    destruct (finished_split_false _ _ _ _ Hall). intros (u & Hu & Hud). congruence.
  - exists evs0. split; [done|]. intros (t' & Hl' & _ & _ & Hall).
    assert (t' = t) as -> by congruence. rewrite Hdep in Hall.
    destruct (finished_split_false _ _ _ _ Hall). intros (u & Hu & _). congruence.
Qed.

Lemma scan_starts names w o :
  isRunning (this w) = true → scan rec names w = Some o →
  ∃ evs, step [] w evs (world_of o) ∧
         ∀ w', o = Normal w' → isRunning (this w') = true →
               ∀ n, n ∈ names → eligible (tasks (this w)) n → n ∈ starts evs.
Proof.
  revert w. induction names as [|n names IH]; simpl; intros w Hr H.
  - destruct (scan_steps rec rec_steps [] w o Hr H) as [evs Hs]. exists evs.
    split; [done|]. by intros ? ? ? ? ?%elem_of_nil.
  - destruct (scan_one rec n w) as [[w1|e w1]|] eqn:E; [| |done].
    + destruct (scan_one_starts n w _ Hr E) as (e1 & Hs1 & Hn1). simpl in Hs1.
      destruct (isRunning (this w1)) eqn:Hr1.
      * destruct (IH w1 Hr1 H) as (e2 & Hs2 & Hn2).
        exists (e1 ++ e2). split; [eapply step_trans; [done|done|by intros ? ?%elem_of_nil]|].
        intros w' -> Hr' m Hm Hel. unfold starts. rewrite omap_app. apply elem_of_app.
        destruct (decide (m ∈ starts e1)) as [Hin|Hnin]; [by left|right].
        apply elem_of_cons in Hm as [->|Hm]; [by destruct Hnin; apply Hn1|].
        apply (Hn2 w'); try done.
        eapply eligible_stable; [exact Hs1|by intros ?%elem_of_nil|done|done].
      * injection H as <-. exists e1. split; [done|]. intros w' [= <-] Hr'. congruence.
    + injection H as <-. destruct (scan_one_starts n w _ Hr E) as (e1 & Hs1 & _).
      exists e1. split; [done|]. by intros w' [=].
Qed.

Lemma scan_leaves_unfinished names w w' :
  scan rec names w = Some (Normal w') → isRunning (this w') = true →
  allDone w' = Some false.
Proof.
  revert w. induction names as [|n names IH]; simpl; intros w H Hr'.
  - destruct (allDone w) as [[|]|] eqn:E; [| |done]; injection H as <-; [|done].
    by rewrite stop_isRunning in Hr'.
  - destruct (scan_one rec n w) as [[w1|e w1]|]; [|done|done].
    destruct (isRunning (this w1)) eqn:Hr1; [by eapply IH|].
    injection H as <-. congruence.
Qed.
End SchedulerComplete.

Lemma runStep_starts fuel w w' n :
  runStep fuel w = Some (Normal w') →
  isRunning (this w) = true → n ∈ seq (this w) → eligible (tasks (this w)) n →
  ∃ evs, trace w' = trace w ++ evs ∧ (n ∈ starts evs ∨ stops evs ≠ []).
Proof.
  destruct fuel as [|fuel]; simpl; [done|]. intros H Hr Hn He. rewrite Hr in H.
  destruct (scan_starts (runStep fuel) (runStep_steps fuel) _ _ _ Hr H) as (evs & Hs & Hst).
  exists evs. split; [apply Hs|].
  destruct (stops evs) as [|e rest] eqn:Estops; [left|by right].
  apply (Hst w'); try done.
  pose proof (step_isRunning _ _ _ _ Hs) as Hrun. simpl in Hrun.
  by rewrite Hrun, Estops.
Qed.

(** X10: a pass starts every task that is ready for it.  A task of the
    stored sequence that is neither running nor done and has all its
    dependencies done when [_runStep] is entered on a running orchestrator
    has its executor invoked before [_runStep] returns, unless [stop] is
    called in the meantime. *)
Theorem pass_starts_every_eligible_task (fuel : nat) (w w' : world) (n : string) :
  runStep fuel w = Some (Normal w') →
  isRunning (this w) = true → n ∈ seq (this w) → eligible (tasks (this w)) n →
  ∃ evs, trace w' = trace w ++ evs ∧ (n ∈ starts evs ∨ stops evs ≠ []).
Proof.
  destruct fuel as [|fuel]; simpl; [done|]. intros H Hr Hn He. rewrite Hr in H.
  destruct (scan_starts (runStep fuel) (runStep_steps fuel) _ _ _ Hr H) as (evs & Hs & Hst).
  exists evs. split; [apply Hs|].
  destruct (stops evs) as [|e rest] eqn:Estops; [left|by right].
  apply (Hst w'); try done.
  pose proof (step_isRunning _ _ _ _ Hs) as Hrun. simpl in Hrun.
  by rewrite Hrun, Estops.
Qed.

Lemma pass_starts_every_eligible_task_witness :
  let wait := FFunction (Build_executor 1 [] (Return RPlain)) in
  let w := Build_world
             (Build_orchestrator false None ["a"; "b"; "c"]
                [Build_task "a" [] wait false false 0;
                 Build_task "b" ["a"] wait false false 1;
                 Build_task "c" [] wait false false 2] true) 3 [] in
  ∃ evs, trace (at_call (Build_task "c" [] wait false false 2)
                  (at_call (Build_task "a" [] wait false false 0) w)) = trace w ++ evs ∧
         ("c" ∈ starts evs ∨ stops evs ≠ []).
Proof.
  intros wait w.
  apply (pass_starts_every_eligible_task 1 w _ "c").
  - reflexivity.
  - reflexivity.
  - set_solver.
  - eexists. split; [reflexivity|]. by repeat split.
Defined.

(** X11: a run that is still active is waiting for a task in flight.  When
    the stored sequence lists registered tasks once each with every
    dependency ahead of its dependent, and a call of [_runStep] returns
    with the run still active, then the first task of the sequence that is
    not done is running: the orchestrator never sits idle on a task that
    could be started. *)
Theorem active_run_has_task_in_flight (fuel : nat) (w w' : world) :
  sequenced (tasks (this w)) (seq (this w)) →
  runStep fuel w = Some (Normal w') → isRunning (this w') = true →
  ∃ pre n post t,
    seq (this w') = pre ++ n :: post ∧
    Forall (finished (tasks (this w'))) pre ∧
    lookup_task n (tasks (this w')) = Some t ∧ done t = false ∧ running t = true.
Proof.
  intros Hseq H Hr'.
  assert (Hp : in_pass (seq (this w)) w) by done.
  destruct (runStep_in_order (seq (this w)) fuel w _ Hp H) as (evs & _ & _ & Hq).
  specialize (Hq w' eq_refl Hr').
  destruct (in_pass_steps [] _ _ _ (runStep_steps _ _ _ H) Hp) as [Hsq' (Hnd & _ & Hdep)].
  simpl in Hsq'.
  assert (Hall : allDone w' = Some false).
  { destruct fuel as [|fuel]; [done|]. simpl in H.
    destruct (isRunning (this w)) eqn:Hr.
    - by eapply scan_leaves_unfinished.
    - injection H as <-. congruence. }
  apply allDone_false_first in Hall as (pre & n & post & t & E & Hpre & Hl & Hd).
  exists pre, n, post, t. repeat split; try done.
  destruct (running t) eqn:Hru; [done|]. exfalso.
  assert (Hin : n ∈ seq (this w)).
  { rewrite <- Hsq', E. apply elem_of_app. right. apply elem_of_cons. by left. }
  apply (Hq n Hin). exists t. repeat split; try done.
  apply Forall_forall. intros d Hdd.
  destruct (Hdep n d Hin) as (k1 & k2 & E' & Hk); [by exists t|].
  rewrite <- Hsq', E in E', Hnd.
  rewrite <- (NoDup_split_unique pre post k1 k2 n Hnd E') in Hk.
  rewrite Forall_forall in Hpre. by apply Hpre.
Qed.

Lemma active_run_has_task_in_flight_witness :
  let wait := FFunction (Build_executor 1 [] (Return RPlain)) in
  let sync := FFunction (Build_executor 0 [] (Return RPlain)) in
  let w := Build_world
             (Build_orchestrator false None ["a"; "b"; "c"]
                [Build_task "a" [] sync false false 0;
                 Build_task "b" ["a"] wait false false 1;
                 Build_task "c" ["b"] sync false false 2] true) 3 [] in
  let w' := default w (world_of <$> runStep 1 w) in
  ∃ pre n post t,
    seq (this w') = pre ++ n :: post ∧
    Forall (finished (tasks (this w'))) pre ∧
    lookup_task n (tasks (this w')) = Some t ∧
    done t = false ∧ running t = true.
Proof.
  intros wait sync w w'.
  apply (active_run_has_task_in_flight 1 w w').
  - split; [|split].
    + repeat (apply NoDup_cons; split; [set_solver|]). apply NoDup_nil_2.
    + intros n Hn. unfold registered.
      repeat (apply elem_of_cons in Hn as [->|Hn]; [by eexists|]).
      by apply elem_of_nil in Hn.
    + intros n d Hn (t & Hl & Hd).
      repeat (apply elem_of_cons in Hn as [->|Hn];
              [injection Hl as <-; simpl in Hd;
               repeat (apply elem_of_cons in Hd as [->|Hd];
                       [first [by exists ["a"], ["c"]; split; [done|set_solver]
                              |by exists ["a"; "b"], []; split; [done|set_solver]]|]);
               by apply elem_of_nil in Hd|]).
      by apply elem_of_nil in Hn.
  - vm_compute. reflexivity.
  - reflexivity.
Defined.

Lemma finished_mark_done t w d :
  finished (tasks (this w)) d → finished (tasks (this (mark_done t w))) d.
Proof.
  intros (u & Hu & Hd).
  destruct (steps_lookup _ _ _ _ _ (steps_mark_done t w) Hu) as (u' & Hu' & Hle).
  exists u'. split; [done|]. destruct Hle as (_ & _ & _ & _ & H & _). auto.
Qed.

Lemma signal_makes_eligible t u w n tn line :
  lookup_task (name t) (tasks (this w)) = Some u → tid u = tid t →
  n ≠ name t →
  lookup_task n (tasks (this w)) = Some tn → done tn = false → running tn = false →
  (∀ d, d ∈ dep tn → d = name t ∨ finished (tasks (this w)) d) →
  eligible (tasks (this (log line (mark_done t w)))) n.
Proof.
  intros Hu Htid Hne Hn Hd Hr Hdeps. rewrite log_this.
  exists tn. split.
  { unfold mark_done. wsimpl_goal. by rewrite lookup_write_flags_ne. }
  repeat split; try done. apply Forall_forall. intros d Hdd.
  destruct (Hdeps d Hdd) as [->|Hfin]; [|by apply finished_mark_done].
  eexists. split; [by apply mark_done_lookup|done].
Qed.

(** X12: the completion of a dependency starts the tasks that waited for
    it.  When a task of the registry signals its completion without an
    error, through its callback or through its deferred handle, while the
    run is active, every idle task of the stored sequence whose other
    dependencies are all done has its executor invoked in the same turn,
    unless [stop] is called in the meantime. *)
Theorem completion_starts_dependents (fuel : nat) (t u tn : task) (n : string)
    (w : world) :
  isRunning (this w) = true →
  lookup_task (name t) (tasks (this w)) = Some u → tid u = tid t →
  n ∈ seq (this w) → n ≠ name t →
  lookup_task n (tasks (this w)) = Some tn → done tn = false → running tn = false →
  (∀ d, d ∈ dep tn → d = name t ∨ finished (tasks (this w)) d) →
  (∀ w', fulfilled fuel t w = Some (Normal w') →
         ∃ evs, trace w' = trace w ++ evs ∧ (n ∈ starts evs ∨ stops evs ≠ [])) ∧
  (∀ err w', truthy err = false → callback fuel t err w = Some (Normal w') →
             ∃ evs, trace w' = trace w ++ evs ∧ (n ∈ starts evs ∨ stops evs ≠ [])).
Proof.
  intros Hr Hu Htid Hin Hne Hn Hd Hru Hdeps.
  assert (Hpass : ∀ line w',
    runStep fuel (log line (mark_done t w)) = Some (Normal w') →
    ∃ evs, trace w' = trace w ++ evs ∧ (n ∈ starts evs ∨ stops evs ≠ [])).
  { intros line w' H.
    destruct (runStep_starts fuel _ w' n H) as (evs & Htr & Hev).
    - by rewrite log_this.
    - by rewrite log_this.
    - by eapply signal_makes_eligible.
    - rewrite log_trace in Htr.
      change (trace (mark_done t w)) with (trace w) in Htr.
      change (verbose (this (mark_done t w))) with (verbose (this w)) in Htr.
      eexists. split; [by rewrite Htr, <- app_assoc|].
      unfold starts, stops in *. rewrite !omap_app.
      destruct (verbose (this w)); simpl; done. }
  split.
  - intros w' H. by eapply Hpass.
  - intros err w' Herr H. unfold callback, cb in H. rewrite Herr in H. by eapply Hpass.
Qed.

Lemma completion_starts_dependents_witness :
  let wait := FFunction (Build_executor 1 [] (Return RPlain)) in
  let a := Build_task "a" [] wait true false 0 in
  let b := Build_task "b" ["a"] wait false false 1 in
  let w := Build_world (Build_orchestrator false None ["a"; "b"] [a; b] true) 2 [] in
  ∃ evs, trace (at_call b (mark_done a w)) = trace w ++ evs ∧
         ("b" ∈ starts evs ∨ stops evs ≠ []).
Proof.
  intros wait a b w.
  refine (proj2 (completion_starts_dependents 2 a a b "b" w _ _ _ _ _ _ _ _ _)
            VUndefined _ _ _); try reflexivity.
  - set_solver.
  - discriminate.
  - intros d ->%list_elem_of_singleton. by left.
Defined.

(** ** The notifier of a run *)

(** X13: one call of [run] invokes at most one notifier, at most once.  A
    notifier passed to [run] replaces the one registered before, which this
    call then never invokes; without one the notifier registered before
    stays in place.  That notifier is invoked if and only if [stop] is
    called before [run] returns, once, and with the error of the first such
    call; it is then no longer registered. *)
Theorem run_notifies_at_most_once (fuel : nat) (names : list string)
    (notify : option notifier) (w : world) (r : outcome) :
  run fuel names notify w = Some r →
  ∃ evs, trace (world_of r) = trace w ++ evs ∧
         notified evs =
           match (match notify with Some c => Some c | None => doneCallback (this w) end),
                 stops evs with
           | Some c, e :: _ => [(c, e)]
           | _, _ => []
           end ∧
         doneCallback (this (world_of r)) =
           match stops evs with
           | [] => match notify with Some c => Some c | None => doneCallback (this w) end
           | _ => None
           end.
Proof.
  intros (s & w1 & Hc & H)%run_cases.
  destruct (with_notifier_fields notify w) as (_ & _ & _ & _ & _ & Htr0 & Hdc0).
  destruct (sequence_call_steps _ _ _ _ Hc) as [e1 H1].
  destruct (prepared_fields s w1) as (_ & _ & _ & Hdc2 & _ & _ & e2 & Htr2 & _ & Hsp2 & Hno2).
  destruct (runStep_steps _ _ _ H) as [e3 H3].
  exists (e1 ++ e2 ++ e3).
  split.
  { rewrite (step_trace _ _ _ _ H3), Htr2, (step_trace _ _ _ _ H1), Htr0.
    by rewrite <- !app_assoc. }
  pose proof (step_notified _ _ _ _ H1) as Hn1.
  pose proof (step_doneCallback _ _ _ _ H1) as Hd1.
  pose proof (step_notified _ _ _ _ H3) as Hn3.
  pose proof (step_doneCallback _ _ _ _ H3) as Hd3.
  rewrite Hdc2 in Hn3, Hd3. rewrite Hdc0 in Hn1, Hd1.
  unfold notified, stops in *. rewrite !omap_app.
  rewrite Hn1, Hno2, Hn3, Hsp2, Hd3, Hd1. simpl.
  destruct (omap stopped_err e1) as [|x1 l1];
    destruct (match notify with Some c => Some c | None => doneCallback (this w) end);
    simpl; by destruct (omap stopped_err e3).
Qed.

Lemma run_notifies_at_most_once_witness :
  let fails := FFunction (Build_executor 0 [] (Throw (VError "bad"))) in
  let w := Build_world
             (Build_orchestrator false (Some 1) []
                [Build_task "a" [] fails false false 0] false) 1 [] in
  ∃ evs, trace (default w (world_of <$> run 1 ["a"] (Some 2) w)) = trace w ++ evs ∧
         notified evs =
           match Some 2, stops evs with
           | Some c, e :: _ => [(c, e)]
           | _, _ => []
           end ∧
         doneCallback (this (default w (world_of <$> run 1 ["a"] (Some 2) w))) =
           match stops evs with [] => Some 2 | _ => None end.
Proof.
  intros fails w.
  apply (run_notifies_at_most_once 1 ["a"] (Some 2) w
           (default (Normal w) (run 1 ["a"] (Some 2) w))).
  vm_compute. reflexivity.
Defined.

(** ** How [_runTask] leaves a task *)

(** X14: a task whose [fn] field holds no function fails when it is
    started, not when it is added.  [add] with a name and a list of
    dependencies but no function stores the list as the executor; when
    [_runTask] reaches such a task the call of the executor throws inside
    the [try], so [stop] is called once with the [TypeError], which goes to
    the notifier, and the run is over.  The task is then marked done if the
    list is empty and is left running otherwise. *)
Theorem non_function_executor_fails_at_start (rec : world → option outcome) (t : task)
    (l : list string) (w : world) :
  lookup_task (name t) (tasks (this w)) = Some t → fn t = FArray l →
  ∃ w' evs t',
    runTask rec t w = Some (Normal w') ∧ trace w' = trace w ++ evs ∧
    starts evs = [name t] ∧ stops evs = [not_callable] ∧
    notified evs =
      match doneCallback (this w) with Some c => [(c, not_callable)] | None => [] end ∧
    isRunning (this w') = false ∧
    lookup_task (name t) (tasks (this w')) = Some t' ∧
    done t' = (if Nat.eqb (length l) 0 then true else done t) ∧
    running t' = negb (Nat.eqb (length l) 0).
Proof.
  intros Hl Hf. unfold runTask, call_fn. fold (at_call t w). rewrite Hf. simpl.
  destruct (at_call_fields t w) as (Hv & Hdc & Hsq & Hr).
  set (w3 := stop not_callable false (at_call t w)).
  set (e0 := (if verbose (this w) then [Console ("[" +:+ name t +:+ " started]")] else [])
             ++ [Started (name t) (tasks (this w))]).
  set (e1 := stop_events not_callable false (at_call t w)).
  assert (Htr3 : trace w3 = trace w ++ e0 ++ e1).
  { subst w3 e0 e1. by rewrite stop_trace, at_call_trace, <- !app_assoc. }
  assert (Hl3 : lookup_task (name t) (tasks (this w3)) = Some (set_flags true (done t) t)).
  { subst w3. rewrite stop_tasks. by apply at_call_lookup. }
  assert (Hev : ∀ more,
    starts more = [] → stops more = [] → notified more = [] →
    starts (e0 ++ e1 ++ more) = [name t] ∧
    stops (e0 ++ e1 ++ more) = [not_callable] ∧
    notified (e0 ++ e1 ++ more) =
      match doneCallback (this w) with Some c => [(c, not_callable)] | None => [] end).
  { intros more Hs1 Hs2 Hs3. unfold starts, stops, notified in *. rewrite !omap_app.
    fold (starts e1) (stops e1) (notified e1). subst e1.
    rewrite stop_events_starts, stop_events_stops, stop_events_notified, Hs1, Hs2, Hs3, Hdc.
    rewrite !app_nil_r. subst e0. rewrite !omap_app. by destruct (verbose (this w)). }
  destruct (Nat.eqb (length l) 0) eqn:Elen.
  - set (w4 := log ("[" +:+ name t +:+ " finished]") w3).
    set (e2 := if verbose (this w3) then [Console ("[" +:+ name t +:+ " finished]")] else []).
    exists (mark_done t w4), (e0 ++ e1 ++ e2),
      (set_flags false true (set_flags true (done t) t)).
    split; [done|]. split.
    { change (trace (mark_done t w4)) with (trace w4). subst w4 e2.
      by rewrite log_trace, Htr3, <- !app_assoc. }
    destruct (Hev e2) as (E1 & E2 & E3); [subst e2; by destruct (verbose (this w3))..|].
    split; [done|]. split; [done|]. split; [done|].
    split.
    { change (isRunning (this (mark_done t w4))) with (isRunning (this w4)).
      subst w4. rewrite log_this. apply stop_isRunning. }
    split; [|done]. apply mark_done_lookup; [|done]. subst w4. by rewrite log_this.
  - exists w3, (e0 ++ e1 ++ []), (set_flags true (done t) t). split; [done|]. split.
    { by rewrite Htr3, app_nil_r. }
    destruct (Hev []) as (E1 & E2 & E3); [done..|].
    split; [done|]. split; [done|]. split; [done|].
    split; [apply stop_isRunning|]. split; [done|done].
Qed.

Lemma non_function_executor_fails_at_start_witness :
  let w := world_of (add (Some "a") (AArray ["b"]) AUndefined (Orchestrator false (Some 1) [])) in
  let t := Build_task "a" [] (FArray ["b"]) false false 0 in
  ∃ w' evs t',
    runTask (runStep 0) t w = Some (Normal w') ∧ trace w' = trace w ++ evs ∧
    starts evs = ["a"] ∧ stops evs = [not_callable] ∧
    notified evs = [(1, not_callable)] ∧
    isRunning (this w') = false ∧
    lookup_task "a" (tasks (this w')) = Some t' ∧
    done t' = false ∧ running t' = true.
Proof.
  intros w t.
  apply (non_function_executor_fails_at_start (runStep 0) t ["b"] w); reflexivity.
Defined.

(** X15: a task that completes asynchronously is left running.  When the
    executor returns a deferred handle that has not settled yet, whatever
    the number of parameters it declares, or declares a completion
    parameter and returns no deferred handle, and has not signalled
    completion during the call, [_runTask] returns with the task marked
    running and not marked done; it calls neither [stop] nor the notifier
    and leaves the run active. *)
Theorem async_executor_left_running (rec : world → option outcome) (t : task)
    (f : executor) (w : world) :
  lookup_task (name t) (tasks (this w)) = Some t →
  fn t = FFunction f → fn_calls f = [] →
  fn_end f = Return (RDeferred []) ∨ (fn_end f = Return RPlain ∧ fn_length f ≠ 0) →
  ∃ w' evs,
    runTask rec t w = Some (Normal w') ∧ trace w' = trace w ++ evs ∧
    starts evs = [name t] ∧ stops evs = [] ∧ notified evs = [] ∧
    isRunning (this w') = isRunning (this w) ∧
    doneCallback (this w') = doneCallback (this w) ∧
    (∀ m, m ≠ name t → lookup_task m (tasks (this w')) = lookup_task m (tasks (this w))) ∧
    ∃ t', lookup_task (name t) (tasks (this w')) = Some t' ∧
          running t' = true ∧ done t' = done t.
Proof.
  intros Hl Hf Hcalls Hend.
  assert (Hrun : runTask rec t w = Some (Normal (at_call t w))).
  { rewrite (runTask_no_calls rec t f w Hf Hcalls).
    destruct Hend as [->|[-> Hlen]]; [done|].
    by destruct (Nat.eqb_spec (fn_length f) 0). }
  destruct (at_call_fields t w) as (Hv & Hdc & Hsq & Hr).
  exists (at_call t w),
    ((if verbose (this w) then [Console ("[" +:+ name t +:+ " started]")] else [])
     ++ [Started (name t) (tasks (this w))]).
  split; [done|]. split; [apply at_call_trace|].
  split; [by destruct (verbose (this w))|].
  split; [by destruct (verbose (this w))|].
  split; [by destruct (verbose (this w))|].
  split; [done|]. split; [done|]. split.
  - intros m Hm. unfold at_call. wsimpl_goal. rewrite lookup_write_flags_ne by done.
    by rewrite log_this.
  - eexists. split; [by apply at_call_lookup|done].
Qed.

Lemma async_executor_left_running_witness :
  let f := Build_executor 0 [] (Return (RDeferred [])) in
  let t := Build_task "fetch" [] (FFunction f) false false 0 in
  let w := Build_world (Build_orchestrator false (Some 1) ["fetch"] [t] true) 1 [] in
  ∃ w' evs,
    runTask (runStep 0) t w = Some (Normal w') ∧ trace w' = trace w ++ evs ∧
    starts evs = ["fetch"] ∧ stops evs = [] ∧ notified evs = [] ∧
    isRunning (this w') = true ∧
    doneCallback (this w') = Some 1 ∧
    (∀ m, m ≠ "fetch" → lookup_task m (tasks (this w')) = lookup_task m (tasks (this w))) ∧
    ∃ t', lookup_task "fetch" (tasks (this w')) = Some t' ∧
          running t' = true ∧ done t' = false.
Proof.
  intros f t w.
  apply (async_executor_left_running (runStep 0) t f w); try reflexivity. by left.
Defined.

(** ** Edge cases of [run] and [_runStep] *)

(** X16: running an orchestrator that has no tasks succeeds at once.  On an
    idle orchestrator with an empty registry, [run] without task names
    requests nothing, stores the empty sequence, finds everything done in
    its first pass and calls [stop] before it returns: the notifier given
    to [run], or else the one registered before, is invoked once with
    [null], no executor is invoked, and the orchestrator is idle again. *)
Theorem run_with_nothing_registered (fuel : nat) (notify : option notifier) (w : world) :
  tasks (this w) = [] → isRunning (this w) = false →
  ∃ w' evs,
    run (S fuel) [] notify w = Some (Normal w') ∧ trace w' = trace w ++ evs ∧
    starts evs = [] ∧ stops evs = [VNull] ∧
    notified evs =
      match (match notify with Some c => Some c | None => doneCallback (this w) end) with
      | Some c => [(c, VNull)]
      | None => []
      end ∧
    isRunning (this w') = false ∧ seq (this w') = [] ∧ tasks (this w') = [].
Proof.
  intros Ht Hr.
  assert (Hs : sequence (tasks (this w)) (run_names [] w) [] [] = SeqOk []).
  { unfold run_names. by rewrite Hr, Ht. }
  destruct (run_prepared (S fuel) [] notify w [] Hs)
    as (w1 & -> & Hs1 & Hr1 & Ht1 & Hdc1 & evs & Htr1 & Hst & Hsp & Hno).
  simpl. rewrite Hr1, Hs1. simpl. unfold allDone. rewrite Hs1. simpl.
  exists (stop VNull true w1), (evs ++ stop_events VNull true w1).
  split; [done|]. split; [by rewrite stop_trace, Htr1, <- app_assoc|].
  unfold starts, stops, notified in *. rewrite !omap_app, Hst, Hsp, Hno.
  fold (starts (stop_events VNull true w1)) (stops (stop_events VNull true w1))
    (notified (stop_events VNull true w1)).
  rewrite stop_events_starts, stop_events_stops, stop_events_notified, Hdc1,
    stop_isRunning, stop_tasks, Ht1, Ht.
  repeat split; try done.
  pose proof (step_seq _ _ _ _ (step_stop_events [] VNull true w1)) as Hseq.
  by rewrite Hseq.
Qed.

Lemma run_with_nothing_registered_witness :
  ∃ w' evs,
    run 1 [] (Some 3) (Orchestrator true None []) = Some (Normal w') ∧
    trace w' = trace (Orchestrator true None []) ++ evs ∧
    starts evs = [] ∧ stops evs = [VNull] ∧
    notified evs = [(3, VNull)] ∧
    isRunning (this w') = false ∧ seq (this w') = [] ∧ tasks (this w') = [].
Proof.
  apply (run_with_nothing_registered 0 (Some 3) (Orchestrator true None []));
    reflexivity.
Defined.

(** X17: a pass throws only over a name that is not registered.  As long
    as every name of the stored sequence has a registry entry, [_runStep]
    returns without throwing, whatever the executors do; if it throws, some
    name of the sequence is not registered.  A running orchestrator whose
    sequence starts with an unregistered name throws a [TypeError] from
    [_runStep] before anything else happens. *)
Theorem pass_throws_only_on_unregistered_name :
  (∀ fuel w o, seq_registered w → runStep fuel w = Some o → ∃ w', o = Normal w') ∧
  (∀ fuel w e w', runStep fuel w = Some (Thrown e w') →
     ∃ n, n ∈ seq (this w) ∧ lookup_task n (tasks (this w)) = None) ∧
  (∀ fuel w n rest,
     isRunning (this w) = true → seq (this w) = n :: rest →
     lookup_task n (tasks (this w)) = None →
     runStep (S fuel) w = Some (Thrown type_error w)).
Proof.
  split; [exact runStep_normal|]. split.
  - intros fuel w e w' H.
    destruct (decide (Forall (λ n, is_Some (lookup_task n (tasks (this w)))) (seq (this w))))
      as [Hall|Hnot].
    + destruct (runStep_normal fuel w (Thrown e w')) as [w'' Hw]; [|done|done].
      intros n Hn. rewrite Forall_forall in Hall. by apply Hall.
    + apply not_Forall_Exists in Hnot; [|apply _].
      apply Exists_exists in Hnot as (n & Hn & Hno). exists n. split; [done|].
      simpl in Hno. destruct (lookup_task n (tasks (this w))); [|done]. by destruct Hno.
  - intros fuel w n rest Hr Hs Hl. simpl. rewrite Hr, Hs. simpl. unfold scan_one.
    by rewrite Hl.
Qed.

Lemma pass_throws_only_on_unregistered_name_witness :
  let w := Build_world (Build_orchestrator false None ["ghost"] [] true) 0 [] in
  runStep 1 w = Some (Thrown type_error w).
Proof.
  intros w.
  apply (proj2 (proj2 pass_throws_only_on_unregistered_name) 0 w "ghost" []);
    reflexivity.
Defined.

(** ** The end of a run *)

Lemma last_signal_ends_run fuel t u w line :
  isRunning (this w) = true →
  lookup_task (name t) (tasks (this w)) = Some u → tid u = tid t →
  (∀ n, n ∈ seq (this w) → n = name t ∨ finished (tasks (this w)) n) →
  ∃ w' evs,
    runStep (S fuel) (log line (mark_done t w)) = Some (Normal w') ∧
    trace w' = trace w ++ evs ∧
    starts evs = [] ∧ stops evs = [VNull] ∧
    notified evs =
      match doneCallback (this w) with Some c => [(c, VNull)] | None => [] end ∧
    isRunning (this w') = false ∧
    Forall (finished (tasks (this w'))) (seq (this w)).
Proof.
  intros Hr Hu Htid Hall.
  set (w1 := log line (mark_done t w)).
  assert (Hthis : this w1 = this (mark_done t w)) by apply log_this.
  assert (Hfin : Forall (finished (tasks (this w1))) (seq (this w1))).
  { rewrite Hthis. apply Forall_forall. intros n Hn.
    destruct (Hall n Hn) as [->|Hf]; [|by apply finished_mark_done].
    eexists. split; [by apply mark_done_lookup|done]. }
  assert (Hdone : allDone w1 = Some true) by (by apply allDone_loop_true_iff).
  simpl. rewrite Hthis. simpl. rewrite Hr.
  change (seq (this w)) with (seq (this (mark_done t w))). rewrite <- Hthis.
  rewrite scan_all_done; [|by rewrite Hthis|exact Hdone]. rewrite Hdone.
  exists (stop VNull true w1),
    ((if verbose (this w) then [Console line] else []) ++ stop_events VNull true w1).
  split; [done|]. split.
  { rewrite stop_trace. subst w1. rewrite log_trace. by rewrite <- app_assoc. }
  unfold starts, stops, notified. rewrite !omap_app.
  fold (starts (stop_events VNull true w1)) (stops (stop_events VNull true w1))
    (notified (stop_events VNull true w1)).
  rewrite stop_events_starts, stop_events_stops, stop_events_notified, stop_isRunning,
    stop_tasks, Hthis.
  split; [by destruct (verbose (this w))|].
  split; [by destruct (verbose (this w))|].
  split; [by destruct (verbose (this w))|].
  split; [done|]. by rewrite Hthis in Hfin.
Qed.

(** X18: the completion of the last unfinished task ends the run with
    success.  When a task of the registry signals its completion without an
    error, through its callback or through its deferred handle, while the
    run is active and every other task of the stored sequence is done, the
    pass made by the handler invokes no executor and calls [stop] once
    without an error: the notifier is invoked once with [null] and the run
    is over, with every task of the sequence done. *)
Theorem last_completion_ends_run (fuel : nat) (t u : task) (w : world) :
  isRunning (this w) = true →
  lookup_task (name t) (tasks (this w)) = Some u → tid u = tid t →
  (∀ n, n ∈ seq (this w) → n = name t ∨ finished (tasks (this w)) n) →
  (∃ w' evs,
     fulfilled (S fuel) t w = Some (Normal w') ∧ trace w' = trace w ++ evs ∧
     starts evs = [] ∧ stops evs = [VNull] ∧
     notified evs =
       match doneCallback (this w) with Some c => [(c, VNull)] | None => [] end ∧
     isRunning (this w') = false ∧
     Forall (finished (tasks (this w'))) (seq (this w))) ∧
  (∀ err, truthy err = false →
     ∃ w' evs,
       callback (S fuel) t err w = Some (Normal w') ∧ trace w' = trace w ++ evs ∧
       starts evs = [] ∧ stops evs = [VNull] ∧
       notified evs =
         match doneCallback (this w) with Some c => [(c, VNull)] | None => [] end ∧
       isRunning (this w') = false ∧
       Forall (finished (tasks (this w'))) (seq (this w))).
Proof.
  intros Hr Hu Htid Hall. split.
  - unfold fulfilled, onFulfilled. by eapply last_signal_ends_run.
  - intros err Herr. unfold callback, cb. rewrite Herr. by eapply last_signal_ends_run.
Qed.

Lemma last_completion_ends_run_witness :
  let wait := FFunction (Build_executor 1 [] (Return RPlain)) in
  let a := Build_task "a" [] wait false true 0 in
  let b := Build_task "b" ["a"] wait true false 1 in
  let w := Build_world (Build_orchestrator false (Some 8) ["a"; "b"] [a; b] true) 2 [] in
  ∃ w' evs,
    callback 1 b VNull w = Some (Normal w') ∧ trace w' = trace w ++ evs ∧
    starts evs = [] ∧ stops evs = [VNull] ∧
    notified evs = [(8, VNull)] ∧
    isRunning (this w') = false ∧
    Forall (finished (tasks (this w'))) ["a"; "b"].
Proof.
  intros wait a b w.
  refine (proj2 (last_completion_ends_run 0 b b w _ _ _ _) VNull _); try reflexivity.
  intros n Hn. apply elem_of_cons in Hn as [->|Hn]; [right; by exists a|].
  apply elem_of_cons in Hn as [->|Hn]; [by left|]. by apply elem_of_nil in Hn.
Defined.

(** ** Signals that arrive after the run is over *)

Lemma idle_signal fuel t err w line :
  isRunning (this w) = false → doneCallback (this w) = None →
  ∃ w' evs,
    (if truthy err then Some (Normal (stop err false (log line (mark_done t w))))
     else runStep (S fuel) (log line (mark_done t w))) = Some (Normal w') ∧
    this w' = this (mark_done t w) ∧
    trace w' = trace w ++ evs ∧ starts evs = [] ∧ notified evs = [].
Proof.
  intros Hr Hdc.
  set (w1 := log line (mark_done t w)).
  assert (Hthis : this w1 = this (mark_done t w)) by apply log_this.
  assert (Htr : trace w1 = trace w ++ (if verbose (this w) then [Console line] else []))
    by (subst w1; by rewrite log_trace).
  assert (Hr1 : isRunning (this w1) = false) by (by rewrite Hthis).
  assert (Hc1 : doneCallback (this w1) = None) by (by rewrite Hthis).
  destruct (truthy err).
  - exists (stop err false w1),
      ((if verbose (this w) then [Console line] else []) ++ stop_events err false w1).
    split; [done|]. rewrite stop_this_idle by done. split; [done|].
    rewrite stop_trace, Htr, <- app_assoc. split; [done|].
    unfold starts, notified. rewrite !omap_app.
    fold (starts (stop_events err false w1)) (notified (stop_events err false w1)).
    rewrite stop_events_starts, stop_events_notified, Hc1.
    by destruct (verbose (this w)).
  - simpl. rewrite Hr1. exists w1, (if verbose (this w) then [Console line] else []).
    split; [done|]. split; [exact Hthis|]. split; [exact Htr|].
    by destruct (verbose (this w)).
Qed.

(** X19: once the run is over and its notifier has been used up, the
    completion signals of the tasks still in flight only do bookkeeping.
    On an orchestrator that is not running and has no notifier registered,
    as [stop] leaves it, a completion callback (with or without an error),
    a fulfilled and a rejected deferred handle each mark their task done
    and change nothing else: no executor is invoked, no notifier is
    invoked, and the orchestrator stays idle. *)
Theorem signals_after_stop_only_mark_done (fuel : nat) (t : task) (w : world) :
  isRunning (this w) = false → doneCallback (this w) = None →
  (∀ err, ∃ w' evs,
     callback (S fuel) t err w = Some (Normal w') ∧ this w' = this (mark_done t w) ∧
     trace w' = trace w ++ evs ∧ starts evs = [] ∧ notified evs = []) ∧
  (∃ w' evs,
     fulfilled (S fuel) t w = Some (Normal w') ∧ this w' = this (mark_done t w) ∧
     trace w' = trace w ++ evs ∧ starts evs = [] ∧ notified evs = []) ∧
  (∀ err, ∃ evs,
     this (rejected t err w) = this (mark_done t w) ∧
     trace (rejected t err w) = trace w ++ evs ∧ starts evs = [] ∧ notified evs = []).
Proof.
  intros Hr Hdc. split; [|split].
  - intros err. unfold callback, cb. by apply idle_signal.
  - unfold fulfilled, onFulfilled.
    by apply (idle_signal fuel t VNull w ("[" +:+ name t +:+ " resolved]")).
  - intros err. unfold rejected, onRejected.
    destruct (idle_signal fuel t (js_or err (VStr (name t +:+ " promise rejected"))) w
                ("[" +:+ name t +:+ " rejected]") Hr Hdc) as (w' & evs & H & Hrest).
    rewrite truthy_js_or_message in H by done. injection H as <-. by exists evs.
Qed.

Lemma signals_after_stop_only_mark_done_witness :
  let wait := FFunction (Build_executor 1 [] (Return RPlain)) in
  let a := Build_task "a" [] wait true false 0 in
  let w := stop (VError "failed") false
             (Build_world (Build_orchestrator true (Some 8) ["a"] [a] true) 1 []) in
  ∃ w' evs,
    fulfilled 1 a w = Some (Normal w') ∧ this w' = this (mark_done a w) ∧
    trace w' = trace w ++ evs ∧ starts evs = [] ∧ notified evs = [].
Proof.
  intros wait a w.
  apply (proj1 (proj2 (signals_after_stop_only_mark_done 0 a w eq_refl eq_refl))).
Defined.

(** ** A pass repeated *)

Lemma scan_nothing_to_start rec names w :
  isRunning (this w) = true →
  (∀ n, n ∈ names →
        ∃ t, lookup_task n (tasks (this w)) = Some t ∧
             ¬ eligible (tasks (this w)) n ∧
             ∀ d, d ∈ dep t → registered (tasks (this w)) d) →
  scan rec names w =
  match allDone w with
  | None => Some (Thrown type_error w)
  | Some true => Some (Normal (stop VNull true w))
  | Some false => Some (Normal w)
  end.
Proof.
  intros Hr. induction names as [|n names IH]; simpl; intros Hn; [done|].
  destruct (Hn n) as (t & Hl & Hne & Hreg); [apply elem_of_cons; by left|].
  assert (Hone : scan_one rec n w = Some (Normal w)).
  { unfold scan_one. rewrite Hl.
    destruct (negb (done t) && negb (running t)) eqn:Ef; [|done].
    apply andb_true_iff in Ef as [Hd Hru]. apply negb_true_iff in Hd, Hru.
    unfold readyToRunTask.
    destruct (readyToRunTask_loop_cases t (dep t) w)
      as [[E Hdeps]|[(l1 & x & l2 & tx & Hdep & H1 & Hx & Hxd & E)|
                     (l1 & x & l2 & Hdep & H1 & Hx & E)]]; rewrite E.
    - destruct Hne. by exists t.
    - done.
    - destruct (Hreg x) as [tx Htx]; [|congruence].
      rewrite Hdep. apply elem_of_app. right. apply elem_of_cons. by left. }
  rewrite Hone, Hr. apply IH. intros m Hm. apply Hn, elem_of_cons. by right.
Qed.

(** X20: a pass repeated changes nothing.  When the stored sequence lists
    registered tasks once each with every dependency ahead of its
    dependent, and a call of [_runStep] has returned with the run still
    active, a second call of [_runStep] right after it invokes no executor
    and leaves the orchestrator exactly as it is. *)
Theorem pass_is_idempotent (fuel fuel' : nat) (w w' : world) :
  sequenced (tasks (this w)) (seq (this w)) →
  runStep fuel w = Some (Normal w') → isRunning (this w') = true →
  runStep (S fuel') w' = Some (Normal w').
Proof.
  intros Hseq H Hr'.
  assert (Hp : in_pass (seq (this w)) w) by done.
  destruct (runStep_in_order (seq (this w)) fuel w _ Hp H) as (evs & _ & _ & Hq).
  specialize (Hq w' eq_refl Hr').
  destruct (in_pass_steps [] _ _ _ (runStep_steps _ _ _ H) Hp) as [Hsq' (Hnd & Hreg & Hdep)].
  simpl in Hsq'.
  assert (Hall : allDone w' = Some false).
  { destruct fuel as [|fuel]; [done|]. simpl in H.
    destruct (isRunning (this w)) eqn:Hr.
    - by eapply scan_leaves_unfinished.
    - injection H as <-. congruence. }
  simpl. rewrite Hr'. rewrite scan_nothing_to_start; [by rewrite Hall|done|].
  rewrite Hsq'. intros n Hn. destruct (Hreg n Hn) as [t Hl].
  exists t. split; [done|]. split; [by apply Hq|].
  intros d Hd. destruct (Hdep n d Hn) as (k1 & k2 & E & Hk); [by exists t|].
  apply Hreg. rewrite E. apply elem_of_app. by left.
Qed.

Lemma pass_is_idempotent_witness :
  let wait := FFunction (Build_executor 1 [] (Return RPlain)) in
  let w := Build_world
             (Build_orchestrator false None ["a"; "b"]
                [Build_task "a" [] wait false false 0;
                 Build_task "b" ["a"] wait false false 1] true) 2 [] in
  let w' := at_call (Build_task "a" [] wait false false 0) w in
  runStep 1 w' = Some (Normal w').
Proof.
  intros wait w w'.
  apply (pass_is_idempotent 1 0 w w').
  - split; [|split].
    + repeat (apply NoDup_cons; split; [set_solver|]). apply NoDup_nil_2.
    + intros n Hn. unfold registered.
      repeat (apply elem_of_cons in Hn as [->|Hn]; [by eexists|]).
      by apply elem_of_nil in Hn.
    + intros n d Hn (t & Hl & Hd).
      repeat (apply elem_of_cons in Hn as [->|Hn];
              [injection Hl as <-; simpl in Hd;
               repeat (apply elem_of_cons in Hd as [->|Hd];
                       [by exists ["a"], []; split; [done|set_solver]|]);
               by apply elem_of_nil in Hd|]).
      by apply elem_of_nil in Hn.
  - reflexivity.
  - reflexivity.
Defined.

(** ** What a pass leaves alone *)

Lemma consoles_app evs1 evs2 : consoles (evs1 ++ evs2) = consoles evs1 ++ consoles evs2.
Proof. apply omap_app. Qed.

Lemma consoles_stop_events err b w :
  verbose (this w) = false → consoles (stop_events err b w) = [].
Proof. intros Hv. unfold stop_events. rewrite Hv. by destruct (doneCallback (this w)). Qed.

Lemma within_refl w : within w w.
Proof.
  exists []. rewrite app_nil_r. repeat split; try done. by intros ? ?%elem_of_nil.
Qed.

Lemma within_trans w1 w2 w3 : within w1 w2 → within w2 w3 → within w1 w3.
Proof.
  intros (e1 & Ht1 & Hs1 & Hv1 & Hin1 & Hc1) (e2 & Ht2 & Hs2 & Hv2 & Hin2 & Hc2).
  exists (e1 ++ e2). split; [by rewrite Ht2, Ht1, app_assoc|].
  split; [congruence|]. split; [congruence|]. split.
  - unfold starts. rewrite omap_app. intros n [H|H]%elem_of_app; [by apply Hin1|].
    rewrite <- Hs1. by apply Hin2.
  - intros Hv. rewrite consoles_app, Hc1, Hc2; [done|congruence|done].
Qed.

Lemma within_mark_done t w : within w (mark_done t w).
Proof.
  exists []. rewrite app_nil_r. repeat split; try done. by intros ? ?%elem_of_nil.
Qed.

Lemma within_log line w : within w (log line w).
Proof.
  exists (if verbose (this w) then [Console line] else []).
  rewrite log_trace, log_this. repeat split; try done.
  - intros n Hn. destruct (verbose (this w)); by apply elem_of_nil in Hn.
  - by intros ->.
Qed.

Lemma within_stop err b w : within w (stop err b w).
Proof.
  pose proof (step_stop_events [] err b w) as H.
  exists (stop_events err b w). split; [apply stop_trace|].
  split; [apply H|]. split; [apply H|]. split.
  - rewrite stop_events_starts. by intros ? ?%elem_of_nil.
  - apply consoles_stop_events.
Qed.

Lemma within_at_call t w : name t ∈ seq (this w) → within w (at_call t w).
Proof.
  intros Hin. destruct (at_call_fields t w) as (Hv & _ & Hsq & _).
  exists ((if verbose (this w) then [Console ("[" +:+ name t +:+ " started]")] else [])
          ++ [Started (name t) (tasks (this w))]).
  split; [apply at_call_trace|]. split; [done|]. split; [done|]. split.
  - intros n Hn.
    assert (n = name t) as ->; [|done].
    destruct (verbose (this w)); simpl in Hn; by apply list_elem_of_singleton in Hn.
  - by intros ->.
Qed.

Section SchedulerWithin.
Variable rec : world → option outcome.
Hypothesis rec_within : ∀ w o, rec w = Some o → within w (world_of o).

Lemma cb_within t err w o : cb rec t err w = Some o → within w (world_of o).
Proof.
  unfold cb. intros H.
  eapply within_trans; [apply within_mark_done|].
  eapply within_trans; [apply within_log|].
  destruct (truthy err).
  - injection H as <-. apply within_stop.
  - by apply rec_within.
Qed.

Lemma call_body_within t calls w o :
  call_body rec t calls w = Some o → within w (world_of o).
Proof.
  revert w. induction calls as [|v calls IH]; simpl; intros w H.
  - injection H as <-. apply within_refl.
  - destruct (cb rec t v w) as [[w'|e w']|] eqn:E; [|injection H as <-|done].
    + eapply within_trans; [by eapply cb_within|]. by apply IH.
    + by eapply cb_within.
Qed.

Lemma call_fn_within t w e w' : call_fn rec t w = Some (e, w') → within w w'.
Proof.
  unfold call_fn. destruct (fn t) as [l|f].
  - intros [= <- <-]. apply within_refl.
  - destruct (call_body rec t (fn_calls f) w) as [[w1|e1 w1]|] eqn:E; [| |done];
      intros [= <- <-]; by apply call_body_within in E.
Qed.

Lemma onFulfilled_within t w o : onFulfilled rec t w = Some o → within w (world_of o).
Proof.
  unfold onFulfilled. intros H.
  eapply within_trans; [apply within_mark_done|].
  eapply within_trans; [apply within_log|]. by apply rec_within.
Qed.

Lemma onRejected_within t err w : within w (onRejected t err w).
Proof.
  unfold onRejected.
  eapply within_trans; [apply within_mark_done|].
  eapply within_trans; [apply within_log|]. apply within_stop.
Qed.

Lemma register_handlers_within t settles w o :
  register_handlers rec t settles w = Some o → within w (world_of o).
Proof.
  revert w. induction settles as [|s settles IH]; simpl; intros w H.
  - injection H as <-. apply within_refl.
  - destruct s as [|e].
    + destruct (onFulfilled rec t w) as [[w'|e' w']|] eqn:E; [|injection H as <-|done].
      * eapply within_trans; [by eapply onFulfilled_within|]. by apply IH.
      * by eapply onFulfilled_within.
    + eapply within_trans; [apply onRejected_within|]. by apply IH.
Qed.

Lemma runTask_within t w o :
  name t ∈ seq (this w) → runTask rec t w = Some o → within w (world_of o).
Proof.
  intros Hin H. eapply within_trans; [by apply within_at_call|].
  unfold runTask in H. fold (at_call t w) in H.
  destruct (call_fn rec t (at_call t w)) as [[e w3]|] eqn:Ecall; [|done].
  eapply within_trans; [by eapply call_fn_within|].
  destruct e as [err|[|settles]].
  - eapply within_trans; [apply within_stop|].
    destruct (Nat.eqb (fnval_length (fn t)) 0); injection H as <-; simpl.
    + eapply within_trans; [apply within_log|apply within_mark_done].
    + apply within_refl.
  - destruct (Nat.eqb (fnval_length (fn t)) 0); injection H as <-; simpl.
    + eapply within_trans; [apply within_log|apply within_mark_done].
    + apply within_refl.
  - by eapply register_handlers_within.
Qed.

Lemma scan_one_within n w o :
  n ∈ seq (this w) → scan_one rec n w = Some o → within w (world_of o).
Proof.
  unfold scan_one. intros Hin H.
  destruct (lookup_task n (tasks (this w))) as [t|] eqn:E.
  2:{ injection H as <-. apply within_refl. }
  destruct (negb (done t) && negb (running t)).
  2:{ injection H as <-. apply within_refl. }
  unfold readyToRunTask in H.
  destruct (readyToRunTask_loop_cases t (dep t) w)
    as [[Er _]|[(l1 & x & l2 & tx & _ & _ & _ & _ & Er)|(l1 & x & l2 & _ & _ & _ & Er)]];
    rewrite Er in H.
  - apply (runTask_within t); [|done]. by rewrite (lookup_task_name _ _ _ E).
  - injection H as <-. apply within_refl.
  - injection H as <-. apply within_stop.
Qed.

Lemma scan_within names w o :
  (∀ n, n ∈ names → n ∈ seq (this w)) →
  scan rec names w = Some o → within w (world_of o).
Proof.
  revert w. induction names as [|n names IH]; simpl; intros w Hin H.
  - destruct (allDone w) as [[|]|]; injection H as <-; simpl;
      [apply within_stop | apply within_refl | apply within_refl].
  - destruct (scan_one rec n w) as [[w'|e w']|] eqn:E; [|injection H as <-|done].
    + apply scan_one_within in E; [|apply Hin, elem_of_cons; by left]. simpl in E.
      eapply within_trans; [done|].
      destruct (isRunning (this w')) eqn:Hr'.
      * apply IH; [|done]. intros m Hm. destruct E as (evs & _ & -> & _).
        apply Hin, elem_of_cons. by right.
      * injection H as <-. apply within_refl.
    + apply scan_one_within in E; [done|]. apply Hin, elem_of_cons. by left.
Qed.
End SchedulerWithin.

Lemma runStep_within fuel w o : runStep fuel w = Some o → within w (world_of o).
Proof.
  revert w o. induction fuel as [|fuel IH]; simpl; intros w o H; [done|].
  destruct (isRunning (this w)) eqn:Hr.
  - eapply scan_within; eauto.
  - injection H as <-. apply within_refl.
Qed.

(** X21: a pass of [_runStep], with all the passes nested in it, invokes
    executors of tasks named in the stored sequence only, and changes the
    registry entries of no other tasks than those whose executor it
    invoked; a registered task that is not in the sequence is left exactly
    as it was.  The stored sequence itself is not changed. *)
Theorem pass_touches_only_the_sequence (fuel : nat) (w : world) (o : outcome) :
  runStep fuel w = Some o →
  ∃ evs, trace (world_of o) = trace w ++ evs ∧
         seq (this (world_of o)) = seq (this w) ∧
         (∀ n, n ∈ starts evs → n ∈ seq (this w)) ∧
         (∀ n, n ∉ starts evs →
               lookup_task n (tasks (this (world_of o))) = lookup_task n (tasks (this w))) ∧
         (∀ n, n ∉ seq (this w) →
               lookup_task n (tasks (this (world_of o))) = lookup_task n (tasks (this w))).
Proof.
  intros H.
  destruct (runStep_within _ _ _ H) as (evs & Htr & Hsq & _ & Hin & _).
  destruct (runStep_steps _ _ _ H) as [evs' Hs].
  assert (evs' = evs) as ->.
  { pose proof (step_trace _ _ _ _ Hs) as Htr'. rewrite Htr in Htr'.
    by apply app_inv_head in Htr'. }
  exists evs. repeat split; try done.
  - intros n Hn. apply (step_untouched _ _ _ _ Hs); [by intros ?%elem_of_nil|done].
  - intros n Hn. apply (step_untouched _ _ _ _ Hs); [by intros ?%elem_of_nil|].
    intros Hst. by apply Hn, Hin.
Qed.

Lemma pass_touches_only_the_sequence_witness :
  let sync := FFunction (Build_executor 0 [] (Return RPlain)) in
  let w := Build_world
             (Build_orchestrator false None ["a"]
                [Build_task "a" [] sync false false 0;
                 Build_task "b" [] sync false false 1] true) 2 [] in
  lookup_task "b" (tasks (this (default w (world_of <$> runStep 1 w)))) =
  lookup_task "b" (tasks (this w)).
Proof.
  intros sync w.
  destruct (pass_touches_only_the_sequence 1 w (default (Normal w) (runStep 1 w)))
    as (evs & _ & _ & _ & _ & H).
  - vm_compute. reflexivity.
  - apply (H "b"). set_solver.
Defined.

(** ** Logging *)

Lemma within_silent w w' : within w w' → silent w w'.
Proof. intros (evs & Htr & _ & Hv & _ & Hc). by exists evs. Qed.

Lemma silent_refl w : silent w w.
Proof. exists []. by rewrite app_nil_r. Qed.

Lemma silent_trans w1 w2 w3 : silent w1 w2 → silent w2 w3 → silent w1 w3.
Proof.
  intros (e1 & Ht1 & Hv1 & Hc1) (e2 & Ht2 & Hv2 & Hc2).
  exists (e1 ++ e2). split; [by rewrite Ht2, Ht1, app_assoc|]. split; [congruence|].
  intros Hv. rewrite consoles_app, Hc1, Hc2; [done|congruence|done].
Qed.

Lemma silent_fields w w' :
  trace w' = trace w → verbose (this w') = verbose (this w) → silent w w'.
Proof. intros Ht Hv. exists []. by rewrite app_nil_r. Qed.

Lemma add_silent n d f w : silent w (world_of (add n d f w)).
Proof.
  destruct (add_cases n d f w) as [[e ->]|(t & _ & ->)]; [apply silent_refl|].
  by apply silent_fields.
Qed.

Lemma reset_silent w : silent w (reset w).
Proof.
  eapply silent_trans; [apply within_silent, (within_stop VNull false)|].
  by apply silent_fields.
Qed.

Lemma prepared_silent s w : silent w (prepared s w).
Proof.
  unfold prepared.
  set (w1 := log ("[seq: " +:+ String.concat "," s +:+ "]") (set_seq s w)).
  assert (H1 : silent w w1).
  { eapply silent_trans; [|apply within_silent, within_log]. by apply silent_fields. }
  destruct (isRunning (this w1)); [done|].
  eapply silent_trans; [exact H1|]. by apply silent_fields.
Qed.

Lemma run_silent fuel names notify w r :
  run fuel names notify w = Some r → silent w (world_of r).
Proof.
  intros (s & w1 & Hc & H)%run_cases.
  destruct (with_notifier_fields notify w) as (_ & _ & _ & Hv0 & _ & Htr0 & _).
  apply (silent_trans _ (with_notifier notify w)); [by apply silent_fields|].
  apply (silent_trans _ w1).
  { apply sequence_call_cases in Hc as [[_ ->]|(e & _ & _ & ->)];
      [apply silent_refl|apply within_silent, within_stop]. }
  apply (silent_trans _ (prepared s w1)); [apply prepared_silent|].
  by apply within_silent, (runStep_within fuel).
Qed.

Lemma exec_silent fuel o w r : exec fuel o w = Some r → silent w (world_of r).
Proof.
  destruct o as [n d f|names notify|err fin| |t err|t|t err]; simpl; intros H.
  - injection H as <-. apply add_silent.
  - by eapply run_silent.
  - injection H as <-. apply within_silent, within_stop.
  - injection H as <-. apply reset_silent.
  - apply within_silent. eapply cb_within; [|exact H]. apply runStep_within.
  - apply within_silent. eapply onFulfilled_within; [|exact H]. apply runStep_within.
  - injection H as <-. apply within_silent, onRejected_within.
Qed.

(** X22: the verbosity chosen at construction is never changed, and an
    orchestrator that is not verbose never writes to the console: over any
    sequence of calls of [add], [run], [stop] and [reset] and of completion
    signals, no line is logged. *)
Theorem quiet_orchestrator_logs_nothing (fuel : nat) (ops : list op) (w w' : world) :
  exec_all fuel ops w = Some w' →
  verbose (this w') = verbose (this w) ∧
  ∃ evs, trace w' = trace w ++ evs ∧
         (verbose (this w) = false → consoles evs = []).
Proof.
  intros H.
  assert (Hs : silent w w').
  { revert w H. induction ops as [|o ops IH]; simpl; intros w H.
    - injection H as <-. apply silent_refl.
    - destruct (exec fuel o w) as [r|] eqn:E; [|done].
      eapply silent_trans; [by eapply exec_silent|by apply IH]. }
  destruct Hs as (evs & Htr & Hv & Hc). split; [done|]. by exists evs.
Qed.

Lemma quiet_orchestrator_logs_nothing_witness :
  let f := AFunction (Build_executor 0 [] (Throw (VError "bad"))) in
  let ops := [OpAdd (Some "a") AUndefined f; OpRun [] (Some 1); OpReset] in
  let w := Orchestrator false None [] in
  ∃ evs, trace (default w (exec_all 2 ops w)) = trace w ++ evs ∧
         (verbose (this w) = false → consoles evs = []).
Proof.
  intros f ops w.
  apply (proj2 (quiet_orchestrator_logs_nothing 2 ops w (default w (exec_all 2 ops w))
                  ltac:(vm_compute; reflexivity))).
Defined.

(** ** A run of synchronous tasks *)

(** X23: a run of synchronous tasks does all the requested work before
    [run] returns.  When the sequencer, given the names [run] requests,
    returns the sequence [s], and every task of [s] is not running and has
    an executor that declares no parameter, does not call the completion
    callback, returns no deferred handle and does not throw, then [run]
    invokes the executors of exactly the tasks of [s] not yet done, once
    each and in the order of [s], leaves every task of [s] done, and hands
    [null] to the notifier, once, before it returns; the orchestrator is
    idle again. *)
Theorem run_of_sync_tasks_succeeds (fuel : nat) (names : list string)
    (notify : option notifier) (w : world) (s : list string) :
  sequence (tasks (this w)) (run_names names w) [] [] = SeqOk s →
  (∀ n t, n ∈ s → lookup_task n (tasks (this w)) = Some t →
          plain_sync t ∧ running t = false) →
  ∃ w' evs,
    run (S fuel) names notify w = Some (Normal w') ∧ trace w' = trace w ++ evs ∧
    starts evs = filter (λ n, pending (tasks (this w)) n = true) s ∧
    stops evs = [VNull] ∧
    notified evs =
      match (match notify with Some c => Some c | None => doneCallback (this w) end) with
      | Some c => [(c, VNull)]
      | None => []
      end ∧
    isRunning (this w') = false ∧
    Forall (finished (tasks (this w'))) s.
Proof.
  intros Hs Hsync.
  destruct (sequence_sequenced _ _ _ Hs) as ((Hnd & Hreg & Hdep) & _).
  destruct (run_prepared (S fuel) names notify w s Hs)
    as (w1 & -> & Hs1 & Hr1 & Ht1 & Hdc1 & e1 & Htr1 & Hst1 & Hsp1 & Hno1).
  simpl. rewrite Hr1, Hs1.
  destruct (scan_sync (runStep fuel) s [] w1) as (w' & e2 & H & Htr & Hst & Hsp & Hno & Hr' & Hfin);
    try done.
  { intros l1 n l2 E.
    assert (Hin : n ∈ s).
    { rewrite E. apply elem_of_app. right. apply elem_of_cons. by left. }
    rewrite Ht1. destruct (Hreg n Hin) as [t Hl]. destruct (Hsync n t Hin Hl) as [Hps Hrun].
    exists t. repeat split; try done. intros d Hd. simpl.
    destruct (Hdep n d Hin) as (k1 & k2 & E' & Hk); [by exists t|].
    rewrite E in E'. rewrite E in Hnd.
    by rewrite (NoDup_split_unique l1 l2 k1 k2 n Hnd E'). }
  exists w', (e1 ++ e2). split; [done|]. split; [by rewrite Htr, Htr1, app_assoc|].
  unfold starts, stops, notified in *. rewrite !omap_app, Hst1, Hsp1, Hno1, Hst, Hsp, Hno.
  rewrite Ht1, Hdc1. done.
Qed.

Lemma run_of_sync_tasks_succeeds_witness :
  let f := AFunction (Build_executor 0 [] (Return RPlain)) in
  let w0 := Orchestrator false None [] in
  let w1 := world_of (add (Some "b") (AArray ["a"]) f w0) in
  let w := world_of (add (Some "a") AUndefined f w1) in
  ∃ w' evs,
    run 1 ["b"] (Some 7) w = Some (Normal w') ∧ trace w' = trace w ++ evs ∧
    starts evs = ["a"; "b"] ∧ stops evs = [VNull] ∧ notified evs = [(7, VNull)] ∧
    isRunning (this w') = false ∧
    Forall (finished (tasks (this w'))) ["a"; "b"].
Proof.
  intros f w0 w1 w.
  apply (run_of_sync_tasks_succeeds 0 ["b"] (Some 7) w ["a"; "b"]).
  - reflexivity.
  - intros n t Hn Hl.
    repeat (apply elem_of_cons in Hn as [->|Hn];
            [injection Hl as <-; split; [by eexists|done]|]).
    by apply elem_of_nil in Hn.
Defined.
